(** * Collaborative canvas: operation log, undo/redo, client replay

    A shallow embedding of the synchronisation core of the collaborative
    canvas: the room-identifier helpers of [RoomSelector], the point filter
    of the canvas engine, the client-side operation list of [useCanvas], and
    the [SyncService] methods over the two Postgres tables [operations] and
    [redo_stack]. *)

From Stdlib Require Import List Arith ZArith QArith Bool Lia.
From Stdlib Require Import Ascii String.
From Stdlib Require Import Permutation Sorted.
From Stdlib Require Import SpecFloat.
From Stdlib Require Qround.
Import ListNotations.

(* ================================================================== *)
(** * Room identifiers ([roomIdToUUID] / [uuidToRoomId]) *)
(* ================================================================== *)

Module RoomSelector.

Local Open Scope string_scope.

(** [String.prototype.padEnd(target, fill)] for a one-character [fill]:
    the string is returned as it is when it already has [target] characters
    or more. *)
Fixpoint repeat_char (c : ascii) (n : nat) : string :=
  match n with
  | O => EmptyString
  | S k => String c (repeat_char c k)
  end.

Definition padEnd (target : nat) (fill : ascii) (s : string) : string :=
  s ++ repeat_char fill (target - String.length s).

(** [String.prototype.slice(a, b)] for [0 <= a <= b]: the characters at
    positions [a .. b-1], as many as exist. *)
Definition slice (a b : nat) (s : string) : string :=
  substring a (b - a) s.

(** [s.replace(/-/g, '')]: every hyphen is dropped. *)
Fixpoint remove_hyphens (s : string) : string :=
  match s with
  | EmptyString => EmptyString
  | String c r =>
      if Ascii.eqb c "-" then remove_hyphens r else String c (remove_hyphens r)
  end.

Definition roomIdToUUID (shortId : string) : string :=
  let padded := padEnd 32 "0" shortId in
  slice 0 8 padded ++ "-" ++ slice 8 12 padded ++ "-" ++ slice 12 16 padded
    ++ "-" ++ slice 16 20 padded ++ "-" ++ slice 20 32 padded.

Definition uuidToRoomId (uuid : string) : string :=
  slice 0 8 (remove_hyphens uuid).

(** A string with no hyphen in it. *)
Fixpoint hyphen_free (s : string) : bool :=
  match s with
  | EmptyString => true
  | String c r => negb (Ascii.eqb c "-") && hyphen_free r
  end.

End RoomSelector.

(* ================================================================== *)
(** * Stable sorting by an integer key *)
(* ================================================================== *)

(** [Array.prototype.sort] with the comparator [(a, b) => key a - key b] is
    a stable sort in ascending key order; [ORDER BY key] is any sort in key
    order.  Both are embedded as the stable insertion sort below. *)
Module Sorting.
Set Implicit Arguments.
Section SortBy.
Variable A : Type.
Variable key : A -> Z.

Fixpoint insert_by (a : A) (l : list A) : list A :=
  match l with
  | [] => [a]
  | b :: r => if (key a <=? key b)%Z then a :: b :: r else b :: insert_by a r
  end.

Fixpoint sort_by (l : list A) : list A :=
  match l with
  | [] => []
  | a :: r => insert_by a (sort_by r)
  end.

Definition le_key (a b : A) : Prop := (key a <= key b)%Z.
Definition lt_key (a b : A) : Prop := (key a < key b)%Z.

(** [ORDER BY key DESC LIMIT 1]: a row with the greatest key. *)
Fixpoint max_by (l : list A) : option A :=
  match l with
  | [] => None
  | a :: r =>
      match max_by r with
      | None => Some a
      | Some b => if (key b <=? key a)%Z then Some a else Some b
      end
  end.
End SortBy.
Unset Implicit Arguments.
End Sorting.

(* ================================================================== *)
(** * Canvas types ([types/canvas]) *)
(* ================================================================== *)

(** A coordinate or a width is a JavaScript number, a double; a field
    holds it as the rational that it equals.  Sequence numbers and
    timestamps are integers. *)
Module Point.
Record t : Type := mk
  { x : Q; y : Q; pressure : option Q; timestamp : Z }.
End Point.

Inductive ToolType : Type := brush | eraser.

Module StrokeOperation.
Record t : Type := mk
  { id : string; userId : string; color : string; width : Q;
    tool : ToolType; points : list Point.t;
    startTime : Z; endTime : option Z; sequence : Z }.
End StrokeOperation.

Module ClearOperation.
Record t : Type := mk
  { id : string; userId : string; timestamp : Z; sequence : Z }.
End ClearOperation.

Inductive DrawingOperation : Type :=
| Stroke (s : StrokeOperation.t)
| Clear (c : ClearOperation.t).

Definition op_id (op : DrawingOperation) : string :=
  match op with
  | Stroke s => StrokeOperation.id s
  | Clear c => ClearOperation.id c
  end.

Definition op_userId (op : DrawingOperation) : string :=
  match op with
  | Stroke s => StrokeOperation.userId s
  | Clear c => ClearOperation.userId c
  end.

Definition op_sequence (op : DrawingOperation) : Z :=
  match op with
  | Stroke s => StrokeOperation.sequence s
  | Clear c => ClearOperation.sequence c
  end.

(* ================================================================== *)
(** * JavaScript numbers *)
(* ================================================================== *)

(** Arithmetic on JavaScript numbers is that of IEEE 754 binary64: the
    operations of the Standard Library's [SpecFloat] at precision 53 and
    maximal exponent 1024, each rounding its exact result to the nearest
    double, ties to even. *)
Module Number.

Definition number : Type := spec_float.

Definition prec : Z := 53.
Definition emax : Z := 1024.

(** The double nearest to a rational: [SFdiv] takes the numerator and the
    denominator as two integer mantissas with exponent 0 and rounds their
    quotient once.  On a rational that is a double it is that double. *)
Definition toNumber (q : Q) : number :=
  match Qnum q with
  | Z0 => S754_zero false
  | Zpos n =>
      SFdiv prec emax (S754_finite false n 0) (S754_finite false (Qden q) 0)
  | Zneg n =>
      SFdiv prec emax (S754_finite true n 0) (S754_finite false (Qden q) 0)
  end.

Definition add : number -> number -> number := SFadd prec emax.
Definition sub : number -> number -> number := SFsub prec emax.
Definition mul : number -> number -> number := SFmul prec emax.
Definition div : number -> number -> number := SFdiv prec emax.

(** [Math.sqrt] *)
Definition sqrt : number -> number := SFsqrt prec emax.

(** [a ** 2]: the engines compute an exponent of 2 as one multiplication. *)
Definition pow2 (a : number) : number := mul a a.

(** [a >= b], false when either is NaN. *)
Definition ge (a b : number) : bool := SFleb b a.

(** [Math.max(a, b)]: NaN when either is NaN, and [+0] above [-0]. *)
Definition max (a b : number) : number :=
  match SFcompare a b with
  | None => S754_nan
  | Some Lt => b
  | Some Gt => a
  | Some Eq => match a with S754_zero true => b | _ => a end
  end.

End Number.

(* ================================================================== *)
(** * The point filter of the canvas engine *)
(* ================================================================== *)

Module CanvasEngine.
Import Number.

(** A JavaScript array of points holds references to [Point] objects, and
    [!==] on two of them compares the references.  An array is a list of
    locations, and a heap gives the object at each location. *)
Definition loc : Type := nat.

(** [Math.sqrt((p2.x - p1.x) ** 2 + (p2.y - p1.y) ** 2)] *)
Definition distance (p1 p2 : Point.t) : number :=
  sqrt (add (pow2 (sub (toNumber (Point.x p2)) (toNumber (Point.x p1))))
            (pow2 (sub (toNumber (Point.y p2)) (toNumber (Point.y p1))))).

Section Filter.
(** The comparison of the loop, on locations. *)
Variable far : loc -> loc -> bool.

(** One iteration of the [for] loop: [points[i]] is pushed when it is far
    enough from [filtered[filtered.length - 1]]. *)
Definition filter_step (filtered : list loc) (p : loc) : list loc :=
  if far (last filtered O) p then filtered ++ [p] else filtered.

Definition filterNearbyPoints_with (points : list loc) : list loc :=
  if (List.length points <? 2)%nat then points
  else
    let filtered := fold_left filter_step (tl points) [hd O points] in
    if negb (last filtered O =? last points O)%nat
    then filtered ++ [last points O]
    else filtered.

(** The filter in the words of the specification: going through the raw
    points after the first, a point is retained exactly when it is far
    enough from the last retained one. *)
Inductive Retained : loc -> list loc -> list loc -> Prop :=
| Retained_nil k : Retained k [] []
| Retained_keep k p ps out :
    far k p = true -> Retained p ps out -> Retained k (p :: ps) (p :: out)
| Retained_drop k p ps out :
    far k p = false -> Retained k ps out -> Retained k (p :: ps) out.
End Filter.

Definition filterNearbyPoints (heap : loc -> Point.t)
    (points : list loc) (minDistance : number) : list loc :=
  filterNearbyPoints_with
    (fun a b => ge (distance (heap a) (heap b)) minDistance) points.

(** [Math.max(1, toolSettings.width / 4)] *)
Definition minDist (width : Q) : number :=
  max (toNumber 1) (div (toNumber width) (toNumber 4)).

(** The points of the stroke in progress, as [continueDrawing] and
    [endDrawing] compute them from the point buffer. *)
Definition strokePoints (heap : loc -> Point.t) (pointBuffer : list loc)
    (width : Q) : list loc :=
  filterNearbyPoints heap pointBuffer (minDist width).

(** The three points of the scenario, as three distinct objects. *)
Definition heap3 (l : loc) : Point.t :=
  match l with
  | O => Point.mk 0 0 None 0
  | S O => Point.mk 0 1 None 1
  | _ => Point.mk 0 2 None 2
  end.

(** Points created one after the other, at the coordinates given. *)
Definition heapOf (coordinates : list (Q * Q)) (l : loc) : Point.t :=
  Point.mk (fst (nth l coordinates (0, 0))) (snd (nth l coordinates (0, 0)))
    None (Z.of_nat l).



(** Three points, the second at 3.9999999999999996 on the y axis. *)
Definition close_track : list (Q * Q) :=
  [(0, 0); (3, 39999999999999996 # 10000000000000000); (3, 9 # 2)].

End CanvasEngine.

(* ================================================================== *)
(** * The operation list of a client ([useCanvas]) *)
(* ================================================================== *)

Module UseCanvas.

(** The state that [setOperationsState] updates; each function below is
    the updater that the hook passes to it. *)
Definition State : Type := list DrawingOperation.

Definition has_id (i : string) (ops : State) : bool :=
  existsb (fun op => String.eqb (op_id op) i) ops.

Definition addOperation (operation : DrawingOperation) (prev : State) : State :=
  if has_id (op_id operation) prev then prev
  else Sorting.sort_by op_sequence (prev ++ [operation]).

Definition removeOperation (i : string) (prev : State) : State :=
  filter (fun op => negb (String.eqb (op_id op) i)) prev.

Definition setOperations (ops : list DrawingOperation) : State :=
  Sorting.sort_by op_sequence ops.

Definition clear : State := [].

(** Operations delivered one at a time, in the order of the list. *)
Definition deliver (ops : list DrawingOperation) (s : State) : State :=
  fold_left (fun st op => addOperation op st) ops s.

Definition ascending (s : State) : Prop :=
  StronglySorted (Sorting.lt_key op_sequence) s.

(** A stroke as a peer receives it, with identifier [i] and sequence [n]. *)
Definition sample_stroke (i : string) (n : Z) : DrawingOperation :=
  Stroke (StrokeOperation.mk i "u1" "#1a1a2e" 4 brush [] 0 None n).

End UseCanvas.

(* ================================================================== *)
(** * The two tables ([operations], [redo_stack]) *)
(* ================================================================== *)

Module Database.
Import Sorting.
Local Open Scope Z_scope.

Definition uuid : Type := string.

(** [type TEXT NOT NULL CHECK (type IN ('stroke', 'clear'))] *)
Inductive OpType : Type := stroke | clear.

(** The JSONB column [data]: every field may be absent. *)
Module OpData.
Record t : Type := mk
  { id : option string; color : option string; width : option Q;
    tool : option ToolType; points : option (list Point.t) }.
End OpData.

Module Row.
Record t : Type := mk
  { id : uuid; room_id : uuid; user_id : string; user_name : string;
    user_color : string; sequence : Z; type : OpType; data : OpData.t;
    created_at : Z }.
End Row.

(** A row of [redo_stack]; [operation_data] holds the removed row whole. *)
Module RedoRow.
Record t : Type := mk
  { id : uuid; room_id : uuid; operation_data : Row.t; deleted_at : Z;
    original_id : uuid }.
End RedoRow.

(** The database: the two tables and the counter behind the [BIGSERIAL]
    column [operations.sequence], which all rooms share. *)
Record DB : Type := mkDB
  { operations : list Row.t;
    redo_stack : list RedoRow.t;
    operations_sequence_seq : Z }.

Definition empty_db : DB := mkDB [] [] 1.

(** What the outside world decides for one statement: whether the request
    goes through at all, and what [gen_random_uuid()] and [now()] give when
    the statement evaluates them. *)
Record Outcome : Type := mkOutcome
  { ok : bool; gen_random_uuid : uuid; now : Z }.

(** The [{ data, error }] pair that a request resolves to. *)
Inductive Response (A : Type) : Type :=
| Data (a : A)
| Error.
Arguments Data {A} a.
Arguments Error {A}.

(** Requests are threaded through the database. *)
Definition Supabase (A : Type) : Type := DB -> A * DB.

Definition ret {A : Type} (a : A) : Supabase A := fun db => (a, db).

Definition bind {A B : Type} (m : Supabase A) (k : A -> Supabase B)
  : Supabase B :=
  fun db => let (a, db') := m db in k a db'.

Declare Scope supabase_scope.
Delimit Scope supabase_scope with supabase.
Notation "x <- m ;; k" := (bind m (fun x => k))
  (at level 61, m at next level, right associativity) : supabase_scope.
Notation "'await' m ;; k" := (bind m (fun _ => k))
  (at level 61, m at next level, right associativity) : supabase_scope.

Definition in_room (room : uuid) (r : Row.t) : bool :=
  String.eqb (Row.room_id r) room.

Definition redo_in_room (room : uuid) (r : RedoRow.t) : bool :=
  String.eqb (RedoRow.room_id r) room.

Definition mem (i : uuid) (l : list uuid) : bool := existsb (String.eqb i) l.

(** [INSERT INTO operations (room_id, user_id, user_name, user_color, type,
    data) ... RETURNING *]: [id], [sequence] and [created_at] take their
    defaults; the primary key rejects an identifier that is in the table.
    A statement that fails leaves the database as it was. *)
Definition insert_operation (o : Outcome) (room : uuid)
    (user_id user_name user_color : string) (ty : OpType) (d : OpData.t)
  : Supabase (Response Row.t) :=
  fun db =>
    if ok o && negb (mem (gen_random_uuid o) (map Row.id (operations db)))
    then
      let row := Row.mk (gen_random_uuid o) room user_id user_name user_color
                   (operations_sequence_seq db) ty d (now o) in
      (Data row,
       mkDB (operations db ++ [row]) (redo_stack db)
            (operations_sequence_seq db + 1))
    else (Error, db).

(** [DELETE FROM operations WHERE room_id = room] *)
Definition delete_operations_in_room (o : Outcome) (room : uuid)
  : Supabase (Response unit) :=
  fun db =>
    if ok o
    then (Data tt,
          mkDB (filter (fun r => negb (in_room room r)) (operations db))
               (redo_stack db) (operations_sequence_seq db))
    else (Error, db).

(** [DELETE FROM operations WHERE id = i] *)
Definition delete_operation (o : Outcome) (i : uuid)
  : Supabase (Response unit) :=
  fun db =>
    if ok o
    then (Data tt,
          mkDB (filter (fun r => negb (String.eqb (Row.id r) i))
                  (operations db))
               (redo_stack db) (operations_sequence_seq db))
    else (Error, db).

(** [SELECT * FROM operations WHERE room_id = room ORDER BY sequence DESC
    LIMIT 1], read with [.single()]: no row is an error. *)
Definition select_last_operation (o : Outcome) (room : uuid)
  : Supabase (Response Row.t) :=
  fun db =>
    if ok o
    then match max_by Row.sequence (filter (in_room room) (operations db)) with
         | Some r => (Data r, db)
         | None => (Error, db)
         end
    else (Error, db).

(** The trigger [cleanup_old_redo_items], run after each insertion into
    [redo_stack]: of the rows of the room of the new row, those after the
    first 50 in descending [deleted_at] order are deleted, by identifier. *)
Definition redo_limit : nat := 50.

Definition newest_first (r : RedoRow.t) : Z := - RedoRow.deleted_at r.

Definition old_redo_items (room : uuid) (stack : list RedoRow.t)
  : list RedoRow.t :=
  skipn redo_limit (sort_by newest_first (filter (redo_in_room room) stack)).

Definition cleanup_old_redo_items (room : uuid) (stack : list RedoRow.t)
  : list RedoRow.t :=
  filter (fun r => negb (mem (RedoRow.id r)
                           (map RedoRow.id (old_redo_items room stack))))
         stack.

(** [INSERT INTO redo_stack (room_id, original_id, operation_data)]:
    [id] and [deleted_at] take their defaults, then the trigger runs. *)
Definition insert_redo (o : Outcome) (room : uuid) (original : uuid)
    (removed : Row.t) : Supabase (Response unit) :=
  fun db =>
    if ok o && negb (mem (gen_random_uuid o) (map RedoRow.id (redo_stack db)))
    then
      let row := RedoRow.mk (gen_random_uuid o) room removed (now o) original in
      (Data tt,
       mkDB (operations db)
            (cleanup_old_redo_items room (redo_stack db ++ [row]))
            (operations_sequence_seq db))
    else (Error, db).

(** [SELECT * FROM redo_stack WHERE room_id = room ORDER BY deleted_at DESC
    LIMIT 1], read with [.single()]. *)
Definition select_last_redo (o : Outcome) (room : uuid)
  : Supabase (Response RedoRow.t) :=
  fun db =>
    if ok o
    then match max_by RedoRow.deleted_at
                 (filter (redo_in_room room) (redo_stack db)) with
         | Some r => (Data r, db)
         | None => (Error, db)
         end
    else (Error, db).

(** [DELETE FROM redo_stack WHERE id = i] *)
Definition delete_redo (o : Outcome) (i : uuid) : Supabase (Response unit) :=
  fun db =>
    if ok o
    then (Data tt,
          mkDB (operations db)
               (filter (fun r => negb (String.eqb (RedoRow.id r) i))
                  (redo_stack db))
               (operations_sequence_seq db))
    else (Error, db).

(** [DELETE FROM redo_stack WHERE room_id = room] *)
Definition delete_redo_in_room (o : Outcome) (room : uuid)
  : Supabase (Response unit) :=
  fun db =>
    if ok o
    then (Data tt,
          mkDB (operations db)
               (filter (fun r => negb (redo_in_room room r)) (redo_stack db))
               (operations_sequence_seq db))
    else (Error, db).

(** The log and the redo stack of one room. *)
Definition room_log (room : uuid) (db : DB) : list Row.t :=
  filter (in_room room) (operations db).

Definition room_redo (room : uuid) (db : DB) : list RedoRow.t :=
  filter (redo_in_room room) (redo_stack db).

(** What the column defaults and the primary keys maintain. *)
Record wf (db : DB) : Prop := mk_wf
  { wf_counter : 1 <= operations_sequence_seq db;
    wf_sequence :
      Forall (fun r => 1 <= Row.sequence r < operations_sequence_seq db)
             (operations db);
    wf_sequence_distinct : NoDup (map Row.sequence (operations db));
    wf_id_distinct : NoDup (map Row.id (operations db));
    wf_redo_id_distinct : NoDup (map RedoRow.id (redo_stack db));
    wf_redo_sequence :
      Forall (fun r => Row.sequence (RedoRow.operation_data r)
                       < operations_sequence_seq db)
             (redo_stack db) }.

(** The clock has moved on since the removals on the redo stack of [room]. *)
Definition later (t : Z) (room : uuid) (db : DB) : Prop :=
  forall r, In r (room_redo room db) -> RedoRow.deleted_at r < t.

(** One statement of any client, for the interleavings of concurrent
    requests: each statement is atomic in the database. *)
Inductive Statement : Type :=
| InsertOperation (o : Outcome) (room : uuid)
    (user_id user_name user_color : string) (ty : OpType) (d : OpData.t)
| DeleteOperationsInRoom (o : Outcome) (room : uuid)
| DeleteOperation (o : Outcome) (i : uuid)
| InsertRedo (o : Outcome) (room original : uuid) (removed : Row.t)
| DeleteRedo (o : Outcome) (i : uuid)
| DeleteRedoInRoom (o : Outcome) (room : uuid).

(** The database after a statement, and the row that an accepted append
    created. *)
Definition execute (st : Statement) (db : DB) : option Row.t * DB :=
  match st with
  | InsertOperation o room u n c ty d =>
      match insert_operation o room u n c ty d db with
      | (Data row, db') => (Some row, db')
      | (Error, db') => (None, db')
      end
  | DeleteOperationsInRoom o room =>
      (None, snd (delete_operations_in_room o room db))
  | DeleteOperation o i => (None, snd (delete_operation o i db))
  | InsertRedo o room original removed =>
      (None, snd (insert_redo o room original removed db))
  | DeleteRedo o i => (None, snd (delete_redo o i db))
  | DeleteRedoInRoom o room => (None, snd (delete_redo_in_room o room db))
  end.

(** The rows appended by a schedule of statements, in acceptance order. *)
Fixpoint accepted (sts : list Statement) (db : DB) : list Row.t :=
  match sts with
  | [] => []
  | st :: rest =>
      let (r, db') := execute st db in
      match r with
      | Some row => row :: accepted rest db'
      | None => accepted rest db'
      end
  end.

Fixpoint execute_all (sts : list Statement) (db : DB) : DB :=
  match sts with
  | [] => db
  | st :: rest => execute_all rest (snd (execute st db))
  end.

Definition accepted_sequences (room : uuid) (sts : list Statement) (db : DB)
  : list Z :=
  map Row.sequence (filter (in_room room) (accepted sts db)).

End Database.

(* ================================================================== *)
(** * The sync service *)
(* ================================================================== *)

Module SyncService.
Import Database.
Local Open Scope string_scope.
Local Open Scope list_scope.
Local Open Scope Z_scope.
Local Open Scope supabase_scope.

Record t : Type := mk
  { roomId : uuid; userId : string; userName : string; userColor : string }.

(** [value || fallback] on strings and numbers: the empty string and zero
    are falsy, as is an absent field. *)
Definition or_string (v : option string) (fallback : string) : string :=
  match v with
  | Some c => if String.eqb c EmptyString then fallback else c
  | None => fallback
  end.

Definition or_number (v : option Q) (fallback : Q) : Q :=
  match v with
  | Some w => if Qeq_bool w 0 then fallback else w
  | None => fallback
  end.

Definition rowToOperation (row : Row.t) : DrawingOperation :=
  match Row.type row with
  | stroke =>
      Stroke (StrokeOperation.mk
                (Row.id row) (Row.user_id row)
                (or_string (OpData.color (Row.data row)) "#000000")
                (or_number (OpData.width (Row.data row)) 4)
                (match OpData.tool (Row.data row) with
                 | Some tl => tl
                 | None => brush
                 end)
                (match OpData.points (Row.data row) with
                 | Some ps => ps
                 | None => []
                 end)
                (Row.created_at row) None (Row.sequence row))
  | clear =>
      Clear (ClearOperation.mk
               (Row.id row) (Row.user_id row) (Row.created_at row)
               (Row.sequence row))
  end.

(** The object that [commitStroke] serialises into the [data] column. *)
Definition strokeData (stroke : StrokeOperation.t) : OpData.t :=
  OpData.mk (Some (StrokeOperation.id stroke))
            (Some (StrokeOperation.color stroke))
            (Some (StrokeOperation.width stroke))
            (Some (StrokeOperation.tool stroke))
            (Some (StrokeOperation.points stroke)).

Definition clearRedoStack (self : t) (o : Outcome) : Supabase unit :=
  await delete_redo_in_room o (roomId self) ;;
  ret tt.

(** [return data?.sequence || null] *)
Definition sequence_or_null (row : Row.t) : option Z :=
  if Row.sequence row =? 0 then None else Some (Row.sequence row).

Definition commitStroke (self : t) (stroke : StrokeOperation.t)
    (o_clear o_insert : Outcome) : Supabase (option Z) :=
  await clearRedoStack self o_clear ;;
  r <- insert_operation o_insert (roomId self) (userId self) (userName self)
         (userColor self) Database.stroke (strokeData stroke) ;;
  match r with
  | Error => ret None
  | Data row => ret (sequence_or_null row)
  end.

Definition commitClear (self : t) (o : Outcome) : Supabase unit :=
  await delete_operations_in_room o (roomId self) ;;
  ret tt.

Definition undoLast (self : t) (o_fetch o_push o_delete : Outcome)
  : Supabase (option uuid) :=
  r <- select_last_operation o_fetch (roomId self) ;;
  match r with
  | Error => ret None
  | Data lastOp =>
      await insert_redo o_push (roomId self) (Row.id lastOp) lastOp ;;
      d <- delete_operation o_delete (Row.id lastOp) ;;
      match d with
      | Error => ret None
      | Data _ => ret (Some (Row.id lastOp))
      end
  end.

Definition redoLast (self : t) (o_fetch o_insert o_delete : Outcome)
  : Supabase (option DrawingOperation) :=
  r <- select_last_redo o_fetch (roomId self) ;;
  match r with
  | Error => ret None
  | Data redoItem =>
      let opData := RedoRow.operation_data redoItem in
      n <- insert_operation o_insert (roomId self) (Row.user_id opData)
             (Row.user_name opData) (Row.user_color opData)
             (Row.type opData) (Row.data opData) ;;
      match n with
      | Error => ret None
      | Data newOp =>
          await delete_redo o_delete (RedoRow.id redoItem) ;;
          ret (Some (rowToOperation newOp))
      end
  end.

(** Calls of the service, by any client, one after the other. *)
Inductive Call : Type :=
| CommitStroke (stroke : StrokeOperation.t) (o_clear o_insert : Outcome)
| CommitClear (o : Outcome)
| UndoLast (o_fetch o_push o_delete : Outcome)
| RedoLast (o_fetch o_insert o_delete : Outcome).

Definition step (db : DB) (c : t * Call) : DB :=
  match c with
  | (self, CommitStroke s o1 o2) => snd (commitStroke self s o1 o2 db)
  | (self, CommitClear o) => snd (commitClear self o db)
  | (self, UndoLast o1 o2 o3) => snd (undoLast self o1 o2 o3 db)
  | (self, RedoLast o1 o2 o3) => snd (redoLast self o1 o2 o3 db)
  end.

Definition run (calls : list (t * Call)) (db : DB) : DB :=
  fold_left step calls db.

Definition is_undo (c : t * Call) : bool :=
  match c with
  | (_, UndoLast _ _ _) => true
  | _ => false
  end.

(** The three requests of an [undoLast] go through, the identifier drawn
    for the redo row is new, and the clock has moved on. *)
Definition undo_goes_through (self : t) (o_fetch o_push o_delete : Outcome)
    (db : DB) : Prop :=
  ok o_fetch = true /\ ok o_push = true /\ ok o_delete = true
  /\ ~ In (gen_random_uuid o_push) (map RedoRow.id (redo_stack db))
  /\ later (now o_push) (roomId self) db.

(** The first two requests of a [redoLast] go through and the identifier
    drawn for the new row is new. *)
Definition redo_goes_through (o_fetch o_insert : Outcome) (db : DB) : Prop :=
  ok o_fetch = true /\ ok o_insert = true
  /\ ~ In (gen_random_uuid o_insert) (map Row.id (operations db)).

(** [lastOp] is the row of highest sequence in the log of the room. *)
Definition is_last (room : uuid) (db : DB) (lastOp : Row.t) : Prop :=
  In lastOp (room_log room db)
  /\ forall r, In r (room_log room db) -> Row.sequence r <= Row.sequence lastOp.

(** The redo row that [undoLast] writes for [lastOp]. *)
Definition redo_entry (self : t) (o_push : Outcome) (lastOp : Row.t)
  : RedoRow.t :=
  RedoRow.mk (gen_random_uuid o_push) (roomId self) lastOp (now o_push)
    (Row.id lastOp).

(** The row that [redoLast] writes for a removed row. *)
Definition redone_row (self : t) (o_insert : Outcome) (removed : Row.t)
    (db : DB) : Row.t :=
  Row.mk (gen_random_uuid o_insert) (roomId self) (Row.user_id removed)
    (Row.user_name removed) (Row.user_color removed)
    (operations_sequence_seq db) (Row.type removed) (Row.data removed)
    (now o_insert).

(** Two operations with the same payload: the same kind, and for strokes
    the same colour, width, tool and points. *)
Definition same_payload (a b : DrawingOperation) : Prop :=
  match a, b with
  | Stroke s1, Stroke s2 =>
      StrokeOperation.color s1 = StrokeOperation.color s2
      /\ StrokeOperation.width s1 = StrokeOperation.width s2
      /\ StrokeOperation.tool s1 = StrokeOperation.tool s2
      /\ StrokeOperation.points s1 = StrokeOperation.points s2
  | Clear _, Clear _ => True
  | _, _ => False
  end.

(** The redo stacks of all rooms are within the limit. *)
Definition redo_bounded (db : DB) : Prop :=
  forall room, (List.length (room_redo room db) <= redo_limit)%nat.

(** Sample data: one client in the default room, requests that go
    through, and a room with one committed stroke. *)
Definition default_room : uuid := "00000000-0000-0000-0000-000000000001".

Definition alice : t := mk default_room "user-a" "Artist 1" "hsl(210, 100%, 55%)".

Definition fine (i : uuid) (time : Z) : Outcome := mkOutcome true i time.

Definition broken : Outcome := mkOutcome false EmptyString 0.

Definition sample : StrokeOperation.t :=
  StrokeOperation.mk "1700000000000-abc" "user-a" "#1a1a2e" 4 brush
    [Point.mk 0 0 None 0; Point.mk 0 2 None 2] 0 (Some 5) 0.

Definition db_one_stroke : DB :=
  snd (commitStroke alice sample (fine "x0" 10) (fine "op-1" 11) empty_db).

Definition op_3 : Row.t :=
  Row.mk "op-3" default_room "user-a" "Artist 1" "hsl(210, 100%, 55%)" 3
    Database.stroke (strokeData sample) 15.

Definition db_three_strokes : DB :=
  run [(alice, CommitStroke sample (fine "x1" 12) (fine "op-2" 13));
       (alice, CommitStroke sample (fine "x2" 14) (fine "op-3" 15))]
      db_one_stroke.

(** The operations that clients receive: rows that the database accepted
    in some schedule of statements, read with [rowToOperation]. *)
Definition committed (ops : list DrawingOperation) : Prop :=
  exists (sts : list Statement) (db : DB) (rows : list Row.t),
    incl rows (accepted sts db) /\ ops = map rowToOperation rows.

Definition three_inserts : list Statement :=
  [InsertOperation (fine "op-1" 11) default_room "user-a" "Artist 1" "blue"
     Database.stroke (strokeData sample);
   InsertOperation (fine "op-2" 13) default_room "user-b" "Artist 2" "red"
     Database.stroke (strokeData sample);
   InsertOperation (fine "op-3" 15) default_room "user-a" "Artist 1" "blue"
     Database.stroke (strokeData sample)].

Definition three_ops : list DrawingOperation :=
  map rowToOperation (accepted three_inserts empty_db).

(** A room whose redo stack is full: 50 rows, removed at times 1 to 50. *)
Definition redo_row_at (n : nat) : RedoRow.t :=
  RedoRow.mk (String (ascii_of_nat (33 + n)) EmptyString) default_room op_3
    (Z.of_nat n) "op-0".

Definition db_full : DB :=
  mkDB (operations db_three_strokes) (map redo_row_at (seq 1 50)) 4.

End SyncService.

(* ================================================================== *)
(** * Room identifiers: generation and the room of the page *)
(* ================================================================== *)

Module RoomIds.
Import RoomSelector.
Local Open Scope string_scope.

Definition chars : string := "abcdefghijklmnopqrstuvwxyz0123456789".

(** [s.charAt(k)]: the character at position [k], the empty string when
    there is none. *)
Definition charAt (k : nat) (s : string) : string := substring k 1 s.

(** [Math.floor(r * chars.length)] for a value [r] of [Math.random()]. *)
Definition random_index (r : Q) : nat :=
  Z.to_nat (Qround.Qfloor (r * inject_Z (Z.of_nat (String.length chars)))).

(** [generateRoomId], on the values that the eight calls of
    [Math.random()] return. *)
Definition generateRoomId (random : nat -> Q) : string :=
  fold_left (fun result i => result ++ charAt (random_index (random i)) chars)
    (seq 0 8) EmptyString.

Definition default_uuid : string := "00000000-0000-0000-0000-000000000001".

(** [getInitialRoomId], on the value of the [room] parameter of the URL. *)
Definition getInitialRoomId (roomParam : option string) : string :=
  match roomParam with
  | Some p => if (4 <=? String.length p)%nat then roomIdToUUID p
              else default_uuid
  | None => default_uuid
  end.

Definition zeros (k : nat) : string := repeat_char "0" k.

End RoomIds.

(* ================================================================== *)
(** * Smoothing of a stroke ([smoothPoints]) *)
(* ================================================================== *)

Module Smoothing.
Local Open Scope Q_scope.

Definition origin : Point.t := Point.mk 0 0 None 0.

Definition spline1 (a0 a1 a2 a3 t : Q) : Q :=
  let t2 := t * t in
  let t3 := t2 * t in
  (1 # 2)
  * (2 * a1
     + (- a0 + a2) * t
     + (2 * a0 - 5 * a1 + 4 * a2 - a3) * t2
     + (- a0 + 3 * a1 - 3 * a2 + a3) * t3).

Definition catmullRomSpline (p0 p1 p2 p3 : Point.t) (t : Q) : Point.t :=
  Point.mk
    (spline1 (Point.x p0) (Point.x p1) (Point.x p2) (Point.x p3) t)
    (spline1 (Point.y p0) (Point.y p1) (Point.y p2) (Point.y p3) t)
    None (Point.timestamp p1).

(** The points that the inner loop pushes for the segment that starts at
    [points[i]]. *)
Definition segment_points (points : list Point.t) (segments : nat) (i : nat)
  : list Point.t :=
  let n := List.length points in
  let p0 := nth (Nat.max 0 (i - 1)) points origin in
  let p1 := nth i points origin in
  let p2 := nth (Nat.min (n - 1) (i + 1)) points origin in
  let p3 := nth (Nat.min (n - 1) (i + 2)) points origin in
  map (fun j => catmullRomSpline p0 p1 p2 p3
                  (inject_Z (Z.of_nat j) / inject_Z (Z.of_nat segments)))
      (seq 0 segments).

Definition smoothPoints (points : list Point.t) (segments : nat)
  : list Point.t :=
  if (List.length points <? 4)%nat then points
  else
    flat_map (segment_points points segments)
      (seq 0 (List.length points - 1))
    ++ [nth (List.length points - 1) points origin].

(** The polyline that [drawStroke] traces for a stroke of two points or
    more. *)
Definition strokePath (points : list Point.t) : list Point.t :=
  if (3 <? List.length points)%nat then smoothPoints points 4 else points.

Definition same_place (p q : Point.t) : Prop :=
  Point.x p == Point.x q /\ Point.y p == Point.y q
  /\ Point.timestamp p = Point.timestamp q.

End Smoothing.

(* ================================================================== *)
(** * The drawing session of [useCanvas] *)
(* ================================================================== *)

Module DrawSession.
Import CanvasEngine UseCanvas.

Record ToolSettings : Type := mkTool
  { tool : ToolType; color : string; width : Q }.

(** The refs and the state of the hook, with the [Point] objects created so
    far and the strokes handed to [onStrokeComplete]. *)
Record t : Type := mk
  { heap : list Point.t;
    currentStroke : option StrokeOperation.t;
    pointBuffer : list loc;
    isDrawing : bool;
    operations : State;
    completed : list StrokeOperation.t }.

Definition deref (h : list Point.t) (l : loc) : Point.t :=
  nth l h (Point.mk 0 0 None 0).

Definition with_points (s : StrokeOperation.t) (pts : list Point.t)
    (endTime : option Z) : StrokeOperation.t :=
  StrokeOperation.mk (StrokeOperation.id s) (StrokeOperation.userId s)
    (StrokeOperation.color s) (StrokeOperation.width s)
    (StrokeOperation.tool s) pts (StrokeOperation.startTime s) endTime
    (StrokeOperation.sequence s).

(** [startDrawing]: [point] is what [getEventCoordinates] returns,
    [strokeId] what [generateId()] returns, [time] what [now()] returns. *)
Definition startDrawing (userId : string) (ts : ToolSettings)
    (point : Point.t) (strokeId : string) (time : Z) (s : t) : t :=
  let stroke :=
    StrokeOperation.mk strokeId userId (color ts) (width ts) (tool ts)
      [point] time None 0 in
  mk (heap s ++ [point]) (Some stroke) [List.length (heap s)] true
     (operations s) (completed s).

Definition continueDrawing (ts : ToolSettings) (point : Point.t) (s : t) : t :=
  match currentStroke s with
  | None => s
  | Some cur =>
      let heap' := heap s ++ [point] in
      let buffer' := pointBuffer s ++ [List.length (heap s)] in
      let filteredPoints :=
        filterNearbyPoints (deref heap') buffer' (minDist (width ts)) in
      mk heap'
         (Some (with_points cur (map (deref heap') filteredPoints)
                  (StrokeOperation.endTime cur)))
         buffer' (isDrawing s) (operations s) (completed s)
  end.

Definition endDrawing (ts : ToolSettings) (time : Z) (s : t) : t :=
  match currentStroke s with
  | None => s
  | Some cur =>
      let finalStroke :=
        with_points cur
          (map (deref (heap s))
             (filterNearbyPoints (deref (heap s)) (pointBuffer s)
                (minDist (width ts))))
          (Some time) in
      if (0 <? List.length (StrokeOperation.points finalStroke))%nat
      then mk (heap s) None [] false
              (operations s ++ [Stroke finalStroke])
              (completed s ++ [finalStroke])
      else mk (heap s) None [] false (operations s) (completed s)
  end.

(** Pointer moves, each with the tool settings of its render. *)
Definition moveAll (moves : list (ToolSettings * Point.t)) (s : t) : t :=
  fold_left (fun st m => continueDrawing (fst m) (snd m) st) moves s.

End DrawSession.

(* ================================================================== *)
(** * The page: connection, events, undo and redo buttons *)
(* ================================================================== *)

Module Collaboration.
Import Sorting Database SyncService UseCanvas.
Local Open Scope string_scope.
Local Open Scope list_scope.
Local Open Scope supabase_scope.

(** [SELECT count( * ) FROM redo_stack WHERE room_id = roomId]; a failed
    request gives no count, and [(count || 0) > 0] is then false. *)
Definition hasRedoAvailable (self : SyncService.t) (o : Outcome)
  : Supabase bool :=
  fun db =>
    ((if ok o
      then (0 <? List.length (room_redo (roomId self) db))%nat
      else false),
     db).

(** [SELECT * FROM operations WHERE room_id = room ORDER BY sequence] *)
Definition select_operations (o : Outcome) (room : uuid)
  : Supabase (Response (list Row.t)) :=
  fun db =>
    if ok o then (Data (sort_by Row.sequence (room_log room db)), db)
    else (Error, db).

(** The fetch of [connect]; [Error] stands for [throw fetchError]. *)
Definition connect (self : SyncService.t) (o : Outcome)
  : Supabase (Response (list DrawingOperation)) :=
  r <- select_operations o (roomId self) ;;
  match r with
  | Error => ret Error
  | Data existingOps => ret (Data (map rowToOperation existingOps))
  end.

(** The handler of INSERT events of the room, with [canvas.addOperation]
    as the callback: the rows of the client itself are skipped. *)
Definition onInsert (self : SyncService.t) (new : Row.t) (local : State)
  : State :=
  let op := rowToOperation new in
  if negb (String.eqb (op_userId op) (userId self))
  then addOperation op local
  else local.

(** The handler of DELETE events, with [canvas.removeOperation] as the
    callback: an empty identifier is skipped. *)
Definition onDelete (deletedId : uuid) (local : State) : State :=
  if String.eqb deletedId EmptyString then local
  else removeOperation deletedId local.

(** The state of the page: the operation list of the canvas hook and the
    flag of the redo button. *)
Record App : Type := mkApp { canvas : State; canRedo : bool }.

Definition onStrokeComplete (self : SyncService.t)
    (stroke : StrokeOperation.t) (o1 o2 : Outcome) (app : App)
  : Supabase App :=
  await commitStroke self stroke o1 o2 ;;
  ret (mkApp (canvas app) false).

Definition handleUndo (self : SyncService.t) (o1 o2 o3 : Outcome) (app : App)
  : Supabase App :=
  undoneId <- undoLast self o1 o2 o3 ;;
  match undoneId with
  | Some i =>
      if String.eqb i EmptyString then ret app
      else ret (mkApp (removeOperation i (canvas app)) true)
  | None => ret app
  end.

Definition handleRedo (self : SyncService.t) (o1 o2 o3 : Outcome) (app : App)
  : Supabase App :=
  redoneOp <- redoLast self o1 o2 o3 ;;
  match redoneOp with
  | Some op => ret (mkApp (addOperation op (canvas app)) (canRedo app))
  | None => ret (mkApp (canvas app) false)
  end.

Definition handleClear (self : SyncService.t) (o : Outcome) (app : App)
  : Supabase App :=
  await commitClear self o ;;
  ret (mkApp clear false).

(** [useCollaboration]: the colour of a user, from the sum of the
    character codes of the identifier. *)
Definition USER_COLORS : list string :=
  ["hsl(210, 100%, 55%)"; "hsl(340, 85%, 60%)"; "hsl(150, 80%, 45%)";
   "hsl(45, 100%, 55%)"; "hsl(280, 80%, 60%)"; "hsl(180, 70%, 50%)"].

Fixpoint charCodeSum (a : nat) (s : string) : nat :=
  match s with
  | EmptyString => a
  | String c r => charCodeSum (a + nat_of_ascii c) r
  end.

Definition userColor (userId : string) : option string :=
  nth_error USER_COLORS (charCodeSum 0 userId mod List.length USER_COLORS).

(** Events that reach a client that only watches: the replay of
    [connect], and the INSERT and DELETE events of the room. *)
Inductive Event : Type :=
| StateSync (ops : list DrawingOperation)
| Inserted (new : Row.t)
| Deleted (i : uuid).

Definition receive (self : SyncService.t) (local : State) (e : Event)
  : State :=
  match e with
  | StateSync ops => setOperations ops
  | Inserted new => onInsert self new local
  | Deleted i => onDelete i local
  end.

Definition sorted (s : State) : Prop :=
  StronglySorted (le_key op_sequence) s.

(** What the clients of a room see of the database. *)
Definition room_view (room : uuid) (db : DB) : list Row.t * list RedoRow.t :=
  (room_log room db, room_redo room db).

Definition bob : SyncService.t :=
  SyncService.mk default_room "user-b" "Artist 2" "hsl(340, 85%, 60%)".

End Collaboration.

(* ================================================================== *)
(** * Properties of the room identifiers *)
(* ================================================================== *)

Module RoomSelectorProps.
Import RoomSelector.
Local Open Scope string_scope.

Example roomIdToUUID_generated :
  roomIdToUUID "k3x9ab2z" = "k3x9ab2z-0000-0000-0000-000000000000".
Proof. reflexivity. Qed.

Example roomIdToUUID_short :
  roomIdToUUID "abcd" = "abcd0000-0000-0000-0000-000000000000".
Proof. reflexivity. Qed.

Example roundtrip_hyphen :
  uuidToRoomId (roomIdToUUID "ab-cdefg") = "abcdefg0".
Proof. reflexivity. Qed.

Ltac peel s :=
  let c := fresh "c" in
  destruct s as [|c s]; simpl in *.

Ltac no_hyphen :=
  repeat match goal with
  | H : andb _ _ = true |- _ => apply andb_prop in H; destruct H
  | H : negb (Ascii.eqb ?c ?d) = true |- _ =>
      apply negb_true_iff in H; try rewrite H
  end.

(** C10, as the code has it: on a hyphen-free string of at most 8
    characters the round trip pads the string with zeros to 8 characters,
    so that it is the identity on hyphen-free strings of exactly 8
    characters. *)
Theorem uuidToRoomId_roomIdToUUID (s : string) :
  hyphen_free s = true ->
  (String.length s <= 8)%nat ->
  uuidToRoomId (roomIdToUUID s) = padEnd 8 "0" s
  /\ (String.length s = 8%nat -> uuidToRoomId (roomIdToUUID s) = s).
Proof.
  intros Hf Hl.
  unfold uuidToRoomId, roomIdToUUID, padEnd, slice.
  do 9 (try peel s); try lia; no_hyphen; cbn -[Ascii.eqb];
    repeat match goal with
    | H : Ascii.eqb _ _ = false |- _ => rewrite H; clear H
    end; cbn;
    (split; [reflexivity | intros E; try discriminate E; reflexivity]).
Qed.

Lemma uuidToRoomId_roomIdToUUID_witness :
  uuidToRoomId (roomIdToUUID "k3x9ab2z") = padEnd 8 "0" "k3x9ab2z"
  /\ (String.length "k3x9ab2z" = 8%nat ->
      uuidToRoomId (roomIdToUUID "k3x9ab2z") = "k3x9ab2z").
Proof.
  apply (uuidToRoomId_roomIdToUUID "k3x9ab2z"); [reflexivity | simpl; lia].
Defined.

(** C10 as stated fails: an 8-character identifier that contains a hyphen
    does not survive the round trip. *)
Lemma roundtrip_fails_on_hyphen :
  String.length "ab-cdefg" = 8%nat
  /\ uuidToRoomId (roomIdToUUID "ab-cdefg") <> "ab-cdefg".
Proof.
  split; [reflexivity | discriminate].
Qed.

End RoomSelectorProps.

(* ================================================================== *)
(** * Properties of the stable sort *)
(* ================================================================== *)

Module SortingProps.
Import Sorting.
Local Open Scope Z_scope.

Section SortByProps.
Variable A : Type.
Variable key : A -> Z.

Local Abbreviation le_key := (le_key key).
Local Abbreviation lt_key := (lt_key key).

Lemma insert_by_perm (a : A) (l : list A) :
  Permutation (insert_by key a l) (a :: l).
Proof.
  induction l as [|b r IH]; simpl.
  - apply Permutation_refl.
  - destruct (key a <=? key b).
    + apply Permutation_refl.
    + eapply perm_trans; [apply perm_skip, IH | apply perm_swap].
Qed.

Lemma sort_by_perm (l : list A) : Permutation (sort_by key l) l.
Proof.
  induction l as [|a r IH]; simpl.
  - constructor.
  - eapply perm_trans; [apply insert_by_perm | now apply perm_skip].
Qed.

Lemma sort_by_In (a : A) (l : list A) : In a (sort_by key l) <-> In a l.
Proof.
  split; apply Permutation_in;
    [apply sort_by_perm | apply Permutation_sym, sort_by_perm].
Qed.

Lemma sort_by_length (l : list A) :
  List.length (sort_by key l) = List.length l.
Proof. apply Permutation_length, sort_by_perm. Qed.

Lemma insert_by_sorted (a : A) (l : list A) :
  StronglySorted le_key l -> StronglySorted le_key (insert_by key a l).
Proof.
  induction 1 as [|b r Hr IH Hb]; simpl.
  - repeat constructor.
  - destruct (key a <=? key b) eqn:E.
    + apply Z.leb_le in E. constructor.
      * now constructor.
      * constructor; [exact E|].
        eapply Forall_impl; [|exact Hb].
        intros c Hc. unfold le_key in *. lia.
    + apply Z.leb_gt in E. constructor; [exact IH|].
      eapply Permutation_Forall;
        [apply Permutation_sym, insert_by_perm|].
      constructor; [unfold le_key; lia | exact Hb].
Qed.

Lemma sort_by_sorted (l : list A) : StronglySorted le_key (sort_by key l).
Proof.
  induction l as [|a r IH]; simpl;
    [constructor | now apply insert_by_sorted].
Qed.

Lemma sorted_distinct_strict (l : list A) :
  StronglySorted le_key l -> NoDup (map key l) -> StronglySorted lt_key l.
Proof.
  induction 1 as [|b r Hr IH Hb]; intros Hnd; [constructor|].
  simpl in Hnd. inversion Hnd as [|? ? Hnotin Hnd']; subst.
  constructor; [now apply IH|].
  rewrite Forall_forall in *. intros c Hc.
  specialize (Hb c Hc). unfold le_key, lt_key in *.
  assert (key b <> key c).
  { intros E. apply Hnotin. rewrite E. now apply in_map. }
  lia.
Qed.

(** Two insertions of rows with different keys commute. *)
Lemma insert_by_comm (a b : A) (l : list A) :
  key a <> key b ->
  insert_by key a (insert_by key b l) = insert_by key b (insert_by key a l).
Proof.
  intros Hab. induction l as [|c r IH]; simpl.
  - destruct (key a <=? key b) eqn:E1, (key b <=? key a) eqn:E2;
      try reflexivity;
      [apply Z.leb_le in E1; apply Z.leb_le in E2
      |apply Z.leb_gt in E1; apply Z.leb_gt in E2]; lia.
  - destruct (key b <=? key c) eqn:Eb, (key a <=? key c) eqn:Ea; simpl;
      rewrite ?Eb, ?Ea.
    + destruct (key a <=? key b) eqn:E1, (key b <=? key a) eqn:E2;
        try reflexivity;
        [apply Z.leb_le in E1; apply Z.leb_le in E2
        |apply Z.leb_gt in E1; apply Z.leb_gt in E2]; lia.
    + destruct (key a <=? key b) eqn:E1; [|reflexivity].
      apply Z.leb_le in E1, Eb. apply Z.leb_gt in Ea. lia.
    + destruct (key b <=? key a) eqn:E1; [|reflexivity].
      apply Z.leb_le in E1, Ea. apply Z.leb_gt in Eb. lia.
    + now rewrite IH.
Qed.

(** With pairwise distinct keys the sorted list does not depend on the
    order of the input. *)
Lemma sort_by_perm_eq (l1 l2 : list A) :
  Permutation l1 l2 -> NoDup (map key l1) ->
  sort_by key l1 = sort_by key l2.
Proof.
  induction 1 as [|a l1 l2 HP IH|a b l|l1 l2 l3 HP1 IH1 HP2 IH2];
    intros Hnd; simpl.
  - reflexivity.
  - inversion Hnd; subst. now rewrite IH.
  - apply insert_by_comm.
    inversion Hnd as [|? ? Hn _]; subst.
    intros E. apply Hn. simpl. now left.
  - rewrite IH1 by assumption. apply IH2.
    eapply Permutation_NoDup; [|exact Hnd].
    now apply Permutation_map.
Qed.

Lemma sort_by_strict (l : list A) :
  NoDup (map key l) -> StronglySorted lt_key (sort_by key l).
Proof.
  intros Hnd. apply sorted_distinct_strict; [apply sort_by_sorted|].
  eapply Permutation_NoDup; [|exact Hnd].
  apply Permutation_map, Permutation_sym, sort_by_perm.
Qed.

(** A row whose key is below all others, appended last, sorts first. *)
Lemma sort_by_least_last (l : list A) (a : A) :
  (forall b, In b l -> key a < key b) ->
  sort_by key (l ++ [a]) = a :: sort_by key l.
Proof.
  induction l as [|b l IH]; simpl; intros H; [reflexivity|].
  rewrite IH by (intros c Hc; apply H; now right). simpl.
  assert (key a < key b) by (apply H; now left).
  destruct (key b <=? key a) eqn:E; [apply Z.leb_le in E; lia|].
  reflexivity.
Qed.

Lemma max_by_None (l : list A) : max_by key l = None <-> l = [].
Proof.
  destruct l as [|a r]; simpl; [tauto|].
  split; [|discriminate].
  destruct (max_by key r) as [b|]; [destruct (key b <=? key a)|];
    discriminate.
Qed.

Lemma max_by_In (l : list A) (m : A) : max_by key l = Some m -> In m l.
Proof.
  revert m. induction l as [|a r IH]; simpl; intros m; [discriminate|].
  destruct (max_by key r) as [b|].
  - destruct (key b <=? key a); intros [= <-]; [now left|].
    right. now apply IH.
  - intros [= <-]. now left.
Qed.

Lemma max_by_greatest (l : list A) (m : A) :
  max_by key l = Some m -> forall a, In a l -> key a <= key m.
Proof.
  revert m. induction l as [|b r IH]; simpl; intros m; [discriminate|].
  destruct (max_by key r) as [c|] eqn:E.
  - destruct (key c <=? key b) eqn:Ecb; intros [= <-] a [<-|Ha].
    + lia.
    + apply Z.leb_le in Ecb. specialize (IH c eq_refl a Ha). lia.
    + apply Z.leb_gt in Ecb. lia.
    + now apply IH.
  - intros [= <-] a [<-|Ha]; [lia|].
    apply max_by_None in E. subst r. destruct Ha.
Qed.
End SortByProps.

End SortingProps.

(* ================================================================== *)
(** * Properties of the client operation list *)
(* ================================================================== *)

Module UseCanvasProps.
Import Sorting SortingProps UseCanvas.
Local Open Scope Z_scope.

Example addOperation_out_of_order :
  deliver [sample_stroke "c" 3; sample_stroke "a" 1; sample_stroke "b" 2] []
  = [sample_stroke "a" 1; sample_stroke "b" 2; sample_stroke "c" 3].
Proof. reflexivity. Qed.

Lemma has_id_true (i : string) (s : State) :
  has_id i s = true <-> exists o, In o s /\ op_id o = i.
Proof.
  unfold has_id. rewrite existsb_exists.
  split; intros [o [H1 H2]]; exists o; split; trivial;
    now apply String.eqb_eq.
Qed.

Lemma has_id_false (i : string) (s : State) :
  ~ In i (map op_id s) -> has_id i s = false.
Proof.
  intros Hn. destruct (has_id i s) eqn:E; [|reflexivity].
  apply has_id_true in E. destruct E as [o [H1 H2]].
  exfalso. apply Hn. subst i. now apply in_map.
Qed.

Lemma addOperation_has_id (op : DrawingOperation) (s : State) :
  has_id (op_id op) (addOperation op s) = true.
Proof.
  unfold addOperation. destruct (has_id (op_id op) s) eqn:E; [exact E|].
  apply has_id_true. exists op. split; [|reflexivity].
  apply sort_by_In, in_or_app. right. now left.
Qed.

(** C8: an operation whose identifier is already in the list is dropped,
    so that a second delivery of an operation changes nothing. *)
Theorem addOperation_duplicate (prev : State) (op : DrawingOperation) :
  (exists o, In o prev /\ op_id o = op_id op) ->
  addOperation op prev = prev
  /\ forall s, addOperation op (addOperation op s) = addOperation op s.
Proof.
  intros Hdup. split.
  - unfold addOperation. apply has_id_true in Hdup. now rewrite Hdup.
  - intros s. unfold addOperation at 1.
    now rewrite addOperation_has_id.
Qed.

Lemma addOperation_duplicate_witness :
  let op := sample_stroke "a" 1 in
  let prev := [sample_stroke "a" 1; sample_stroke "b" 2] in
  addOperation op prev = prev
  /\ forall s, addOperation op (addOperation op s) = addOperation op s.
Proof.
  apply (addOperation_duplicate
           [sample_stroke "a" 1; sample_stroke "b" 2] (sample_stroke "a" 1)).
  exists (sample_stroke "a" 1). split; [simpl; now left | reflexivity].
Defined.

(** Delivery into a sorted list of operations with fresh identifiers and
    pairwise distinct sequences sorts the whole. *)
Lemma deliver_sort_by (l s0 : list DrawingOperation) :
  NoDup (map op_id (s0 ++ l)) ->
  NoDup (map op_sequence (s0 ++ l)) ->
  deliver l (sort_by op_sequence s0) = sort_by op_sequence (s0 ++ l).
Proof.
  revert s0. induction l as [|a l IH]; intros s0 Hid Hseq.
  - now rewrite app_nil_r.
  - change (deliver (a :: l) (sort_by op_sequence s0))
      with (deliver l (addOperation a (sort_by op_sequence s0))).
    assert (Hsplit : s0 ++ a :: l = (s0 ++ [a]) ++ l)
      by (now rewrite <- app_assoc).
    unfold addOperation. rewrite has_id_false.
    + rewrite (sort_by_perm_eq _ op_sequence
                 (sort_by op_sequence s0 ++ [a]) (s0 ++ [a])).
      * rewrite Hsplit in *. now apply IH.
      * apply Permutation_app_tail, sort_by_perm.
      * eapply Permutation_NoDup.
        -- apply Permutation_map, Permutation_app_tail, Permutation_sym,
             sort_by_perm.
        -- rewrite Hsplit, map_app in Hseq.
           now apply NoDup_app_remove_r in Hseq.
    + intros Hin. rewrite map_app in Hid.
      apply NoDup_remove_2 in Hid. apply Hid.
      apply in_or_app. left.
      apply in_map_iff in Hin. destruct Hin as [o [E Ho]].
      apply in_map_iff. exists o. split; [exact E|].
      now apply sort_by_In in Ho.
Qed.

(** With pairwise distinct identifiers and pairwise distinct sequences,
    delivery one at a time in any arrival order, or all at once through
    [setOperations], gives the same list, which holds exactly these
    operations in ascending sequence order. *)
Lemma deliver_any_order (ops arrival : list DrawingOperation) :
  NoDup (map op_id ops) ->
  NoDup (map op_sequence ops) ->
  Permutation arrival ops ->
  deliver arrival [] = setOperations ops
  /\ setOperations arrival = setOperations ops
  /\ ascending (deliver arrival [])
  /\ Permutation (deliver arrival []) ops.
Proof.
  intros Hid Hseq HP.
  assert (Hid' : NoDup (map op_id arrival)).
  { eapply Permutation_NoDup; [|exact Hid].
    apply Permutation_map, Permutation_sym, HP. }
  assert (Hseq' : NoDup (map op_sequence arrival)).
  { eapply Permutation_NoDup; [|exact Hseq].
    apply Permutation_map, Permutation_sym, HP. }
  assert (E : deliver arrival [] = sort_by op_sequence arrival).
  { apply (deliver_sort_by arrival []); assumption. }
  assert (E' : sort_by op_sequence arrival = sort_by op_sequence ops)
    by (now apply sort_by_perm_eq).
  unfold setOperations. rewrite E, E'. repeat split.
  - now apply sort_by_strict.
  - apply sort_by_perm.
Qed.

(** Without distinct sequences the arrival order shows: a stable sort
    keeps operations of equal sequence in the order they came in. *)
Example equal_sequences_keep_arrival_order :
  deliver [sample_stroke "a" 1; sample_stroke "b" 1] []
  <> deliver [sample_stroke "b" 1; sample_stroke "a" 1] [].
Proof. discriminate. Qed.

End UseCanvasProps.

(* ================================================================== *)
(** * Properties of the arithmetic on numbers *)
(* ================================================================== *)

Module NumberProps.
Import Number.
Local Open Scope Z_scope.









(** Some doubles: 1, 5, 0.1, 3.9999999999999996 (the double below 4), a
    number beyond the largest double and the smallest positive double. *)
Example toNumber_samples :
  toNumber 1 = S754_finite false 4503599627370496 (-52)
  /\ toNumber 5 = S754_finite false 5629499534213120 (-50)
  /\ toNumber (1 # 10) = S754_finite false 7205759403792794 (-56)
  /\ toNumber (39999999999999996 # 10000000000000000)
     = S754_finite false 9007199254740991 (-51)
  /\ toNumber (- (3 # 4)) = S754_finite true 6755399441055744 (-53)
  /\ toNumber (2 ^ 1024 # 1) = S754_infinity false
  /\ toNumber (1 # 2 ^ 1074) = S754_finite false 1 (-1074)
  /\ sqrt (toNumber 2) = S754_finite false 6369051672525773 (-52).
Proof. vm_compute. repeat split; reflexivity. Qed.




End NumberProps.

(* ================================================================== *)
(** * Properties of the point filter *)
(* ================================================================== *)

Module CanvasEngineProps.
Import CanvasEngine.

Section FilterProps.
Variable far : loc -> loc -> bool.

(** The loop, started on a buffer whose last element is [k], appends to
    it the points that the specification retains after [k]. *)
Lemma loop_retained (ps filtered : list loc) (k : loc) :
  filtered <> [] -> last filtered O = k ->
  exists kept,
    Retained far k ps kept
    /\ fold_left (filter_step far) ps filtered = filtered ++ kept.
Proof.
  revert filtered k. induction ps as [|p ps IH]; intros filtered k Hne Hk.
  - exists []. split; [constructor | now rewrite app_nil_r].
  - simpl. unfold filter_step at 2. rewrite Hk.
    destruct (far k p) eqn:E.
    + destruct (IH (filtered ++ [p]) p) as [kept [HR HF]].
      * intros C. now apply app_eq_nil in C as [_ C].
      * apply last_last.
      * exists (p :: kept). split; [now constructor|].
        now rewrite HF, <- app_assoc.
    + destruct (IH filtered k Hne Hk) as [kept [HR HF]].
      exists kept. split; [now constructor | exact HF].
Qed.

Lemma filterNearbyPoints_with_shape (p0 : loc) (ps : list loc) :
  exists kept,
    Retained far p0 ps kept
    /\ filterNearbyPoints_with far (p0 :: ps)
       = (p0 :: kept)
         ++ (if (last (p0 :: kept) O =? last (p0 :: ps) O)%nat
             then [] else [last (p0 :: ps) O]).
Proof.
  unfold filterNearbyPoints_with.
  destruct ps as [|p1 ps].
  - exists []. split; [constructor|]. simpl. now rewrite Nat.eqb_refl.
  - cbn [List.length Nat.ltb Nat.leb tl hd].
    destruct (loop_retained (p1 :: ps) [p0] p0) as [kept [HR HF]];
      [discriminate | reflexivity |].
    exists kept. split; [exact HR|].
    unfold loc in *. rewrite HF. cbn [app].
    destruct (last (p0 :: kept) O =? last (p0 :: p1 :: ps) O)%nat;
      cbn [negb]; rewrite ?app_nil_r; reflexivity.
Qed.
End FilterProps.



(** The stroke in progress is never empty and ends where the pointer is. *)
Lemma strokePoints_ends_at_pointer (heap : loc -> Point.t)
    (p0 : loc) (buffer : list loc) (width : Q) :
  strokePoints heap (p0 :: buffer) width <> []
  /\ last (strokePoints heap (p0 :: buffer) width) O = last (p0 :: buffer) O.
Proof.
  unfold strokePoints, filterNearbyPoints.
  destruct (filterNearbyPoints_with_shape
              (fun a b => Number.ge (distance (heap a) (heap b))
                            (minDist width))
              p0 buffer) as [kept [_ E]].
  rewrite E. split; [discriminate|].
  destruct (last (p0 :: kept) O =? last (p0 :: buffer) O)%nat eqn:El.
  - rewrite app_nil_r. now apply Nat.eqb_eq.
  - apply last_last.
Qed.

Example scenario_three_points :
  filterNearbyPoints heap3 [0; 1; 2]%nat (Number.toNumber 5) = [0; 2]%nat.
Proof. vm_compute. reflexivity. Qed.

Example aliased_last_point_not_pushed_twice :
  filterNearbyPoints heap3 [0; 1; 0]%nat (Number.toNumber 5) = [0]%nat.
Proof. vm_compute. reflexivity. Qed.

(** The distance is the rounded one: from (0, 0) to
    (3, 3.9999999999999996) the sum of the squares rounds to
    24.999999999999996 and its square root to 5, so that with a threshold
    of 5 the point is kept, although it is nearer than 5 by less than one
    rounding step. *)
Example distance_is_rounded :
  distance (heapOf close_track 0%nat) (heapOf close_track 1%nat)
  = Number.toNumber 5
  /\ filterNearbyPoints (heapOf close_track) [0; 1; 2]%nat (Number.toNumber 5)
     = [0; 1; 2]%nat.
Proof. vm_compute. split; reflexivity. Qed.



End CanvasEngineProps.

(* ================================================================== *)
(** * Properties of the tables *)
(* ================================================================== *)

Module DatabaseProps.
Import Sorting SortingProps Database.
Local Open Scope Z_scope.

(** ** Lists *)

Lemma perm_filter {A : Type} (f : A -> bool) (l l' : list A) :
  Permutation l l' -> Permutation (filter f l) (filter f l').
Proof.
  induction 1 as [|a l l' HP IH|a b l|l1 l2 l3 HP1 IH1 HP2 IH2]; simpl.
  - constructor.
  - destruct (f a); [now constructor | exact IH].
  - destruct (f a), (f b); try apply Permutation_refl. apply perm_swap.
  - eapply perm_trans; eassumption.
Qed.

Lemma filter_length_le {A : Type} (f : A -> bool) (l : list A) :
  (List.length (filter f l) <= List.length l)%nat.
Proof.
  induction l as [|a l IH]; simpl; [lia|].
  destruct (f a); simpl; lia.
Qed.

Lemma filter_comm {A : Type} (f g : A -> bool) (l : list A) :
  filter f (filter g l) = filter g (filter f l).
Proof.
  induction l as [|a l IH]; simpl; [reflexivity|].
  destruct (f a) eqn:Ef, (g a) eqn:Eg; simpl; rewrite ?Ef, ?Eg, IH;
    reflexivity.
Qed.

Lemma filter_none {A : Type} (f : A -> bool) (l : list A) :
  (forall a, In a l -> f a = false) -> filter f l = [].
Proof.
  induction l as [|a l IH]; simpl; intros H; [reflexivity|].
  rewrite (H a) by now left. apply IH. intros b Hb. apply H. now right.
Qed.

Lemma filter_all {A : Type} (f : A -> bool) (l : list A) :
  (forall a, In a l -> f a = true) -> filter f l = l.
Proof.
  induction l as [|a l IH]; simpl; intros H; [reflexivity|].
  rewrite (H a) by now left. f_equal. apply IH. intros b Hb. apply H.
  now right.
Qed.

Lemma sorted_app {A : Type} (R : A -> A -> Prop) (l1 l2 : list A) :
  StronglySorted R (l1 ++ l2) ->
  forall a b, In a l1 -> In b l2 -> R a b.
Proof.
  induction l1 as [|c l1 IH]; simpl; intros HS a b Ha Hb; [destruct Ha|].
  inversion HS as [|? ? HS' HF]; subst.
  destruct Ha as [<-|Ha].
  - rewrite Forall_forall in HF. apply HF, in_or_app. now right.
  - now apply IH.
Qed.

Lemma In_skipn {A : Type} (n : nat) (l : list A) (a : A) :
  In a (skipn n l) -> In a l.
Proof.
  intros H. rewrite <- (firstn_skipn n l). apply in_or_app. now right.
Qed.

Lemma In_firstn_or_skipn {A : Type} (n : nat) (l : list A) (a : A) :
  In a l -> In a (firstn n l) \/ In a (skipn n l).
Proof.
  intros H. rewrite <- (firstn_skipn n l) in H. now apply in_app_or in H.
Qed.

Lemma NoDup_map_filter {A B : Type} (f : A -> B) (g : A -> bool)
    (l : list A) :
  NoDup (map f l) -> NoDup (map f (filter g l)).
Proof.
  induction l as [|a l IH]; simpl; intros H; [constructor|].
  inversion H as [|? ? Hn Hd]; subst.
  destruct (g a); simpl; [|now apply IH].
  constructor; [|now apply IH].
  intros Hin. apply Hn.
  apply in_map_iff in Hin. destruct Hin as [x [E Hx]].
  apply filter_In in Hx. apply in_map_iff. exists x. tauto.
Qed.

Lemma NoDup_map_inj {A B : Type} (f : A -> B) (l : list A) (a b : A) :
  NoDup (map f l) -> In a l -> In b l -> f a = f b -> a = b.
Proof.
  induction l as [|c l IH]; simpl; intros H Ha Hb E; [destruct Ha|].
  inversion H as [|? ? Hn Hd]; subst.
  destruct Ha as [<-|Ha], Hb as [<-|Hb]; trivial.
  - exfalso. apply Hn. rewrite E. now apply in_map.
  - exfalso. apply Hn. rewrite <- E. now apply in_map.
  - now apply IH.
Qed.

Lemma mem_true (i : uuid) (l : list uuid) : mem i l = true <-> In i l.
Proof.
  unfold mem. rewrite existsb_exists. split.
  - intros [x [Hx E]]. apply String.eqb_eq in E. now subst.
  - intros H. exists i. split; [exact H | apply String.eqb_refl].
Qed.

Lemma mem_false (i : uuid) (l : list uuid) : mem i l = false <-> ~ In i l.
Proof.
  rewrite <- mem_true. destruct (mem i l); split; intros H;
    [discriminate | exfalso; now apply H | intros C; discriminate C
    | reflexivity].
Qed.

(** ** The trigger *)

Lemma old_redo_items_incl (room : uuid) (stack : list RedoRow.t) (r : RedoRow.t) :
  In r (old_redo_items room stack) ->
  In r stack /\ redo_in_room room r = true.
Proof.
  unfold old_redo_items. intros H.
  apply In_skipn in H.
  apply sort_by_In in H. now apply filter_In in H.
Qed.

Lemma cleanup_incl (room : uuid) (stack : list RedoRow.t) (r : RedoRow.t) :
  In r (cleanup_old_redo_items room stack) -> In r stack.
Proof. unfold cleanup_old_redo_items. intros H. now apply filter_In in H. Qed.

Lemma old_redo_items_id (room : uuid) (stack : list RedoRow.t) (r : RedoRow.t) :
  NoDup (map RedoRow.id stack) -> In r stack ->
  In (RedoRow.id r) (map RedoRow.id (old_redo_items room stack)) ->
  In r (old_redo_items room stack).
Proof.
  intros Hnd Hr Hin. apply in_map_iff in Hin. destruct Hin as [v [E Hv]].
  assert (v = r); [|now subst].
  apply (NoDup_map_inj RedoRow.id stack); trivial.
  now apply old_redo_items_incl in Hv.
Qed.

(** After the trigger the room of the new row holds at most 50 rows. *)
Lemma cleanup_room_bound (room : uuid) (stack : list RedoRow.t) :
  (List.length (filter (redo_in_room room)
                  (cleanup_old_redo_items room stack)) <= redo_limit)%nat.
Proof.
  unfold cleanup_old_redo_items. rewrite filter_comm.
  unfold old_redo_items.
  set (R := filter (redo_in_room room) stack).
  set (S := sort_by newest_first R).
  set (P := fun r => negb (mem (RedoRow.id r)
                             (map RedoRow.id (skipn redo_limit S)))).
  assert (E : List.length (filter P R) = List.length (filter P S)).
  { apply Permutation_length, perm_filter, Permutation_sym, sort_by_perm. }
  rewrite E, <- (firstn_skipn redo_limit S) at 1.
  rewrite filter_app, length_app, (filter_none P (skipn redo_limit S)).
  - cbn [List.length]. rewrite Nat.add_0_r.
    eapply Nat.le_trans; [apply filter_length_le | apply firstn_le_length].
  - intros a Ha. unfold P. apply negb_false_iff, mem_true.
    now apply in_map.
Qed.

(** The trigger never adds a row. *)
Lemma cleanup_length_le (room room' : uuid) (stack : list RedoRow.t) :
  (List.length (filter (redo_in_room room')
                  (cleanup_old_redo_items room stack))
   <= List.length (filter (redo_in_room room') stack))%nat.
Proof.
  unfold cleanup_old_redo_items. rewrite filter_comm.
  apply filter_length_le.
Qed.

(** The rows of the other rooms stay. *)
Lemma cleanup_other_room (room : uuid) (stack : list RedoRow.t) (r : RedoRow.t) :
  NoDup (map RedoRow.id stack) -> In r stack ->
  redo_in_room room r = false ->
  In r (cleanup_old_redo_items room stack).
Proof.
  intros Hnd Hr Hroom. unfold cleanup_old_redo_items.
  apply filter_In. split; [exact Hr|].
  apply negb_true_iff, mem_false. intros Hin.
  apply old_redo_items_id in Hin; trivial.
  apply old_redo_items_incl in Hin. destruct Hin as [_ Hin]. congruence.
Qed.

(** The row just pushed, later than all others of its room, stays. *)
Lemma cleanup_keeps_new (room : uuid) (stack : list RedoRow.t) (new : RedoRow.t) :
  NoDup (map RedoRow.id (stack ++ [new])) ->
  redo_in_room room new = true ->
  (forall r, In r (filter (redo_in_room room) stack) ->
             RedoRow.deleted_at r < RedoRow.deleted_at new) ->
  In new (cleanup_old_redo_items room (stack ++ [new])).
Proof.
  intros Hnd Hroom Hlater. unfold cleanup_old_redo_items.
  apply filter_In. split; [apply in_or_app; right; now left|].
  apply negb_true_iff, mem_false. intros Hin.
  apply old_redo_items_id in Hin; trivial;
    [|apply in_or_app; right; now left].
  unfold old_redo_items in Hin.
  rewrite filter_app in Hin. cbn [filter] in Hin. rewrite Hroom in Hin.
  rewrite sort_by_least_last in Hin.
  - change redo_limit with (S 49) in Hin. rewrite skipn_cons in Hin.
    apply In_skipn, sort_by_In, filter_In in Hin.
    destruct Hin as [Hin _].
    rewrite map_app in Hnd. simpl in Hnd.
    apply NoDup_remove_2 in Hnd. apply Hnd.
    rewrite app_nil_r. now apply in_map.
  - intros b Hb. apply Hlater in Hb. unfold newest_first. lia.
Qed.

(** Eviction is by removal time: a row that the trigger deletes was
    removed no later than any row of the room that it leaves. *)
Lemma cleanup_oldest_first (room : uuid) (stack : list RedoRow.t)
    (e k : RedoRow.t) :
  NoDup (map RedoRow.id stack) ->
  In e stack -> ~ In e (cleanup_old_redo_items room stack) ->
  In k (cleanup_old_redo_items room stack) -> redo_in_room room k = true ->
  RedoRow.deleted_at e <= RedoRow.deleted_at k.
Proof.
  intros Hnd He Hgone Hk Hroom.
  unfold cleanup_old_redo_items in *.
  assert (He' : In e (old_redo_items room stack)).
  { apply old_redo_items_id; trivial.
    apply mem_true.
    destruct (mem (RedoRow.id e)
                (map RedoRow.id (old_redo_items room stack))) eqn:E;
      [reflexivity|].
    exfalso. apply Hgone, filter_In. split; [exact He|]. now rewrite E. }
  apply filter_In in Hk. destruct Hk as [Hk Hkeep].
  apply negb_true_iff, mem_false in Hkeep.
  unfold old_redo_items in *.
  set (S := sort_by newest_first (filter (redo_in_room room) stack)) in *.
  assert (HkS : In k S) by (apply sort_by_In, filter_In; now split).
  apply (In_firstn_or_skipn redo_limit) in HkS.
  destruct HkS as [HkS|HkS]; [|exfalso; apply Hkeep; now apply in_map].
  assert (HS : StronglySorted (le_key newest_first)
                 (firstn redo_limit S ++ skipn redo_limit S)).
  { rewrite firstn_skipn. apply sort_by_sorted. }
  pose proof (sorted_app _ _ _ HS k e HkS He') as Hle.
  unfold le_key, newest_first in Hle. lia.
Qed.

(** Within the limit the trigger deletes nothing. *)
Lemma cleanup_below_limit (room : uuid) (stack : list RedoRow.t) :
  (List.length (filter (redo_in_room room) stack) <= redo_limit)%nat ->
  cleanup_old_redo_items room stack = stack.
Proof.
  intros Hlen. unfold cleanup_old_redo_items, old_redo_items.
  rewrite skipn_all2 by (now rewrite sort_by_length).
  apply filter_all. intros r _. reflexivity.
Qed.

Lemma NoDup_app_disjoint {A : Type} (l1 l2 : list A) (a : A) :
  NoDup (l1 ++ l2) -> In a l1 -> ~ In a l2.
Proof.
  induction l1 as [|b l1 IH]; simpl; intros Hnd Ha; [destruct Ha|].
  inversion Hnd as [|? ? Hb Hnd']; subst.
  destruct Ha as [->|Ha]; [|now apply IH].
  intros H2. apply Hb, in_or_app. now right.
Qed.

(** The trigger leaves the room of the new row with its 50 newest rows, or
    with all of them when they are fewer: it deletes no row that the limit
    does not force out. *)
Lemma cleanup_room_length (room : uuid) (stack : list RedoRow.t) :
  NoDup (map RedoRow.id stack) ->
  List.length (filter (redo_in_room room) (cleanup_old_redo_items room stack))
  = Nat.min redo_limit (List.length (filter (redo_in_room room) stack)).
Proof.
  intros Hnd. unfold cleanup_old_redo_items. rewrite filter_comm.
  unfold old_redo_items.
  set (R := filter (redo_in_room room) stack).
  set (S := sort_by newest_first R).
  set (P := fun r => negb (mem (RedoRow.id r)
                             (map RedoRow.id (skipn redo_limit S)))).
  assert (HndS : NoDup (map RedoRow.id S)).
  { apply (Permutation_NoDup (l := map RedoRow.id R)).
    - apply Permutation_map, Permutation_sym, sort_by_perm.
    - unfold R. now apply NoDup_map_filter. }
  assert (E : List.length (filter P R) = List.length (filter P S)).
  { apply Permutation_length, perm_filter, Permutation_sym, sort_by_perm. }
  rewrite E, <- (firstn_skipn redo_limit S) at 1.
  rewrite filter_app, length_app, (filter_none P (skipn redo_limit S)).
  - rewrite (filter_all P (firstn redo_limit S)).
    + cbn [List.length]. rewrite Nat.add_0_r, length_firstn.
      unfold S. now rewrite sort_by_length.
    + intros a Ha. unfold P. apply negb_true_iff, mem_false.
      rewrite <- (firstn_skipn redo_limit S), map_app in HndS.
      apply (NoDup_app_disjoint _ _ _ HndS). now apply in_map.
  - intros a Ha. unfold P. apply negb_false_iff, mem_true.
    now apply in_map.
Qed.

(** ** Statements *)

Lemma Forall_filter {A : Type} (P : A -> Prop) (f : A -> bool) (l : list A) :
  Forall P l -> Forall P (filter f l).
Proof.
  rewrite !Forall_forall. intros H a Ha. apply filter_In in Ha. now apply H.
Qed.

Lemma insert_operation_data (o : Outcome) (room : uuid) (u n c : string)
    (ty : OpType) (d : OpData.t) (db db' : DB) (row : Row.t) :
  insert_operation o room u n c ty d db = (Data row, db') ->
  row = Row.mk (gen_random_uuid o) room u n c (operations_sequence_seq db)
          ty d (now o)
  /\ db' = mkDB (operations db ++ [row]) (redo_stack db)
             (operations_sequence_seq db + 1)
  /\ ~ In (gen_random_uuid o) (map Row.id (operations db)).
Proof.
  unfold insert_operation.
  destruct (ok o && negb (mem (gen_random_uuid o)
                            (map Row.id (operations db)))) eqn:E;
    [|discriminate].
  intros [= <- <-]. repeat split.
  apply andb_prop in E. destruct E as [_ E].
  now apply negb_true_iff, mem_false in E.
Qed.

Lemma insert_operation_error (o : Outcome) (room : uuid) (u n c : string)
    (ty : OpType) (d : OpData.t) (db db' : DB) :
  insert_operation o room u n c ty d db = (Error, db') -> db' = db.
Proof.
  unfold insert_operation.
  destruct (ok o && negb (mem (gen_random_uuid o)
                            (map Row.id (operations db))));
    [discriminate | now intros [= <-]].
Qed.

Lemma insert_operation_succeeds (o : Outcome) (room : uuid) (u n c : string)
    (ty : OpType) (d : OpData.t) (db : DB) :
  ok o = true -> ~ In (gen_random_uuid o) (map Row.id (operations db)) ->
  let row := Row.mk (gen_random_uuid o) room u n c
               (operations_sequence_seq db) ty d (now o) in
  insert_operation o room u n c ty d db
  = (Data row,
     mkDB (operations db ++ [row]) (redo_stack db)
          (operations_sequence_seq db + 1)).
Proof.
  intros Hok Hfresh. unfold insert_operation.
  apply mem_false in Hfresh. now rewrite Hok, Hfresh.
Qed.

Lemma insert_redo_succeeds (o : Outcome) (room original : uuid)
    (removed : Row.t) (db : DB) :
  ok o = true -> ~ In (gen_random_uuid o) (map RedoRow.id (redo_stack db)) ->
  insert_redo o room original removed db
  = (Data tt,
     mkDB (operations db)
          (cleanup_old_redo_items room
             (redo_stack db
              ++ [RedoRow.mk (gen_random_uuid o) room removed (now o)
                    original]))
          (operations_sequence_seq db)).
Proof.
  intros Hok Hfresh. unfold insert_redo.
  apply mem_false in Hfresh. now rewrite Hok, Hfresh.
Qed.

Lemma wf_empty_db : wf empty_db.
Proof.
  constructor; simpl; try constructor. lia.
Qed.

Lemma wf_insert_operation (o : Outcome) (room : uuid) (u n c : string)
    (ty : OpType) (d : OpData.t) (db : DB) :
  wf db -> wf (snd (insert_operation o room u n c ty d db)).
Proof.
  intros [H1 H2 H3 H4 H5 H6].
  destruct (insert_operation o room u n c ty d db) as [[row|] db'] eqn:E.
  - apply insert_operation_data in E. destruct E as [Erow [-> Hfresh]].
    simpl. constructor; simpl.
    + lia.
    + apply Forall_app. split.
      * eapply Forall_impl; [|exact H2]. simpl. intros; lia.
      * constructor; [|constructor]. subst row. simpl. lia.
    + rewrite map_app. simpl.
      apply NoDup_app; trivial; [repeat constructor; intros []|].
      intros a Ha [<-|[]].
      rewrite Forall_forall in H2.
      apply in_map_iff in Ha. destruct Ha as [r [Er Hr]].
      specialize (H2 r Hr). subst row. simpl in Er. lia.
    + rewrite map_app. simpl.
      apply NoDup_app; trivial; [repeat constructor; intros []|].
      intros a Ha [<-|[]]. subst row. simpl in Ha. contradiction.
    + exact H5.
    + eapply Forall_impl; [|exact H6]. simpl. intros; lia.
  - apply insert_operation_error in E. subst db'. simpl. now constructor.
Qed.

Lemma wf_delete_operations_in_room (o : Outcome) (room : uuid) (db : DB) :
  wf db -> wf (snd (delete_operations_in_room o room db)).
Proof.
  intros [H1 H2 H3 H4 H5 H6]. unfold delete_operations_in_room.
  destruct (ok o); simpl; constructor; simpl; trivial.
  - now apply Forall_filter.
  - now apply NoDup_map_filter.
  - now apply NoDup_map_filter.
Qed.

Lemma wf_delete_operation (o : Outcome) (i : uuid) (db : DB) :
  wf db -> wf (snd (delete_operation o i db)).
Proof.
  intros [H1 H2 H3 H4 H5 H6]. unfold delete_operation.
  destruct (ok o); simpl; constructor; simpl; trivial.
  - now apply Forall_filter.
  - now apply NoDup_map_filter.
  - now apply NoDup_map_filter.
Qed.

Lemma wf_insert_redo (o : Outcome) (room original : uuid) (removed : Row.t)
    (db : DB) :
  wf db -> Row.sequence removed < operations_sequence_seq db ->
  wf (snd (insert_redo o room original removed db)).
Proof.
  intros [H1 H2 H3 H4 H5 H6] Hseq. unfold insert_redo.
  destruct (ok o && negb (mem (gen_random_uuid o)
                            (map RedoRow.id (redo_stack db)))) eqn:E;
    simpl; constructor; simpl; trivial.
  - unfold cleanup_old_redo_items. apply NoDup_map_filter.
    rewrite map_app. simpl.
    apply NoDup_app; trivial; [repeat constructor; intros []|].
    intros a Ha [<-|[]].
    apply andb_prop in E. destruct E as [_ E].
    apply negb_true_iff, mem_false in E. contradiction.
  - unfold cleanup_old_redo_items. apply Forall_filter, Forall_app.
    split; [exact H6|]. now repeat constructor.
Qed.

Lemma wf_delete_redo (o : Outcome) (i : uuid) (db : DB) :
  wf db -> wf (snd (delete_redo o i db)).
Proof.
  intros [H1 H2 H3 H4 H5 H6]. unfold delete_redo.
  destruct (ok o); simpl; constructor; simpl; trivial.
  - now apply NoDup_map_filter.
  - now apply Forall_filter.
Qed.

Lemma wf_delete_redo_in_room (o : Outcome) (room : uuid) (db : DB) :
  wf db -> wf (snd (delete_redo_in_room o room db)).
Proof.
  intros [H1 H2 H3 H4 H5 H6]. unfold delete_redo_in_room.
  destruct (ok o); simpl; constructor; simpl; trivial.
  - now apply NoDup_map_filter.
  - now apply Forall_filter.
Qed.

(** ** The sequence counter under interleaved statements *)

(** An accepted append takes the value of the counter and moves it on by
    one; nothing else touches the counter. *)
Lemma execute_counter (st : Statement) (db : DB) :
  match fst (execute st db) with
  | Some row =>
      Row.sequence row = operations_sequence_seq db
      /\ operations_sequence_seq (snd (execute st db))
         = operations_sequence_seq db + 1
  | None =>
      operations_sequence_seq (snd (execute st db))
      = operations_sequence_seq db
  end.
Proof.
  destruct st; simpl.
  - destruct (insert_operation o room user_id user_name user_color ty d db)
      as [[row|] db'] eqn:E; simpl.
    + apply insert_operation_data in E. destruct E as [-> [-> _]].
      now split.
    + apply insert_operation_error in E. now subst.
  - unfold delete_operations_in_room. now destruct (ok o).
  - unfold delete_operation. now destruct (ok o).
  - unfold insert_redo.
    now destruct (ok o && negb (mem (gen_random_uuid o)
                                  (map RedoRow.id (redo_stack db)))).
  - unfold delete_redo. now destruct (ok o).
  - unfold delete_redo_in_room. now destruct (ok o).
Qed.

Lemma accepted_sorted (sts : list Statement) (db : DB) :
  Forall (fun r => operations_sequence_seq db <= Row.sequence r)
         (accepted sts db)
  /\ StronglySorted (lt_key Row.sequence) (accepted sts db).
Proof.
  revert db. induction sts as [|st sts IH]; intros db; simpl.
  - split; constructor.
  - pose proof (execute_counter st db) as Hc.
    destruct (execute st db) as [[row|] db'] eqn:E; simpl in Hc.
    + destruct Hc as [Hrow Hnext]. destruct (IH db') as [IH1 IH2].
      split.
      * constructor; [lia|].
        eapply Forall_impl; [|exact IH1]. simpl. intros; lia.
      * constructor; [exact IH2|].
        eapply Forall_impl; [|exact IH1]. unfold lt_key. simpl.
        intros; lia.
    + destruct (IH db') as [IH1 IH2]. split; [|exact IH2].
      eapply Forall_impl; [|exact IH1]. simpl. intros; lia.
Qed.

Lemma sorted_map_filter {A : Type} (key : A -> Z) (f : A -> bool)
    (l : list A) :
  StronglySorted (lt_key key) l ->
  StronglySorted Z.lt (map key (filter f l)).
Proof.
  induction 1 as [|a l HS IH HF]; simpl; [constructor|].
  destruct (f a); simpl; [|exact IH].
  constructor; [exact IH|].
  rewrite Forall_forall in *. intros z Hz.
  apply in_map_iff in Hz. destruct Hz as [b [<- Hb]].
  apply filter_In in Hb. now apply HF.
Qed.

Lemma sorted_lt_NoDup (l : list Z) : StronglySorted Z.lt l -> NoDup l.
Proof.
  induction 1 as [|a l HS IH HF]; constructor; [|exact IH].
  intros Hin. rewrite Forall_forall in HF. specialize (HF a Hin). lia.
Qed.

(** C5: in every interleaving of the statements that concurrent clients
    send, each one atomic in the database, the sequence numbers that the
    accepted appends to one room receive from the [BIGSERIAL] counter are
    strictly increasing in acceptance order, hence pairwise distinct. *)
Theorem bigserial_sequences_increase
    (room : uuid) (sts : list Statement) (db : DB) :
  StronglySorted Z.lt (accepted_sequences room sts db)
  /\ NoDup (accepted_sequences room sts db).
Proof.
  assert (H : StronglySorted Z.lt (accepted_sequences room sts db)).
  { unfold accepted_sequences. apply sorted_map_filter.
    apply accepted_sorted. }
  split; [exact H | now apply sorted_lt_NoDup].
Qed.

End DatabaseProps.

(* ================================================================== *)
(** * Properties of the sync service *)
(* ================================================================== *)

Module SyncServiceProps.
Import Sorting SortingProps Database DatabaseProps SyncService.
Local Open Scope string_scope.
Local Open Scope list_scope.
Local Open Scope Z_scope.

Example scenario_undo_redo :
  let u := undoLast alice (fine EmptyString 20) (fine "r1" 21) (fine EmptyString 22)
             db_three_strokes in
  let r := redoLast alice (fine EmptyString 23) (fine "op-4" 24) (fine EmptyString 25) (snd u) in
  map Row.sequence (operations db_three_strokes) = [1; 2; 3]
  /\ fst u = Some "op-3"
  /\ map Row.sequence (operations (snd u)) = [1; 2]
  /\ option_map op_sequence (fst r) = Some 4
  /\ map Row.sequence (operations (snd r)) = [1; 2; 4].
Proof. repeat split. Qed.

(** ** The invariant *)

Lemma wf_commitStroke (self : t) (stroke : StrokeOperation.t)
    (o1 o2 : Outcome) (db : DB) :
  wf db -> wf (snd (commitStroke self stroke o1 o2 db)).
Proof.
  intros H. unfold commitStroke, clearRedoStack, bind, ret.
  pose proof (wf_delete_redo_in_room o1 (roomId self) db H) as H1.
  destruct (delete_redo_in_room o1 (roomId self) db) as [x db1].
  simpl in H1.
  pose proof (wf_insert_operation o2 (roomId self) (userId self)
                (userName self) (userColor self) Database.stroke
                (strokeData stroke) db1 H1) as H2.
  destruct (insert_operation o2 (roomId self) (userId self) (userName self)
              (userColor self) Database.stroke (strokeData stroke) db1)
    as [[row|] db2]; exact H2.
Qed.

Lemma wf_commitClear (self : t) (o : Outcome) (db : DB) :
  wf db -> wf (snd (commitClear self o db)).
Proof.
  intros H. unfold commitClear, bind, ret.
  pose proof (wf_delete_operations_in_room o (roomId self) db H) as H1.
  now destruct (delete_operations_in_room o (roomId self) db).
Qed.

Lemma select_last_operation_data (o : Outcome) (room : uuid) (db db' : DB)
    (r : Row.t) :
  select_last_operation o room db = (Data r, db') ->
  db' = db /\ ok o = true
  /\ max_by Row.sequence (room_log room db) = Some r.
Proof.
  unfold select_last_operation, room_log. destruct (ok o); [|discriminate].
  destruct (max_by Row.sequence (filter (in_room room) (operations db)));
    [|discriminate].
  now intros [= <- <-].
Qed.

Lemma select_last_operation_error (o : Outcome) (room : uuid) (db db' : DB) :
  select_last_operation o room db = (Error, db') -> db' = db.
Proof.
  unfold select_last_operation. destruct (ok o); [|now intros [= <-]].
  destruct (max_by Row.sequence (filter (in_room room) (operations db)));
    [discriminate | now intros [= <-]].
Qed.

Lemma select_last_redo_data (o : Outcome) (room : uuid) (db db' : DB)
    (r : RedoRow.t) :
  select_last_redo o room db = (Data r, db') ->
  db' = db /\ ok o = true
  /\ max_by RedoRow.deleted_at (room_redo room db) = Some r.
Proof.
  unfold select_last_redo, room_redo. destruct (ok o); [|discriminate].
  destruct (max_by RedoRow.deleted_at
              (filter (redo_in_room room) (redo_stack db)));
    [|discriminate].
  now intros [= <- <-].
Qed.

Lemma select_last_redo_error (o : Outcome) (room : uuid) (db db' : DB) :
  select_last_redo o room db = (Error, db') -> db' = db.
Proof.
  unfold select_last_redo. destruct (ok o); [|now intros [= <-]].
  destruct (max_by RedoRow.deleted_at
              (filter (redo_in_room room) (redo_stack db)));
    [discriminate | now intros [= <-]].
Qed.

Lemma wf_undoLast (self : t) (o1 o2 o3 : Outcome) (db : DB) :
  wf db -> wf (snd (undoLast self o1 o2 o3 db)).
Proof.
  intros H. unfold undoLast, bind, ret.
  destruct (select_last_operation o1 (roomId self) db) as [[lastOp|] db0]
    eqn:E.
  - apply select_last_operation_data in E. destruct E as [-> [_ E]].
    assert (Hseq : Row.sequence lastOp < operations_sequence_seq db).
    { apply max_by_In in E. unfold room_log in E. apply filter_In in E.
      destruct E as [E _]. pose proof (wf_sequence db H) as HF.
      rewrite Forall_forall in HF. specialize (HF lastOp E). lia. }
    pose proof (wf_insert_redo o2 (roomId self) (Row.id lastOp) lastOp db
                  H Hseq) as H1.
    destruct (insert_redo o2 (roomId self) (Row.id lastOp) lastOp db)
      as [x db1]. simpl in H1.
    pose proof (wf_delete_operation o3 (Row.id lastOp) db1 H1) as H2.
    destruct (delete_operation o3 (Row.id lastOp) db1) as [[u|] db2];
      exact H2.
  - apply select_last_operation_error in E. now subst.
Qed.

Lemma wf_redoLast (self : t) (o1 o2 o3 : Outcome) (db : DB) :
  wf db -> wf (snd (redoLast self o1 o2 o3 db)).
Proof.
  intros H. unfold redoLast, bind, ret.
  destruct (select_last_redo o1 (roomId self) db) as [[item|] db0] eqn:E.
  - apply select_last_redo_data in E. destruct E as [-> _].
    pose proof (wf_insert_operation o2 (roomId self)
                  (Row.user_id (RedoRow.operation_data item))
                  (Row.user_name (RedoRow.operation_data item))
                  (Row.user_color (RedoRow.operation_data item))
                  (Row.type (RedoRow.operation_data item))
                  (Row.data (RedoRow.operation_data item)) db H) as H1.
    destruct (insert_operation o2 (roomId self)
                (Row.user_id (RedoRow.operation_data item))
                (Row.user_name (RedoRow.operation_data item))
                (Row.user_color (RedoRow.operation_data item))
                (Row.type (RedoRow.operation_data item))
                (Row.data (RedoRow.operation_data item)) db)
      as [[newOp|] db1]; [|exact H1].
    simpl in H1.
    pose proof (wf_delete_redo o3 (RedoRow.id item) db1 H1) as H2.
    now destruct (delete_redo o3 (RedoRow.id item) db1).
  - apply select_last_redo_error in E. now subst.
Qed.

Lemma wf_step (db : DB) (c : t * Call) : wf db -> wf (step db c).
Proof.
  destruct c as [self [s o1 o2|o|o1 o2 o3|o1 o2 o3]]; simpl.
  - apply wf_commitStroke.
  - apply wf_commitClear.
  - apply wf_undoLast.
  - apply wf_redoLast.
Qed.

Lemma wf_run (calls : list (t * Call)) (db : DB) :
  wf db -> wf (run calls db).
Proof.
  revert db. induction calls as [|c calls IH]; intros db H; simpl;
    [exact H|].
  apply IH, wf_step, H.
Qed.

(** ** Undo *)

Lemma is_last_max (room : uuid) (db : DB) (lastOp : Row.t) :
  wf db -> is_last room db lastOp ->
  max_by Row.sequence (room_log room db) = Some lastOp.
Proof.
  intros Hwf [Hin Hmax].
  destruct (max_by Row.sequence (room_log room db)) as [m|] eqn:E.
  - f_equal.
    apply (NoDup_map_inj Row.sequence (room_log room db)).
    + unfold room_log. apply NoDup_map_filter, wf_sequence_distinct, Hwf.
    + eapply max_by_In, E.
    + exact Hin.
    + pose proof (max_by_greatest _ _ _ _ E lastOp Hin).
      pose proof (Hmax m (max_by_In _ _ _ _ E)). lia.
  - apply max_by_None in E. rewrite E in Hin. destruct Hin.
Qed.

Lemma undoLast_goes_through (self : t) (o1 o2 o3 : Outcome) (db : DB)
    (lastOp : Row.t) :
  wf db -> is_last (roomId self) db lastOp ->
  undo_goes_through self o1 o2 o3 db ->
  undoLast self o1 o2 o3 db
  = (Some (Row.id lastOp),
     mkDB (filter (fun r => negb (String.eqb (Row.id r) (Row.id lastOp)))
             (operations db))
          (cleanup_old_redo_items (roomId self)
             (redo_stack db ++ [redo_entry self o2 lastOp]))
          (operations_sequence_seq db)).
Proof.
  intros Hwf Hlast (Hok1 & Hok2 & Hok3 & Hfresh & _).
  unfold undoLast, bind, ret, select_last_operation.
  rewrite Hok1. fold (room_log (roomId self) db).
  rewrite (is_last_max _ _ _ Hwf Hlast).
  rewrite (insert_redo_succeeds _ _ _ _ _ Hok2 Hfresh).
  unfold delete_operation. cbn [ok operations redo_stack
                                   operations_sequence_seq].
  now rewrite Hok3.
Qed.

Lemma undoLast_empty (self : t) (o1 o2 o3 : Outcome) (db : DB) :
  room_log (roomId self) db = [] ->
  undoLast self o1 o2 o3 db = (None, db).
Proof.
  intros Hempty. unfold undoLast, bind, ret, select_last_operation.
  fold (room_log (roomId self) db). rewrite Hempty. simpl.
  now destruct (ok o1).
Qed.

(** The row pushed by [undoLast] is the one that the next [redoLast]
    reads. *)
Lemma pushed_on_top (room : uuid) (stack : list RedoRow.t) (new : RedoRow.t) :
  NoDup (map RedoRow.id (stack ++ [new])) ->
  redo_in_room room new = true ->
  (forall r, In r (filter (redo_in_room room) stack) ->
             RedoRow.deleted_at r < RedoRow.deleted_at new) ->
  max_by RedoRow.deleted_at
    (filter (redo_in_room room)
       (cleanup_old_redo_items room (stack ++ [new])))
  = Some new.
Proof.
  intros Hnd Hroom Hlater.
  assert (Hin : In new (filter (redo_in_room room)
                          (cleanup_old_redo_items room (stack ++ [new])))).
  { apply filter_In. split; [now apply cleanup_keeps_new | exact Hroom]. }
  destruct (max_by RedoRow.deleted_at
              (filter (redo_in_room room)
                 (cleanup_old_redo_items room (stack ++ [new]))))
    as [m|] eqn:E.
  - f_equal.
    pose proof (max_by_greatest _ _ _ _ E new Hin) as Hge.
    apply max_by_In, filter_In in E. destruct E as [Hm Hmroom].
    apply cleanup_incl, in_app_or in Hm.
    destruct Hm as [Hm|[Hm|[]]]; [|exact (eq_sym Hm)].
    assert (RedoRow.deleted_at m < RedoRow.deleted_at new)
      by (apply Hlater, filter_In; now split).
    lia.
  - apply max_by_None in E. rewrite E in Hin. destruct Hin.
Qed.

Lemma fresh_redo_stack (self : t) (o2 : Outcome) (lastOp : Row.t) (db : DB) :
  wf db ->
  ~ In (gen_random_uuid o2) (map RedoRow.id (redo_stack db)) ->
  NoDup (map RedoRow.id (redo_stack db ++ [redo_entry self o2 lastOp])).
Proof.
  intros Hwf Hfresh. rewrite map_app. simpl.
  apply NoDup_app.
  - apply wf_redo_id_distinct, Hwf.
  - repeat constructor. intros [].
  - intros a Ha [<-|[]]. contradiction.
Qed.

Lemma redo_entry_in_room (self : t) (o2 : Outcome) (lastOp : Row.t) :
  redo_in_room (roomId self) (redo_entry self o2 lastOp) = true.
Proof. unfold redo_in_room, redo_entry. simpl. apply String.eqb_refl. Qed.

Lemma nonempty_has_last (room : uuid) (db : DB) :
  room_log room db <> [] -> exists lastOp, is_last room db lastOp.
Proof.
  intros Hne.
  destruct (max_by Row.sequence (room_log room db)) as [m|] eqn:E.
  - exists m. split; [eapply max_by_In, E|].
    intros r Hr. eapply max_by_greatest; eassumption.
  - apply max_by_None in E. contradiction.
Qed.

(** C3: [undoLast] on a room with an empty log returns nothing and
    changes nothing; on a room with a non-empty log, when its requests go
    through, it returns the identifier of the row of highest sequence of
    the room, deletes exactly that row from [operations], and leaves a copy
    of it on top of the redo stack of the room. *)
Theorem undoLast_removes_last (self : t) (o1 o2 o3 : Outcome) (db : DB) :
  wf db ->
  (room_log (roomId self) db = [] -> undoLast self o1 o2 o3 db = (None, db))
  /\ (room_log (roomId self) db <> [] ->
      undo_goes_through self o1 o2 o3 db ->
      exists lastOp,
        is_last (roomId self) db lastOp
        /\ let db' := snd (undoLast self o1 o2 o3 db) in
           fst (undoLast self o1 o2 o3 db) = Some (Row.id lastOp)
           /\ (forall r, In r (operations db')
                         <-> In r (operations db) /\ r <> lastOp)
           /\ operations db'
              = filter (fun r => negb (String.eqb (Row.id r) (Row.id lastOp)))
                  (operations db)
           /\ In (redo_entry self o2 lastOp) (room_redo (roomId self) db')
           /\ max_by RedoRow.deleted_at (room_redo (roomId self) db')
              = Some (redo_entry self o2 lastOp)
           /\ RedoRow.operation_data (redo_entry self o2 lastOp) = lastOp).
Proof.
  intros Hwf. split; [apply undoLast_empty|].
  intros Hne Hgo.
  destruct (nonempty_has_last _ _ Hne) as [lastOp Hlast].
  exists lastOp. split; [exact Hlast|]. intros db'. unfold db'; clear db'.
  rewrite (undoLast_goes_through _ _ _ _ _ _ Hwf Hlast Hgo).
  destruct Hgo as (Hok1 & Hok2 & Hok3 & Hfresh & Hlater).
  cbn [fst snd operations redo_stack]. unfold room_redo.
  cbn [redo_stack].
  pose proof (fresh_redo_stack self o2 lastOp db Hwf Hfresh) as Hnd.
  pose proof (redo_entry_in_room self o2 lastOp) as Hroom.
  assert (Htop : max_by RedoRow.deleted_at
                   (filter (redo_in_room (roomId self))
                      (cleanup_old_redo_items (roomId self)
                         (redo_stack db ++ [redo_entry self o2 lastOp])))
                 = Some (redo_entry self o2 lastOp)).
  { apply pushed_on_top; [exact Hnd | exact Hroom | exact Hlater]. }
  split; [reflexivity|]. split; [|split; [reflexivity|]].
  - intros r. rewrite filter_In. split.
    + intros [Hr Hid]. split; [exact Hr|].
      intros ->. now rewrite String.eqb_refl in Hid.
    + intros [Hr Hneq]. split; [exact Hr|].
      apply negb_true_iff, String.eqb_neq. intros Eid. apply Hneq.
      apply (NoDup_map_inj Row.id (operations db)); trivial.
      * apply wf_id_distinct, Hwf.
      * destruct Hlast as [Hin _]. unfold room_log in Hin.
        now apply filter_In in Hin.
  - split; [|split; [exact Htop | reflexivity]].
    eapply max_by_In, Htop.
Qed.

Lemma wf_db_three_strokes : wf db_three_strokes.
Proof.
  unfold db_three_strokes, db_one_stroke.
  apply wf_run, wf_commitStroke, wf_empty_db.
Qed.

Lemma op_3_is_last : is_last (roomId alice) db_three_strokes op_3.
Proof.
  split.
  - vm_compute. right. right. left. reflexivity.
  - intros r Hr. vm_compute in Hr.
    destruct Hr as [<-|[<-|[<-|[]]]]; vm_compute; discriminate.
Qed.

Lemma undo_goes_through_sample :
  undo_goes_through alice (fine EmptyString 20) (fine "r1" 21) (fine EmptyString 22)
    db_three_strokes.
Proof.
  repeat split; try reflexivity.
  - vm_compute. tauto.
  - intros r Hr. vm_compute in Hr. destruct Hr.
Qed.

Lemma log_three_strokes_nonempty :
  room_log (roomId alice) db_three_strokes <> [].
Proof. vm_compute. discriminate. Qed.

Lemma undoLast_removes_last_witness :
  exists lastOp,
    is_last (roomId alice) db_three_strokes lastOp
    /\ fst (undoLast alice (fine EmptyString 20) (fine "r1" 21) (fine EmptyString 22)
              db_three_strokes) = Some (Row.id lastOp).
Proof.
  destruct (proj2 (undoLast_removes_last alice (fine EmptyString 20) (fine "r1" 21)
                     (fine EmptyString 22) db_three_strokes wf_db_three_strokes)
              log_three_strokes_nonempty undo_goes_through_sample)
    as [lastOp [Hlast [Hres _]]].
  exists lastOp. split; [exact Hlast | exact Hres].
Defined.

(** When the delete of [undoLast] fails the call returns null, and the
    stroke is both in the log and on the redo stack. *)
Example undoLast_delete_fails :
  let u := undoLast alice (fine EmptyString 20) (fine "r1" 21) broken
             db_three_strokes in
  fst u = None
  /\ map Row.sequence (operations (snd u)) = [1; 2; 3]
  /\ map RedoRow.original_id (redo_stack (snd u)) = ["op-3"].
Proof. repeat split. Qed.

(** ** Undo, then redo *)

Lemma redoLast_empty (self : t) (o1 o2 o3 : Outcome) (db : DB) :
  room_redo (roomId self) db = [] ->
  redoLast self o1 o2 o3 db = (None, db).
Proof.
  intros Hempty. unfold redoLast, bind, ret, select_last_redo.
  fold (room_redo (roomId self) db). rewrite Hempty. simpl.
  now destruct (ok o1).
Qed.

Lemma redoLast_goes_through (self : t) (o1 o2 o3 : Outcome) (db : DB)
    (item : RedoRow.t) :
  max_by RedoRow.deleted_at (room_redo (roomId self) db) = Some item ->
  redo_goes_through o1 o2 db ->
  let newOp := redone_row self o2 (RedoRow.operation_data item) db in
  fst (redoLast self o1 o2 o3 db) = Some (rowToOperation newOp)
  /\ operations (snd (redoLast self o1 o2 o3 db)) = operations db ++ [newOp].
Proof.
  intros Htop (Hok1 & Hok2 & Hfresh) newOp.
  unfold redoLast, bind, ret, select_last_redo.
  rewrite Hok1. fold (room_redo (roomId self) db). rewrite Htop.
  rewrite (insert_operation_succeeds _ _ _ _ _ _ _ _ Hok2 Hfresh).
  fold newOp. unfold delete_redo.
  cbn [ok operations redo_stack operations_sequence_seq].
  now destruct (ok o3).
Qed.


Lemma redo_goes_through_sample :
  redo_goes_through (fine EmptyString 23) (fine "op-4" 24) db_three_strokes.
Proof.
  repeat split. vm_compute. intros [H|[H|[H|[]]]]; discriminate H.
Qed.


(** ** Commit *)

Lemma commitStroke_unfold (self : t) (stroke : StrokeOperation.t)
    (o1 o2 : Outcome) (db : DB) :
  commitStroke self stroke o1 o2 db
  = match insert_operation o2 (roomId self) (userId self) (userName self)
            (userColor self) Database.stroke (strokeData stroke)
            (snd (clearRedoStack self o1 db)) with
    | (Data row, db') => (sequence_or_null row, db')
    | (Error, db') => (None, db')
    end.
Proof.
  unfold commitStroke, clearRedoStack, bind, ret.
  destruct (delete_redo_in_room o1 (roomId self) db) as [x db0]. simpl.
  now destruct (insert_operation o2 (roomId self) (userId self)
                  (userName self) (userColor self) Database.stroke
                  (strokeData stroke) db0) as [[row|] db'].
Qed.

Lemma clearRedoStack_keeps_log (self : t) (o : Outcome) (db : DB) :
  operations (snd (clearRedoStack self o db)) = operations db
  /\ operations_sequence_seq (snd (clearRedoStack self o db))
     = operations_sequence_seq db.
Proof.
  unfold clearRedoStack, bind, ret, delete_redo_in_room.
  now destruct (ok o).
Qed.

(** C4: when the append of [commitStroke] fails, the call returns null,
    which no successful call returns, and the log is as before; when the
    append succeeds, the call returns the sequence that the new row of the
    log received. *)
Theorem commitStroke_result (self : t) (stroke : StrokeOperation.t)
    (o1 o2 : Outcome) (db : DB) :
  wf db ->
  let db0 := snd (clearRedoStack self o1 db) in
  match insert_operation o2 (roomId self) (userId self) (userName self)
          (userColor self) Database.stroke (strokeData stroke) db0 with
  | (Error, _) =>
      commitStroke self stroke o1 o2 db = (None, db0)
      /\ operations db0 = operations db
  | (Data row, db') =>
      commitStroke self stroke o1 o2 db = (Some (Row.sequence row), db')
      /\ In row (room_log (roomId self) db')
      /\ Row.sequence row = operations_sequence_seq db
      /\ Row.data row = strokeData stroke
      /\ Row.user_id row = userId self
  end.
Proof.
  intros Hwf db0. rewrite commitStroke_unfold. fold db0.
  destruct (clearRedoStack_keeps_log self o1 db) as [Hlog Hcounter].
  fold db0 in Hlog, Hcounter.
  destruct (insert_operation o2 (roomId self) (userId self) (userName self)
              (userColor self) Database.stroke (strokeData stroke) db0)
    as [[row|] db'] eqn:E.
  - apply insert_operation_data in E. destruct E as [Erow [-> _]].
    assert (Hseq : Row.sequence row = operations_sequence_seq db)
      by (subst row; simpl; exact Hcounter).
    split.
    + unfold sequence_or_null. pose proof (wf_counter db Hwf).
      destruct (Row.sequence row =? 0) eqn:Ez; [|reflexivity].
      apply Z.eqb_eq in Ez. lia.
    + split; [|split; [exact Hseq | subst row; split; reflexivity]].
      unfold room_log. simpl. apply filter_In. split.
      * apply in_or_app. right. now left.
      * subst row. unfold in_room. simpl. apply String.eqb_refl.
  - apply insert_operation_error in E. subst db'. now split.
Qed.

Lemma commitStroke_result_witness :
  commitStroke alice sample (fine "x" 30) broken db_three_strokes
  = (None, snd (clearRedoStack alice (fine "x" 30) db_three_strokes))
  /\ operations (snd (clearRedoStack alice (fine "x" 30) db_three_strokes))
     = operations db_three_strokes.
Proof.
  exact (commitStroke_result alice sample (fine "x" 30) broken
           db_three_strokes wf_db_three_strokes).
Defined.

Example commitStroke_returns_sequence :
  fst (commitStroke alice sample (fine "x" 30) (fine "op-4" 31)
         db_three_strokes) = Some 4.
Proof. reflexivity. Qed.

(** [commitStroke] empties the redo stack of its room when the delete
    goes through, and an empty redo stack makes [redoLast] return null. *)
Lemma commitStroke_clears_redo_stack (self : t) (stroke : StrokeOperation.t)
    (o1 o2 : Outcome) (db : DB) :
  ok o1 = true ->
  room_redo (roomId self) (snd (commitStroke self stroke o1 o2 db)) = [].
Proof.
  intros Hok. rewrite commitStroke_unfold.
  assert (H0 : room_redo (roomId self) (snd (clearRedoStack self o1 db)) = []).
  { unfold clearRedoStack, bind, ret, delete_redo_in_room, room_redo.
    rewrite Hok. simpl. apply filter_none. intros a Ha.
    apply filter_In in Ha. destruct Ha as [_ Ha].
    now apply negb_true_iff in Ha. }
  destruct (insert_operation o2 (roomId self) (userId self) (userName self)
              (userColor self) Database.stroke (strokeData stroke)
              (snd (clearRedoStack self o1 db))) as [[row|] db'] eqn:E.
  - apply insert_operation_data in E. destruct E as [_ [-> _]]. exact H0.
  - apply insert_operation_error in E. now subst.
Qed.

(** When the delete on the redo stack went through, the [redoLast] that
    follows a [commitStroke] finds nothing and returns null, whether
    the insert of the stroke went through or not. *)
Lemma commitStroke_then_redoLast (self : t) (stroke : StrokeOperation.t)
    (o1 o2 o3 o4 o5 : Outcome) (db : DB) :
  ok o1 = true ->
  fst (redoLast self o3 o4 o5 (snd (commitStroke self stroke o1 o2 db)))
  = None.
Proof.
  intros Hok. rewrite redoLast_empty; [reflexivity|].
  now apply commitStroke_clears_redo_stack.
Qed.

(** [commitClear] deletes from [operations] alone. *)
Lemma commitClear_redo_stack (self : t) (o : Outcome) (db : DB) :
  redo_stack (snd (commitClear self o db)) = redo_stack db.
Proof.
  unfold commitClear, bind, ret, delete_operations_in_room.
  now destruct (ok o).
Qed.

(** C1, on the code: after an [undoLast], a [commitClear] leaves the redo
    stack of the room as it was, and the [redoLast] that follows brings the
    removed stroke back on to the cleared canvas. *)
Theorem commitClear_leaves_redo_stack :
  let db1 := snd (undoLast alice (fine EmptyString 20) (fine "r1" 21) (fine EmptyString 22)
                    db_three_strokes) in
  let db2 := snd (commitClear alice (fine EmptyString 23) db1) in
  let redone := redoLast alice (fine EmptyString 24) (fine "op-4" 25) (fine EmptyString 26) db2 in
  operations db2 = []
  /\ room_redo (roomId alice) db2 = [redo_entry alice (fine "r1" 21) op_3]
  /\ option_map op_sequence (fst redone) = Some 4
  /\ fst redone <> None
  /\ map Row.sequence (operations (snd redone)) = [4].
Proof.
  repeat split. discriminate.
Qed.

(** ** Calls as schedules of statements *)

Lemma execute_all_app (sts1 sts2 : list Statement) (db : DB) :
  execute_all (sts1 ++ sts2) db = execute_all sts2 (execute_all sts1 db).
Proof.
  revert db. induction sts1 as [|st sts1 IH]; intros db; simpl;
    [reflexivity | apply IH].
Qed.

Lemma execute_insert_operation (o : Outcome) (room : uuid) (u n c : string)
    (ty : OpType) (d : OpData.t) (db : DB) :
  snd (execute (InsertOperation o room u n c ty d) db)
  = snd (insert_operation o room u n c ty d db).
Proof.
  simpl. now destruct (insert_operation o room u n c ty d db) as [[row|] db'].
Qed.

(** Every call of the service acts on the database as a few statements
    in a row. *)
Lemma step_is_schedule (db : DB) (c : t * Call) :
  exists sts, step db c = execute_all sts db.
Proof.
  destruct c as [self [s o1 o2|o|o1 o2 o3|o1 o2 o3]]; simpl.
  - exists [DeleteRedoInRoom o1 (roomId self);
            InsertOperation o2 (roomId self) (userId self) (userName self)
              (userColor self) Database.stroke (strokeData s)].
    cbn [execute_all]. rewrite execute_insert_operation.
    rewrite commitStroke_unfold. cbn [execute snd].
    unfold clearRedoStack, bind, ret.
    destruct (delete_redo_in_room o1 (roomId self) db) as [x db0].
    cbn [snd].
    now destruct (insert_operation o2 (roomId self) (userId self)
                    (userName self) (userColor self) Database.stroke
                    (strokeData s) db0) as [[row|] db'].
  - exists [DeleteOperationsInRoom o (roomId self)].
    unfold commitClear, bind, ret. cbn [execute_all execute snd].
    now destruct (delete_operations_in_room o (roomId self) db).
  - unfold undoLast, bind, ret.
    destruct (select_last_operation o1 (roomId self) db) as [[lastOp|] db0]
      eqn:E.
    + apply select_last_operation_data in E. destruct E as [-> _].
      exists [InsertRedo o2 (roomId self) (Row.id lastOp) lastOp;
              DeleteOperation o3 (Row.id lastOp)].
      cbn [execute_all execute snd].
      destruct (insert_redo o2 (roomId self) (Row.id lastOp) lastOp db)
        as [x db1]. cbn [snd].
      now destruct (delete_operation o3 (Row.id lastOp) db1) as [[u|] db2].
    + apply select_last_operation_error in E. subst db0. now exists [].
  - unfold redoLast, bind, ret.
    destruct (select_last_redo o1 (roomId self) db) as [[item|] db0] eqn:E.
    + apply select_last_redo_data in E. destruct E as [-> _].
      destruct (insert_operation o2 (roomId self)
                  (Row.user_id (RedoRow.operation_data item))
                  (Row.user_name (RedoRow.operation_data item))
                  (Row.user_color (RedoRow.operation_data item))
                  (Row.type (RedoRow.operation_data item))
                  (Row.data (RedoRow.operation_data item)) db)
        as [[newOp|] db1] eqn:Ei.
      * exists [InsertOperation o2 (roomId self)
                  (Row.user_id (RedoRow.operation_data item))
                  (Row.user_name (RedoRow.operation_data item))
                  (Row.user_color (RedoRow.operation_data item))
                  (Row.type (RedoRow.operation_data item))
                  (Row.data (RedoRow.operation_data item));
                DeleteRedo o3 (RedoRow.id item)].
        cbn [execute_all]. rewrite execute_insert_operation, Ei.
        cbn [execute snd].
        now destruct (delete_redo o3 (RedoRow.id item) db1).
      * exists [InsertOperation o2 (roomId self)
                  (Row.user_id (RedoRow.operation_data item))
                  (Row.user_name (RedoRow.operation_data item))
                  (Row.user_color (RedoRow.operation_data item))
                  (Row.type (RedoRow.operation_data item))
                  (Row.data (RedoRow.operation_data item))].
        cbn [execute_all]. now rewrite execute_insert_operation, Ei.
    + apply select_last_redo_error in E. subst db0. now exists [].
Qed.

Lemma run_is_schedule (calls : list (t * Call)) (db : DB) :
  exists sts, run calls db = execute_all sts db.
Proof.
  revert db. induction calls as [|c calls IH]; intros db; simpl.
  - now exists [].
  - destruct (step_is_schedule db c) as [sts1 E1].
    destruct (IH (step db c)) as [sts2 E2].
    exists (sts1 ++ sts2). now rewrite execute_all_app, <- E1.
Qed.

(** ** The bound on the redo stack *)

Lemma bounded_insert_redo (o : Outcome) (room original : uuid)
    (removed : Row.t) (db : DB) :
  redo_bounded db ->
  redo_bounded (snd (insert_redo o room original removed db)).
Proof.
  intros Hb room'. unfold insert_redo.
  destruct (ok o && negb (mem (gen_random_uuid o)
                            (map RedoRow.id (redo_stack db))));
    [|apply Hb].
  unfold room_redo. cbn [snd redo_stack].
  destruct (String.eqb_spec room room') as [->|Hneq].
  - apply cleanup_room_bound.
  - eapply Nat.le_trans; [apply cleanup_length_le|].
    rewrite filter_app. cbn [filter]. unfold redo_in_room at 2.
    cbn [RedoRow.room_id].
    apply String.eqb_neq in Hneq. rewrite Hneq, app_nil_r. apply Hb.
Qed.

Lemma bounded_filter (f : RedoRow.t -> bool) (db : DB) :
  redo_bounded db ->
  redo_bounded (mkDB (operations db) (filter f (redo_stack db))
                  (operations_sequence_seq db)).
Proof.
  intros Hb room'. unfold room_redo. cbn [redo_stack].
  rewrite filter_comm.
  eapply Nat.le_trans; [apply filter_length_le | apply Hb].
Qed.

Lemma bounded_same_stack (db db' : DB) :
  redo_stack db' = redo_stack db -> redo_bounded db -> redo_bounded db'.
Proof.
  intros E Hb room'. unfold room_redo. rewrite E. apply Hb.
Qed.

Lemma bounded_insert_operation (o : Outcome) (room : uuid) (u n c : string)
    (ty : OpType) (d : OpData.t) (db : DB) :
  redo_bounded db ->
  redo_bounded (snd (insert_operation o room u n c ty d db)).
Proof.
  apply bounded_same_stack. unfold insert_operation.
  now destruct (ok o && negb (mem (gen_random_uuid o)
                                (map Row.id (operations db)))).
Qed.

Lemma bounded_delete_operation (o : Outcome) (i : uuid) (db : DB) :
  redo_bounded db -> redo_bounded (snd (delete_operation o i db)).
Proof.
  apply bounded_same_stack. unfold delete_operation. now destruct (ok o).
Qed.

Lemma bounded_delete_redo (o : Outcome) (i : uuid) (db : DB) :
  redo_bounded db -> redo_bounded (snd (delete_redo o i db)).
Proof.
  intros Hb. unfold delete_redo. destruct (ok o); [|exact Hb].
  now apply bounded_filter.
Qed.

Lemma bounded_delete_redo_in_room (o : Outcome) (room : uuid) (db : DB) :
  redo_bounded db -> redo_bounded (snd (delete_redo_in_room o room db)).
Proof.
  intros Hb. unfold delete_redo_in_room. destruct (ok o); [|exact Hb].
  now apply bounded_filter.
Qed.

Lemma bounded_undoLast (self : t) (o1 o2 o3 : Outcome) (db : DB) :
  redo_bounded db -> redo_bounded (snd (undoLast self o1 o2 o3 db)).
Proof.
  intros Hb. unfold undoLast, bind, ret.
  destruct (select_last_operation o1 (roomId self) db) as [[lastOp|] db0]
    eqn:E.
  - apply select_last_operation_data in E. destruct E as [-> _].
    pose proof (bounded_insert_redo o2 (roomId self) (Row.id lastOp) lastOp
                  db Hb) as H1.
    destruct (insert_redo o2 (roomId self) (Row.id lastOp) lastOp db)
      as [x db1]. simpl in H1.
    pose proof (bounded_delete_operation o3 (Row.id lastOp) db1 H1) as H2.
    now destruct (delete_operation o3 (Row.id lastOp) db1) as [[u|] db2].
  - apply select_last_operation_error in E. now subst.
Qed.

Lemma bounded_step (db : DB) (c : t * Call) :
  redo_bounded db -> redo_bounded (step db c).
Proof.
  intros Hb. destruct c as [self [s o1 o2|o|o1 o2 o3|o1 o2 o3]]; simpl.
  - rewrite commitStroke_unfold.
    assert (H0 : redo_bounded (snd (clearRedoStack self o1 db))).
    { unfold clearRedoStack, bind, ret.
      pose proof (bounded_delete_redo_in_room o1 (roomId self) db Hb) as H.
      now destruct (delete_redo_in_room o1 (roomId self) db). }
    pose proof (bounded_insert_operation o2 (roomId self) (userId self)
                  (userName self) (userColor self) Database.stroke
                  (strokeData s) _ H0) as H1.
    now destruct (insert_operation o2 (roomId self) (userId self)
                    (userName self) (userColor self) Database.stroke
                    (strokeData s) (snd (clearRedoStack self o1 db)))
      as [[row|] db'].
  - eapply bounded_same_stack; [apply commitClear_redo_stack | exact Hb].
  - now apply bounded_undoLast.
  - unfold redoLast, bind, ret.
    destruct (select_last_redo o1 (roomId self) db) as [[item|] db0] eqn:E.
    + apply select_last_redo_data in E. destruct E as [-> _].
      pose proof (bounded_insert_operation o2 (roomId self)
                    (Row.user_id (RedoRow.operation_data item))
                    (Row.user_name (RedoRow.operation_data item))
                    (Row.user_color (RedoRow.operation_data item))
                    (Row.type (RedoRow.operation_data item))
                    (Row.data (RedoRow.operation_data item)) db Hb) as H1.
      destruct (insert_operation o2 (roomId self)
                  (Row.user_id (RedoRow.operation_data item))
                  (Row.user_name (RedoRow.operation_data item))
                  (Row.user_color (RedoRow.operation_data item))
                  (Row.type (RedoRow.operation_data item))
                  (Row.data (RedoRow.operation_data item)) db)
        as [[newOp|] db1]; [|exact H1].
      simpl in H1.
      pose proof (bounded_delete_redo o3 (RedoRow.id item) db1 H1) as H2.
      now destruct (delete_redo o3 (RedoRow.id item) db1).
    + apply select_last_redo_error in E. now subst.
Qed.

Lemma bounded_run (calls : list (t * Call)) (db : DB) :
  redo_bounded db -> redo_bounded (run calls db).
Proof.
  revert db. induction calls as [|c calls IH]; intros db H; simpl;
    [exact H|].
  apply IH, bounded_step, H.
Qed.

Lemma bounded_empty_db : redo_bounded empty_db.
Proof. intros room. unfold room_redo, redo_limit. simpl. lia. Qed.

(** The redo stack after [undoLast]: as before, or with the new row
    pushed and the trigger run. *)
Lemma undoLast_redo_stack (self : t) (o1 o2 o3 : Outcome) (db : DB) :
  redo_stack (snd (undoLast self o1 o2 o3 db)) = redo_stack db
  \/ (~ In (gen_random_uuid o2) (map RedoRow.id (redo_stack db))
      /\ exists lastOp,
           redo_stack (snd (undoLast self o1 o2 o3 db))
           = cleanup_old_redo_items (roomId self)
               (redo_stack db ++ [redo_entry self o2 lastOp])).
Proof.
  unfold undoLast, bind, ret.
  destruct (select_last_operation o1 (roomId self) db) as [[lastOp|] db0]
    eqn:E.
  - apply select_last_operation_data in E. destruct E as [-> _].
    unfold insert_redo.
    destruct (ok o2 && negb (mem (gen_random_uuid o2)
                               (map RedoRow.id (redo_stack db)))) eqn:C.
    + right. apply andb_prop in C. destruct C as [_ C].
      apply negb_true_iff, mem_false in C. split; [exact C|].
      exists lastOp. unfold delete_operation.
      cbn [ok operations redo_stack operations_sequence_seq].
      now destruct (ok o3).
    + left. unfold delete_operation. now destruct (ok o3).
  - left. apply select_last_operation_error in E. now subst.
Qed.

(** What [undoLast] evicts from the redo stack is older than what it
    leaves in the stack of its room. *)
Lemma undoLast_evicts_oldest (self : t) (o1 o2 o3 : Outcome) (db : DB)
    (e k : RedoRow.t) :
  wf db ->
  In e (redo_stack db) ->
  ~ In e (redo_stack (snd (undoLast self o1 o2 o3 db))) ->
  In k (room_redo (roomId self) (snd (undoLast self o1 o2 o3 db))) ->
  RedoRow.deleted_at e <= RedoRow.deleted_at k.
Proof.
  intros Hwf He Hgone Hk. unfold room_redo in Hk.
  destruct (undoLast_redo_stack self o1 o2 o3 db)
    as [E|[Hfresh [lastOp E]]]; rewrite E in Hgone, Hk.
  - contradiction.
  - apply filter_In in Hk. destruct Hk as [Hk Hroom].
    apply (cleanup_oldest_first (roomId self)
             (redo_stack db ++ [redo_entry self o2 lastOp])); trivial.
    + now apply fresh_redo_stack.
    + apply in_or_app. now left.
Qed.

(** On a full stack the push of [undoLast] evicts the oldest row. *)
Example undoLast_on_full_stack :
  let db' := snd (undoLast alice (fine EmptyString 99) (fine "new" 100) (fine EmptyString 101)
                     db_full) in
  List.length (room_redo default_room db_full) = 50%nat
  /\ map RedoRow.deleted_at (room_redo default_room db')
     = map Z.of_nat (seq 2 49) ++ [100].
Proof. vm_compute. split; reflexivity. Qed.

(** When the fetch and the push of an [undoLast] go through, the redo
    stack is the old one with the new row pushed and the trigger run,
    whatever becomes of the delete that follows. *)
Lemma undoLast_pushes (self : t) (o1 o2 o3 : Outcome) (db : DB)
    (lastOp : Row.t) :
  wf db -> is_last (roomId self) db lastOp ->
  ok o1 = true -> ok o2 = true ->
  ~ In (gen_random_uuid o2) (map RedoRow.id (redo_stack db)) ->
  redo_stack (snd (undoLast self o1 o2 o3 db))
  = cleanup_old_redo_items (roomId self)
      (redo_stack db ++ [redo_entry self o2 lastOp]).
Proof.
  intros Hwf Hlast Hok1 Hok2 Hfresh.
  unfold undoLast, bind, ret, select_last_operation.
  rewrite Hok1. fold (room_log (roomId self) db).
  rewrite (is_last_max _ _ _ Hwf Hlast).
  rewrite (insert_redo_succeeds _ _ _ _ _ Hok2 Hfresh).
  unfold delete_operation.
  cbn [ok operations redo_stack operations_sequence_seq].
  now destruct (ok o3).
Qed.

Lemma wf_db_full : wf db_full.
Proof.
  assert (Hids : forall l : list string, nodup string_dec l = l -> NoDup l).
  { intros l E. rewrite <- E. apply NoDup_nodup. }
  constructor.
  - vm_compute. discriminate.
  - repeat constructor; vm_compute; discriminate.
  - repeat constructor; vm_compute; intuition discriminate.
  - apply Hids. vm_compute. reflexivity.
  - apply Hids. vm_compute. reflexivity.
  - apply Forall_forall. intros r Hr. unfold db_full in Hr.
    cbn [redo_stack] in Hr. apply in_map_iff in Hr.
    destruct Hr as [n [<- _]]. reflexivity.
Qed.

Lemma db_full_is_full :
  List.length (room_redo default_room db_full) = 50%nat.
Proof. vm_compute. reflexivity. Qed.

Lemma room_redo_incl (room : uuid) (db : DB) (r : RedoRow.t) :
  In r (room_redo room db) -> In r (redo_stack db).
Proof. unfold room_redo. intros H. now apply filter_In in H. Qed.

Lemma db_full_later : later 100 (roomId alice) db_full.
Proof.
  intros r Hr. apply room_redo_incl in Hr.
  unfold db_full in Hr. cbn [redo_stack] in Hr.
  apply in_map_iff in Hr. destruct Hr as [n [E Hn]]. subst r.
  apply in_seq in Hn. unfold redo_row_at. cbn [RedoRow.deleted_at]. lia.
Qed.

(** C6: through any calls of the service, among them any number of
    [undoLast], the redo stack of every room stays within 50 rows.  An
    [undoLast] whose push goes through leaves on the stack of its room the
    rows that were there and the row it pushes, all of them up to 50 rows
    and the 50 newest beyond: a row that is gone was removed no later than
    any row that stays, as many rows stay as the limit allows, nothing is
    evicted below the limit, and the row just pushed stays when the clock
    has moved on. *)
Theorem redo_stack_bounded (calls : list (t * Call)) (db : DB) :
  wf db -> redo_bounded db ->
  let db1 := run calls db in
  (forall room, (List.length (room_redo room db1) <= 50)%nat)
  /\ forall (self : t) (o1 o2 o3 : Outcome),
       let db2 := snd (undoLast self o1 o2 o3 db1) in
       let before := room_redo (roomId self) db1 in
       let after := room_redo (roomId self) db2 in
       (forall room, (List.length (room_redo room db2) <= 50)%nat)
       /\ (forall e k,
             In e (redo_stack db1) -> ~ In e (redo_stack db2) ->
             In k after ->
             RedoRow.deleted_at e <= RedoRow.deleted_at k)
       /\ (room_log (roomId self) db1 <> [] ->
           ok o1 = true -> ok o2 = true ->
           ~ In (gen_random_uuid o2) (map RedoRow.id (redo_stack db1)) ->
           exists lastOp,
             is_last (roomId self) db1 lastOp
             /\ (forall r, In r after ->
                           In r before \/ r = redo_entry self o2 lastOp)
             /\ List.length after
                = Nat.min 50 (List.length before + 1)
             /\ ((List.length before < 50)%nat ->
                 after = before ++ [redo_entry self o2 lastOp])
             /\ (later (now o2) (roomId self) db1 ->
                 In (redo_entry self o2 lastOp) after)).
Proof.
  intros Hwf Hb db1.
  assert (Hb1 : redo_bounded db1) by now apply bounded_run.
  assert (Hwf1 : wf db1) by now apply wf_run.
  split; [exact Hb1|].
  intros self o1 o2 o3 db2 before after. split; [|split].
  - now apply bounded_undoLast.
  - intros e k. now apply undoLast_evicts_oldest.
  - intros Hne Hok1 Hok2 Hfresh.
    destruct (nonempty_has_last _ _ Hne) as [lastOp Hlast].
    exists lastOp. split; [exact Hlast|].
    pose proof (fresh_redo_stack self o2 lastOp db1 Hwf1 Hfresh) as Hnd.
    pose proof (redo_entry_in_room self o2 lastOp) as Hroom.
    assert (Eafter : after
                     = filter (redo_in_room (roomId self))
                         (cleanup_old_redo_items (roomId self)
                            (redo_stack db1 ++ [redo_entry self o2 lastOp]))).
    { unfold after, db2, room_redo.
      now rewrite (undoLast_pushes _ _ _ _ _ _ Hwf1 Hlast Hok1 Hok2 Hfresh). }
    assert (Epushed : filter (redo_in_room (roomId self))
                        (redo_stack db1 ++ [redo_entry self o2 lastOp])
                      = before ++ [redo_entry self o2 lastOp]).
    { rewrite filter_app. cbn [filter]. now rewrite Hroom. }
    split; [|split; [|split]].
    + intros r Hr. rewrite Eafter in Hr. apply filter_In in Hr.
      destruct Hr as [Hr Hin]. apply cleanup_incl, in_app_or in Hr.
      destruct Hr as [Hr|[Hr|[]]]; [left | right; now symmetry].
      apply filter_In. now split.
    + rewrite Eafter, (cleanup_room_length _ _ Hnd), Epushed, length_app.
      reflexivity.
    + intros Hlt. rewrite Eafter, cleanup_below_limit; [exact Epushed|].
      rewrite Epushed, length_app. cbn [List.length].
      unfold redo_limit. lia.
    + intros Hlater. rewrite Eafter. apply filter_In.
      split; [|exact Hroom]. now apply cleanup_keeps_new.
Qed.

Lemma redo_stack_bounded_witness :
  exists lastOp,
    let db2 := snd (undoLast alice (fine EmptyString 99) (fine "new" 100)
                      (fine EmptyString 101) db_full) in
    is_last default_room db_full lastOp
    /\ List.length (room_redo default_room db_full) = 50%nat
    /\ List.length (room_redo default_room db2) = 50%nat
    /\ In (redo_entry alice (fine "new" 100) lastOp)
          (room_redo default_room db2).
Proof.
  assert (Hb : redo_bounded db_full).
  { intros room. unfold room_redo.
    eapply Nat.le_trans; [apply filter_length_le|].
    unfold db_full. cbn [redo_stack].
    rewrite length_map, length_seq. apply Nat.le_refl. }
  destruct (proj2 (redo_stack_bounded [] db_full wf_db_full Hb)
              alice (fine EmptyString 99) (fine "new" 100)
              (fine EmptyString 101))
    as (_ & _ & Hpush).
  destruct Hpush as (lastOp & Hlast & _ & Hlen & _ & Hnew).
  - vm_compute. discriminate.
  - reflexivity.
  - reflexivity.
  - intros Hin. change (run [] db_full) with db_full in Hin.
    apply in_map_iff in Hin. destruct Hin as [r [E Hr]].
    unfold db_full in Hr. cbn [redo_stack] in Hr.
    apply in_map_iff in Hr. destruct Hr as [n [En _]]. subst r.
    unfold redo_row_at in E. cbn [RedoRow.id gen_random_uuid fine] in E.
    injection E as _ E. discriminate E.
  - exists lastOp. split; [exact Hlast|].
    split; [exact db_full_is_full|]. split.
    + change (run [] db_full) with db_full in Hlen.
      change (roomId alice) with default_room in Hlen.
      now rewrite Hlen, db_full_is_full.
    + apply Hnew. exact db_full_later.
Defined.

End SyncServiceProps.

(* ================================================================== *)
(** * Convergence of the clients *)
(* ================================================================== *)

Module ReplayProps.
Import Sorting SortingProps Database DatabaseProps SyncService UseCanvas
  UseCanvasProps.
Local Open Scope string_scope.
Local Open Scope list_scope.
Local Open Scope Z_scope.

Lemma op_sequence_rowToOperation (rows : list Row.t) :
  map op_sequence (map rowToOperation rows) = map Row.sequence rows.
Proof.
  rewrite map_map. apply map_ext. intros r. unfold rowToOperation.
  now destruct (Row.type r).
Qed.

Lemma op_id_rowToOperation (rows : list Row.t) :
  map op_id (map rowToOperation rows) = map Row.id rows.
Proof.
  rewrite map_map. apply map_ext. intros r. unfold rowToOperation.
  now destruct (Row.type r).
Qed.

Lemma sorted_key_inj {A : Type} (key : A -> Z) (l : list A) :
  StronglySorted (lt_key key) l ->
  forall a b, In a l -> In b l -> key a = key b -> a = b.
Proof.
  induction 1 as [|c l HS IH HF]; intros a b Ha Hb E; [destruct Ha|].
  rewrite Forall_forall in HF. unfold lt_key in HF.
  destruct Ha as [<-|Ha], Hb as [<-|Hb]; trivial.
  - specialize (HF b Hb). lia.
  - specialize (HF a Ha). lia.
  - now apply IH.
Qed.

(** Rows accepted by the database, taken once each, have pairwise
    distinct sequences. *)
Lemma committed_sequences_distinct (ops : list DrawingOperation) :
  committed ops -> NoDup (map op_id ops) -> NoDup (map op_sequence ops).
Proof.
  intros (sts & db & rows & Hincl & ->) Hid.
  rewrite op_id_rowToOperation in Hid.
  rewrite op_sequence_rowToOperation.
  apply Finite.Injective_map_NoDup_in; [|eapply NoDup_map_inv, Hid].
  intros a b Ha Hb E.
  apply (sorted_key_inj Row.sequence (accepted sts db)); auto.
  apply accepted_sorted.
Qed.

(** C9: committed operations with pairwise distinct identifiers, delivered
    one at a time through [addOperation] in any arrival order or all at
    once through [setOperations], give the same list, which holds exactly
    these operations in ascending sequence order. *)
Theorem delivery_order_irrelevant (ops arrival : list DrawingOperation) :
  committed ops ->
  NoDup (map op_id ops) ->
  Permutation arrival ops ->
  deliver arrival [] = setOperations ops
  /\ setOperations arrival = setOperations ops
  /\ ascending (deliver arrival [])
  /\ Permutation (deliver arrival []) ops.
Proof.
  intros Hc Hid HP.
  pose proof (committed_sequences_distinct ops Hc Hid) as Hseq.
  assert (Hid' : NoDup (map op_id arrival)).
  { eapply Permutation_NoDup; [|exact Hid].
    apply Permutation_map, Permutation_sym, HP. }
  assert (Hseq' : NoDup (map op_sequence arrival)).
  { eapply Permutation_NoDup; [|exact Hseq].
    apply Permutation_map, Permutation_sym, HP. }
  assert (E : deliver arrival [] = sort_by op_sequence arrival).
  { apply (deliver_sort_by arrival []); assumption. }
  assert (E' : sort_by op_sequence arrival = sort_by op_sequence ops)
    by (now apply sort_by_perm_eq).
  unfold setOperations. rewrite E, E'. repeat split.
  - now apply sort_by_strict.
  - apply sort_by_perm.
Qed.

Lemma three_ops_committed : committed three_ops.
Proof.
  exists three_inserts, empty_db, (accepted three_inserts empty_db).
  split; [apply incl_refl | reflexivity].
Qed.

Lemma delivery_order_irrelevant_witness :
  deliver (tl three_ops ++ [hd (sample_stroke EmptyString 0) three_ops]) []
  = setOperations three_ops
  /\ map op_sequence (setOperations three_ops) = [1; 2; 3].
Proof.
  split; [|reflexivity].
  apply (delivery_order_irrelevant three_ops
           (tl three_ops ++ [hd (sample_stroke EmptyString 0) three_ops])
           three_ops_committed).
  - vm_compute. repeat constructor; simpl; intuition discriminate.
  - exact (Permutation_sym
             (Permutation_cons_append (tl three_ops)
                (hd (sample_stroke EmptyString 0) three_ops))).
Defined.

End ReplayProps.

(* ================================================================== *)
(** * More on the client operation list *)
(* ================================================================== *)

Module ClientProps.
Import Sorting SortingProps UseCanvas UseCanvasProps.
Local Open Scope string_scope.
Local Open Scope list_scope.
Local Open Scope Z_scope.

Section StableSort.
Variable A : Type.
Variable key : A -> Z.

Lemma insert_by_first (a : A) (l : list A) :
  Forall (fun b => key a <= key b) l -> insert_by key a l = a :: l.
Proof.
  destruct l as [|b r]; simpl; [reflexivity|].
  intros H. inversion H as [|? ? Hab _]; subst.
  apply Z.leb_le in Hab. now rewrite Hab.
Qed.

(** A stable sort leaves a sorted list as it is. *)
Lemma sort_by_sorted_id (l : list A) :
  StronglySorted (le_key key) l -> sort_by key l = l.
Proof.
  induction 1 as [|a r HS IH HF]; simpl; [reflexivity|].
  rewrite IH. now apply insert_by_first.
Qed.

Lemma filter_insert_by (f : A -> bool) (a : A) (l : list A) :
  StronglySorted (le_key key) l ->
  filter f (insert_by key a l)
  = if f a then insert_by key a (filter f l) else filter f l.
Proof.
  induction 1 as [|b r HS IH HF]; simpl.
  - now destruct (f a).
  - destruct (key a <=? key b) eqn:E; simpl.
    + destruct (f a) eqn:Ea, (f b) eqn:Eb; simpl; rewrite ?E; trivial.
      symmetry. apply insert_by_first.
      apply Z.leb_le in E. rewrite Forall_forall in *.
      intros c Hc. apply filter_In in Hc. destruct Hc as [Hc _].
      specialize (HF c Hc). unfold le_key in HF. lia.
    + rewrite IH. destruct (f a), (f b); simpl; rewrite ?E; reflexivity.
Qed.

(** Filtering commutes with the stable sort. *)
Lemma filter_sort_by (f : A -> bool) (l : list A) :
  filter f (sort_by key l) = sort_by key (filter f l).
Proof.
  induction l as [|a r IH]; simpl; [reflexivity|].
  rewrite filter_insert_by by apply sort_by_sorted.
  destruct (f a); simpl; now rewrite IH.
Qed.

Lemma sorted_filter (f : A -> bool) (l : list A) :
  StronglySorted (le_key key) l -> StronglySorted (le_key key) (filter f l).
Proof.
  induction 1 as [|a r HS IH HF]; simpl; [constructor|].
  destruct (f a); [|exact IH]. constructor; [exact IH|].
  rewrite Forall_forall in *. intros c Hc. apply filter_In in Hc.
  now apply HF.
Qed.

(** A row with the least key sorts first, wherever it stands. *)
Lemma sort_by_least_first (l1 l2 : list A) (a : A) :
  (forall b, In b (l1 ++ l2) -> key a < key b) ->
  sort_by key (l1 ++ a :: l2) = a :: sort_by key (l1 ++ l2).
Proof.
  induction l1 as [|b l1 IH]; simpl; intros H.
  - apply insert_by_first. rewrite Forall_forall. intros c Hc.
    apply sort_by_In in Hc. specialize (H c Hc). lia.
  - rewrite IH by (intros c Hc; apply H; now right). simpl.
    assert (key a < key b) by (apply H; now left).
    destruct (key b <=? key a) eqn:E; [apply Z.leb_le in E; lia|].
    reflexivity.
Qed.
End StableSort.

Lemma removeOperation_absent (i : string) (s : State) :
  ~ In i (map op_id s) -> removeOperation i s = s.
Proof.
  intros Hn. unfold removeOperation. apply DatabaseProps.filter_all.
  intros o Ho. apply negb_true_iff, String.eqb_neq. intros E.
  apply Hn. subst i. now apply in_map.
Qed.

Lemma removeOperation_sorted_add (op : DrawingOperation) (prev : State) :
  StronglySorted (le_key op_sequence) prev ->
  ~ In (op_id op) (map op_id prev) ->
  removeOperation (op_id op) (sort_by op_sequence (prev ++ [op])) = prev.
Proof.
  intros Hs Hfresh. unfold removeOperation.
  rewrite filter_sort_by, filter_app. cbn [filter].
  rewrite String.eqb_refl. cbn [negb]. rewrite app_nil_r.
  fold (removeOperation (op_id op) prev).
  rewrite (removeOperation_absent _ _ Hfresh).
  now apply sort_by_sorted_id.
Qed.

(** X1: on a list in ascending sequence order, removing the identifier of
    an operation that was just added, its identifier new to the list,
    gives the list back. *)
Theorem removeOperation_addOperation (op : DrawingOperation) (prev : State) :
  StronglySorted (le_key op_sequence) prev ->
  ~ In (op_id op) (map op_id prev) ->
  removeOperation (op_id op) (addOperation op prev) = prev.
Proof.
  intros Hs Hfresh. unfold addOperation.
  rewrite (has_id_false _ _ Hfresh).
  now apply removeOperation_sorted_add.
Qed.

Lemma removeOperation_addOperation_witness :
  removeOperation "b"
    (addOperation (sample_stroke "b" 2)
       [sample_stroke "a" 1; sample_stroke "c" 3])
  = [sample_stroke "a" 1; sample_stroke "c" 3].
Proof.
  apply (removeOperation_addOperation (sample_stroke "b" 2)
           [sample_stroke "a" 1; sample_stroke "c" 3]).
  - repeat constructor; unfold le_key; simpl; lia.
  - simpl. intuition discriminate.
Defined.

(** X2: a stroke that [endDrawing] appended, with its sequence 0, goes to
    the front of the list, before every committed operation, as soon as
    [addOperation] takes in an operation with a new identifier. *)
Theorem addOperation_moves_local_stroke_first
    (prev : State) (localStroke op : DrawingOperation) :
  op_sequence localStroke = 0 ->
  (forall o, In o prev -> 0 < op_sequence o) ->
  0 < op_sequence op ->
  ~ In (op_id op) (map op_id (prev ++ [localStroke])) ->
  addOperation op (prev ++ [localStroke])
  = localStroke :: sort_by op_sequence (prev ++ [op]).
Proof.
  intros H0 Hprev Hop Hfresh. unfold addOperation.
  rewrite (has_id_false _ _ Hfresh), <- app_assoc. cbn [app].
  apply sort_by_least_first. intros b Hb. rewrite H0.
  apply in_app_or in Hb. destruct Hb as [Hb|[<-|[]]]; auto.
Qed.

Lemma addOperation_moves_local_stroke_first_witness :
  addOperation (sample_stroke "c" 3)
    ([sample_stroke "a" 1; sample_stroke "b" 2] ++ [sample_stroke "mine" 0])
  = sample_stroke "mine" 0
    :: sort_by op_sequence
         ([sample_stroke "a" 1; sample_stroke "b" 2] ++ [sample_stroke "c" 3]).
Proof.
  apply (addOperation_moves_local_stroke_first
           [sample_stroke "a" 1; sample_stroke "b" 2]
           (sample_stroke "mine" 0) (sample_stroke "c" 3)).
  - reflexivity.
  - intros o [<-|[<-|[]]]; simpl; lia.
  - simpl. lia.
  - simpl. intuition discriminate.
Defined.

End ClientProps.

(* ================================================================== *)
(** * Properties of the page: events, connection, redo availability *)
(* ================================================================== *)

Module CollaborationProps.
Import Sorting SortingProps Database DatabaseProps SyncService
  SyncServiceProps UseCanvas UseCanvasProps ClientProps Collaboration.
Local Open Scope string_scope.
Local Open Scope list_scope.
Local Open Scope Z_scope.

Lemma op_id_row (r : Row.t) : op_id (rowToOperation r) = Row.id r.
Proof. unfold rowToOperation. now destruct (Row.type r). Qed.

Lemma op_sequence_row (r : Row.t) :
  op_sequence (rowToOperation r) = Row.sequence r.
Proof. unfold rowToOperation. now destruct (Row.type r). Qed.

Lemma op_userId_row (r : Row.t) :
  op_userId (rowToOperation r) = Row.user_id r.
Proof. unfold rowToOperation. now destruct (Row.type r). Qed.

Lemma addOperation_sorted (op : DrawingOperation) (prev : State) :
  sorted prev -> sorted (addOperation op prev).
Proof.
  intros H. unfold addOperation.
  destruct (has_id (op_id op) prev); [exact H | apply sort_by_sorted].
Qed.

Lemma receive_sorted (self : SyncService.t) (local : State) (e : Event) :
  sorted local -> sorted (receive self local e).
Proof.
  intros H. destruct e as [ops|new|i]; simpl.
  - apply sort_by_sorted.
  - unfold onInsert.
    destruct (negb (String.eqb (op_userId (rowToOperation new))
                      (userId self)));
      [now apply addOperation_sorted | exact H].
  - unfold onDelete. destruct (String.eqb i EmptyString); [exact H|].
    now apply sorted_filter.
Qed.

(** X3: on a client that only watches, whatever replay, INSERT and DELETE
    events arrive and in whatever order, the operation list stays in
    ascending sequence order. *)
Theorem watcher_list_stays_sorted
    (self : SyncService.t) (events : list Event) (local : State) :
  sorted local -> sorted (fold_left (receive self) events local).
Proof.
  revert local. induction events as [|e events IH]; intros local H; simpl;
    [exact H|].
  apply IH. now apply receive_sorted.
Qed.

Lemma watcher_list_stays_sorted_witness :
  sorted (fold_left (receive bob)
            [Inserted op_3; StateSync three_ops; Deleted "op-2";
             Inserted op_3] []).
Proof.
  apply (watcher_list_stays_sorted bob
           [Inserted op_3; StateSync three_ops; Deleted "op-2";
            Inserted op_3] []).
  constructor.
Defined.

(** X4: on a sorted list, the DELETE event of a row undoes its INSERT
    event, whoever wrote the row. *)
Theorem onDelete_onInsert (self : SyncService.t) (new : Row.t) (local : State) :
  sorted local ->
  ~ In (Row.id new) (map op_id local) ->
  Row.id new <> EmptyString ->
  onDelete (Row.id new) (onInsert self new local) = local.
Proof.
  intros Hs Hfresh Hne. unfold onDelete, onInsert.
  apply String.eqb_neq in Hne. rewrite Hne.
  destruct (negb (String.eqb (op_userId (rowToOperation new))
                    (userId self))).
  - rewrite <- (op_id_row new) in *. unfold addOperation.
    rewrite (has_id_false _ _ Hfresh).
    now apply removeOperation_sorted_add.
  - now apply removeOperation_absent.
Qed.

Lemma onDelete_onInsert_witness :
  onDelete (Row.id op_3) (onInsert bob op_3 [sample_stroke "a" 1]) 
  = [sample_stroke "a" 1].
Proof.
  apply (onDelete_onInsert bob op_3 [sample_stroke "a" 1]).
  - repeat constructor.
  - simpl. intuition discriminate.
  - discriminate.
Defined.

Lemma sorted_map_rows (rows : list Row.t) :
  StronglySorted (lt_key Row.sequence) rows ->
  StronglySorted (lt_key op_sequence) (map rowToOperation rows).
Proof.
  induction 1 as [|a r HS IH HF]; simpl; constructor; [exact IH|].
  rewrite Forall_forall in *. intros o Ho.
  apply in_map_iff in Ho. destruct Ho as [b [<- Hb]].
  unfold lt_key. rewrite !op_sequence_row. now apply HF.
Qed.

Lemma strict_sorted_le {A : Type} (key : A -> Z) (l : list A) :
  StronglySorted (lt_key key) l -> StronglySorted (le_key key) l.
Proof.
  induction 1 as [|a r HS IH HF]; constructor; [exact IH|].
  eapply Forall_impl; [|exact HF]. unfold lt_key, le_key. intros; lia.
Qed.

(** X5: [connect] throws when the fetch fails; otherwise it returns the
    log of the room in strictly ascending sequence order, a list that
    [setOperations] leaves as it is and that a client who saw the same
    operations arrive one by one, in any order, holds as well. *)
Theorem connect_replay (self : SyncService.t) (o : Outcome) (db : DB) :
  wf db ->
  (ok o = false -> connect self o db = (Error, db))
  /\ (ok o = true ->
      exists ops,
        connect self o db = (Data ops, db)
        /\ Permutation ops (map rowToOperation (room_log (roomId self) db))
        /\ ascending ops
        /\ setOperations ops = ops
        /\ forall arrival, Permutation arrival ops ->
                           deliver arrival [] = ops).
Proof.
  intros Hwf. unfold connect, select_operations, bind, ret. split.
  - intros E. now rewrite E.
  - intros E. rewrite E.
    set (rows := sort_by Row.sequence (room_log (roomId self) db)).
    exists (map rowToOperation rows).
    assert (Hseq : NoDup (map Row.sequence (room_log (roomId self) db))).
    { unfold room_log. apply NoDup_map_filter, wf_sequence_distinct, Hwf. }
    assert (Hid : NoDup (map Row.id (room_log (roomId self) db))).
    { unfold room_log. apply NoDup_map_filter, wf_id_distinct, Hwf. }
    assert (Hperm : Permutation rows (room_log (roomId self) db))
      by apply sort_by_perm.
    assert (Hstrict : StronglySorted (lt_key Row.sequence) rows)
      by now apply sort_by_strict.
    assert (Hasc : ascending (map rowToOperation rows))
      by now apply sorted_map_rows.
    assert (Hset : setOperations (map rowToOperation rows)
                   = map rowToOperation rows).
    { unfold setOperations. apply sort_by_sorted_id.
      now apply strict_sorted_le. }
    split; [reflexivity|]. split; [now apply Permutation_map|].
    split; [exact Hasc|]. split; [exact Hset|].
    intros arrival HP.
    transitivity (setOperations (map rowToOperation rows)); [|exact Hset].
    apply deliver_any_order; [| |exact HP].
    + rewrite ReplayProps.op_id_rowToOperation.
      eapply Permutation_NoDup; [|exact Hid].
      apply Permutation_map, Permutation_sym, Hperm.
    + rewrite ReplayProps.op_sequence_rowToOperation.
      eapply Permutation_NoDup; [|exact Hseq].
      apply Permutation_map, Permutation_sym, Hperm.
Qed.

Lemma connect_replay_witness :
  exists ops,
    connect bob (fine EmptyString 40) db_three_strokes
    = (Data ops, db_three_strokes)
    /\ map op_sequence ops = [1; 2; 3].
Proof.
  destruct (proj2 (connect_replay bob (fine EmptyString 40) db_three_strokes
                     wf_db_three_strokes) eq_refl)
    as [ops [E _]].
  exists ops. split; [exact E|].
  vm_compute in E. injection E as <-. reflexivity.
Defined.

(** X6: when its request goes through, [hasRedoAvailable] tells what the
    next [redoLast] does: false, and [redoLast] returns null and changes
    nothing; true, and a [redoLast] whose requests go through returns an
    operation. *)
Theorem hasRedoAvailable_redoLast (self : SyncService.t) (o : Outcome)
    (db : DB) :
  ok o = true ->
  if fst (hasRedoAvailable self o db)
  then forall o1 o2 o3, redo_goes_through o1 o2 db ->
         exists op, fst (redoLast self o1 o2 o3 db) = Some op
  else forall o1 o2 o3, redoLast self o1 o2 o3 db = (None, db).
Proof.
  intros Hok. unfold hasRedoAvailable. rewrite Hok. cbn [fst].
  destruct (room_redo (roomId self) db) as [|r rest] eqn:E; cbn.
  - intros o1 o2 o3. now apply redoLast_empty.
  - intros o1 o2 o3 Hgo.
    destruct (max_by RedoRow.deleted_at (room_redo (roomId self) db))
      as [item|] eqn:Em.
    + destruct (redoLast_goes_through self o1 o2 o3 db item Em Hgo)
        as [Hres _]. eexists. exact Hres.
    + apply max_by_None in Em. rewrite E in Em. discriminate.
Qed.

Lemma hasRedoAvailable_redoLast_witness :
  redoLast alice (fine EmptyString 41) (fine "op-9" 42) (fine EmptyString 43)
    db_three_strokes
  = (None, db_three_strokes).
Proof.
  exact (hasRedoAvailable_redoLast alice (fine EmptyString 40)
           db_three_strokes eq_refl
           (fine EmptyString 41) (fine "op-9" 42) (fine EmptyString 43)).
Defined.

(** X7: a [redoLast] that returns null has changed nothing, neither the
    log nor the redo stack. *)
Theorem redoLast_null_changes_nothing
    (self : SyncService.t) (o1 o2 o3 : Outcome) (db : DB) :
  fst (redoLast self o1 o2 o3 db) = None ->
  snd (redoLast self o1 o2 o3 db) = db.
Proof.
  unfold redoLast, bind, ret.
  destruct (select_last_redo o1 (roomId self) db) as [[item|] db0] eqn:E.
  - apply select_last_redo_data in E. destruct E as [-> _].
    destruct (insert_operation o2 (roomId self)
                (Row.user_id (RedoRow.operation_data item))
                (Row.user_name (RedoRow.operation_data item))
                (Row.user_color (RedoRow.operation_data item))
                (Row.type (RedoRow.operation_data item))
                (Row.data (RedoRow.operation_data item)) db)
      as [[newOp|] db1] eqn:Ei.
    + destruct (delete_redo o3 (RedoRow.id item) db1). discriminate.
    + apply insert_operation_error in Ei. now subst.
  - apply select_last_redo_error in E. now subst.
Qed.

Lemma redoLast_null_changes_nothing_witness :
  snd (redoLast alice (fine EmptyString 41) broken (fine EmptyString 43)
         (snd (undoLast alice (fine EmptyString 20) (fine "r1" 21)
                 (fine EmptyString 22) db_three_strokes)))
  = snd (undoLast alice (fine EmptyString 20) (fine "r1" 21)
           (fine EmptyString 22) db_three_strokes).
Proof.
  apply (redoLast_null_changes_nothing alice (fine EmptyString 41) broken
           (fine EmptyString 43)).
  reflexivity.
Defined.

(** X8: after a [commitClear] that goes through the log of the room is
    empty and there is nothing to undo: every [undoLast] returns null and
    changes nothing; the logs of the other rooms are as before. *)
Theorem commitClear_is_not_undoable (self : SyncService.t) (o : Outcome)
    (db : DB) :
  ok o = true ->
  let db1 := snd (commitClear self o db) in
  room_log (roomId self) db1 = []
  /\ (forall o1 o2 o3, undoLast self o1 o2 o3 db1 = (None, db1))
  /\ (forall room, room <> roomId self ->
                   room_log room db1 = room_log room db).
Proof.
  intros Hok db1.
  assert (Hops : operations db1
                 = filter (fun r => negb (in_room (roomId self) r))
                     (operations db)).
  { unfold db1, commitClear, bind, ret, delete_operations_in_room.
    now rewrite Hok. }
  assert (Hempty : room_log (roomId self) db1 = []).
  { unfold room_log. rewrite Hops. apply filter_none.
    intros r Hr. apply filter_In in Hr. destruct Hr as [_ Hr].
    now apply negb_true_iff in Hr. }
  split; [exact Hempty|]. split.
  - intros o1 o2 o3. now apply undoLast_empty.
  - intros room Hneq. unfold room_log. rewrite Hops, filter_comm.
    apply filter_all. intros r Hr. apply filter_In in Hr.
    destruct Hr as [_ Hr]. unfold in_room in *.
    apply String.eqb_eq in Hr. apply negb_true_iff, String.eqb_neq.
    congruence.
Qed.

Lemma commitClear_is_not_undoable_witness :
  room_log (roomId alice)
    (snd (commitClear alice (fine EmptyString 50) db_three_strokes)) = [].
Proof.
  apply (commitClear_is_not_undoable alice (fine EmptyString 50)
           db_three_strokes).
  reflexivity.
Defined.

(** X9: every identifier gets one of the six user colours. *)
Theorem userColor_defined (userId : string) :
  exists c, userColor userId = Some c /\ In c USER_COLORS.
Proof.
  unfold userColor.
  destruct (nth_error USER_COLORS
              (charCodeSum 0 userId mod List.length USER_COLORS)) as [c|] eqn:E.
  - exists c. split; [reflexivity|]. eapply nth_error_In, E.
  - apply nth_error_None in E.
    pose proof (Nat.mod_upper_bound (charCodeSum 0 userId)
                  (List.length USER_COLORS)) as Hb.
    simpl in *. lia.
Qed.

(** ** Undo and redo on the page *)

Lemma redoLast_goes_through_stack (self : SyncService.t) (o1 o2 o3 : Outcome)
    (db : DB) (item : RedoRow.t) :
  max_by RedoRow.deleted_at (room_redo (roomId self) db) = Some item ->
  redo_goes_through o1 o2 db ->
  redo_stack (snd (redoLast self o1 o2 o3 db))
  = if ok o3
    then filter (fun r => negb (String.eqb (RedoRow.id r) (RedoRow.id item)))
           (redo_stack db)
    else redo_stack db.
Proof.
  intros Htop (Hok1 & Hok2 & Hfresh).
  unfold redoLast, bind, ret, select_last_redo.
  rewrite Hok1. fold (room_redo (roomId self) db). rewrite Htop.
  rewrite (insert_operation_succeeds _ _ _ _ _ _ _ _ Hok2 Hfresh).
  unfold delete_redo.
  cbn [ok operations redo_stack operations_sequence_seq].
  now destruct (ok o3).
Qed.

(** X10: with room left on the redo stack, an [undoLast] followed at once
    by a [redoLast], all requests going through, leaves the redo stack of
    every room as it was before the two calls. *)
Theorem undo_redo_restores_redo_stack
    (self : SyncService.t) (o1 o2 o3 o4 o5 o6 : Outcome) (db : DB) :
  wf db ->
  room_log (roomId self) db <> [] ->
  undo_goes_through self o1 o2 o3 db ->
  redo_goes_through o4 o5 db ->
  ok o6 = true ->
  (List.length (room_redo (roomId self) db) < redo_limit)%nat ->
  redo_stack (snd (redoLast self o4 o5 o6
                     (snd (undoLast self o1 o2 o3 db))))
  = redo_stack db.
Proof.
  intros Hwf Hne Hundo (Hok4 & Hok5 & Hfresh5) Hok6 Hlen.
  destruct (nonempty_has_last _ _ Hne) as [lastOp Hlast].
  pose proof (undoLast_goes_through _ _ _ _ _ _ Hwf Hlast Hundo) as Eundo.
  destruct Hundo as (_ & _ & _ & Hfresh & Hlater).
  set (entry := redo_entry self o2 lastOp) in *.
  assert (Hclean : cleanup_old_redo_items (roomId self)
                     (redo_stack db ++ [entry])
                   = redo_stack db ++ [entry]).
  { apply cleanup_below_limit. rewrite filter_app, length_app.
    cbn [filter]. unfold entry. rewrite redo_entry_in_room.
    unfold room_redo in Hlen. cbn [List.length]. lia. }
  rewrite Eundo. cbn [snd]. rewrite Hclean.
  set (db1 := mkDB _ (redo_stack db ++ [entry]) _).
  assert (Htop : max_by RedoRow.deleted_at (room_redo (roomId self) db1)
                 = Some entry).
  { unfold room_redo, db1. cbn [redo_stack]. rewrite <- Hclean.
    apply pushed_on_top;
      [now apply fresh_redo_stack | apply redo_entry_in_room | exact Hlater]. }
  assert (Hgo : redo_goes_through o4 o5 db1).
  { repeat split; trivial. intros Hin. apply Hfresh5.
    unfold db1 in Hin. cbn [operations] in Hin.
    apply in_map_iff in Hin. destruct Hin as [r [E Hr]].
    apply filter_In in Hr. apply in_map_iff. exists r. tauto. }
  rewrite (redoLast_goes_through_stack self o4 o5 o6 db1 entry Htop Hgo).
  rewrite Hok6. unfold db1. cbn [redo_stack].
  rewrite filter_app. cbn [filter]. rewrite String.eqb_refl. cbn [negb].
  rewrite app_nil_r. apply filter_all.
  intros r Hr. apply negb_true_iff, String.eqb_neq. intros E.
  apply Hfresh. unfold entry, redo_entry in E. cbn in E. rewrite <- E.
  now apply in_map.
Qed.

Lemma undo_redo_restores_redo_stack_witness :
  redo_stack
    (snd (redoLast alice (fine EmptyString 23) (fine "op-4" 24)
            (fine EmptyString 25)
            (snd (undoLast alice (fine EmptyString 20) (fine "r1" 21)
                    (fine EmptyString 22) db_three_strokes))))
  = redo_stack db_three_strokes.
Proof.
  apply (undo_redo_restores_redo_stack alice (fine EmptyString 20)
           (fine "r1" 21) (fine EmptyString 22) (fine EmptyString 23)
           (fine "op-4" 24) (fine EmptyString 25) db_three_strokes
           wf_db_three_strokes log_three_strokes_nonempty
           undo_goes_through_sample redo_goes_through_sample eq_refl).
  vm_compute. lia.
Defined.

(** X11: when the delete that ends a [redoLast] fails, the call still
    returns the new operation, and the entry stays on top of the redo
    stack, so that the next [redoLast] commits the same stroke once more. *)
Theorem redoLast_repeats_after_failed_delete
    (self : SyncService.t) (o1 o2 o3 p1 p2 p3 : Outcome) (db : DB)
    (item : RedoRow.t) :
  max_by RedoRow.deleted_at (room_redo (roomId self) db) = Some item ->
  redo_goes_through o1 o2 db ->
  ok o3 = false ->
  let db1 := snd (redoLast self o1 o2 o3 db) in
  redo_goes_through p1 p2 db1 ->
  fst (redoLast self o1 o2 o3 db)
  = Some (rowToOperation
            (redone_row self o2 (RedoRow.operation_data item) db))
  /\ fst (redoLast self p1 p2 p3 db1)
     = Some (rowToOperation
               (redone_row self p2 (RedoRow.operation_data item) db1))
  /\ operations (snd (redoLast self p1 p2 p3 db1))
     = operations db
       ++ [redone_row self o2 (RedoRow.operation_data item) db;
           redone_row self p2 (RedoRow.operation_data item) db1].
Proof.
  intros Htop Hgo Hfail db1 Hgo1.
  destruct (redoLast_goes_through self o1 o2 o3 db item Htop Hgo)
    as [Hres Hlog].
  pose proof (redoLast_goes_through_stack self o1 o2 o3 db item Htop Hgo)
    as Hstack.
  rewrite Hfail in Hstack. fold db1 in Hlog, Hstack.
  assert (Htop1 : max_by RedoRow.deleted_at (room_redo (roomId self) db1)
                  = Some item)
    by (unfold room_redo; rewrite Hstack; exact Htop).
  destruct (redoLast_goes_through self p1 p2 p3 db1 item Htop1 Hgo1)
    as [Hres1 Hlog1].
  split; [exact Hres|]. split; [exact Hres1|].
  rewrite Hlog1, Hlog, <- app_assoc. reflexivity.
Qed.

Lemma redo_go_1 :
  redo_goes_through (fine EmptyString 23) (fine "op-4" 24)
    (snd (undoLast alice (fine EmptyString 20) (fine "r1" 21)
            (fine EmptyString 22) db_three_strokes)).
Proof.
  repeat split. vm_compute. intros [H|[H|[]]]; discriminate H.
Qed.

Lemma redo_go_2 :
  redo_goes_through (fine EmptyString 26) (fine "op-5" 27)
    (snd (redoLast alice (fine EmptyString 23) (fine "op-4" 24) broken
            (snd (undoLast alice (fine EmptyString 20) (fine "r1" 21)
                    (fine EmptyString 22) db_three_strokes)))).
Proof.
  repeat split. vm_compute. intros [H|[H|[H|[]]]]; discriminate H.
Qed.

Lemma redoLast_repeats_after_failed_delete_witness :
  map Row.sequence
    (operations
       (snd (redoLast alice (fine EmptyString 26) (fine "op-5" 27)
               (fine EmptyString 28)
               (snd (redoLast alice (fine EmptyString 23) (fine "op-4" 24)
                       broken
                       (snd (undoLast alice (fine EmptyString 20)
                               (fine "r1" 21) (fine EmptyString 22)
                               db_three_strokes)))))))
  = [1; 2; 4; 5].
Proof.
  rewrite (proj2 (proj2
             (redoLast_repeats_after_failed_delete alice
                (fine EmptyString 23) (fine "op-4" 24) broken
                (fine EmptyString 26) (fine "op-5" 27) (fine EmptyString 28)
                (snd (undoLast alice (fine EmptyString 20) (fine "r1" 21)
                        (fine EmptyString 22) db_three_strokes))
                (redo_entry alice (fine "r1" 21) op_3)
                eq_refl redo_go_1 eq_refl redo_go_2))).
  reflexivity.
Defined.

(** ** Rooms *)

Lemma other_room_false (room other : uuid) (r : Row.t) :
  other <> room -> in_room other r = true -> in_room room r = false.
Proof.
  unfold in_room. intros Hneq Hr. apply String.eqb_eq in Hr.
  apply String.eqb_neq. congruence.
Qed.

Lemma other_redo_room_false (room other : uuid) (r : RedoRow.t) :
  other <> room -> redo_in_room other r = true -> redo_in_room room r = false.
Proof.
  unfold redo_in_room. intros Hneq Hr. apply String.eqb_eq in Hr.
  apply String.eqb_neq. congruence.
Qed.

Lemma log_delete_by_id (room other : uuid) (ops : list Row.t) (r0 : Row.t) :
  other <> room -> NoDup (map Row.id ops) ->
  In r0 ops -> in_room other r0 = true ->
  filter (in_room room)
    (filter (fun r => negb (String.eqb (Row.id r) (Row.id r0))) ops)
  = filter (in_room room) ops.
Proof.
  intros Hneq Hnd H0 Hroom. rewrite filter_comm. apply filter_all.
  intros r Hr. apply filter_In in Hr. destruct Hr as [Hr Hin].
  apply negb_true_iff, String.eqb_neq. intros E.
  assert (r = r0) by (eapply NoDup_map_inj; eauto). subst r.
  rewrite (other_room_false _ _ _ Hneq Hroom) in Hin. discriminate.
Qed.

Lemma redo_delete_by_id (room other : uuid) (stack : list RedoRow.t)
    (r0 : RedoRow.t) :
  other <> room -> NoDup (map RedoRow.id stack) ->
  In r0 stack -> redo_in_room other r0 = true ->
  filter (redo_in_room room)
    (filter (fun r => negb (String.eqb (RedoRow.id r) (RedoRow.id r0))) stack)
  = filter (redo_in_room room) stack.
Proof.
  intros Hneq Hnd H0 Hroom. rewrite filter_comm. apply filter_all.
  intros r Hr. apply filter_In in Hr. destruct Hr as [Hr Hin].
  apply negb_true_iff, String.eqb_neq. intros E.
  assert (r = r0) by (eapply NoDup_map_inj; eauto). subst r.
  rewrite (other_redo_room_false _ _ _ Hneq Hroom) in Hin. discriminate.
Qed.

Lemma redo_push_other_room (room other : uuid) (stack : list RedoRow.t)
    (new : RedoRow.t) :
  other <> room -> NoDup (map RedoRow.id (stack ++ [new])) ->
  redo_in_room other new = true ->
  filter (redo_in_room room) (cleanup_old_redo_items other (stack ++ [new]))
  = filter (redo_in_room room) stack.
Proof.
  intros Hneq Hnd Hnew. unfold cleanup_old_redo_items.
  rewrite filter_comm, filter_app. cbn [filter].
  rewrite (other_redo_room_false _ _ _ Hneq Hnew), app_nil_r.
  apply filter_all. intros r Hr. apply filter_In in Hr.
  destruct Hr as [Hr Hin]. apply negb_true_iff, mem_false. intros Hid.
  apply old_redo_items_id in Hid; trivial;
    [|apply in_or_app; now left].
  apply old_redo_items_incl in Hid. destruct Hid as [_ Hid].
  rewrite (other_redo_room_false _ _ _ Hneq Hid) in Hin. discriminate.
Qed.

Lemma view_insert_operation (o : Outcome) (room other : uuid)
    (u n c : string) (ty : OpType) (d : OpData.t) (db : DB) :
  other <> room ->
  room_view room (snd (insert_operation o other u n c ty d db))
  = room_view room db.
Proof.
  intros Hneq. unfold room_view, room_log, room_redo, insert_operation.
  destruct (ok o && negb (mem (gen_random_uuid o)
                            (map Row.id (operations db))));
    [|reflexivity].
  cbn [snd operations redo_stack]. rewrite filter_app. cbn [filter].
  unfold in_room at 2. cbn [Row.room_id].
  apply String.eqb_neq in Hneq. now rewrite Hneq, app_nil_r.
Qed.

Lemma view_delete_operations_in_room (o : Outcome) (room other : uuid)
    (db : DB) :
  other <> room ->
  room_view room (snd (delete_operations_in_room o other db))
  = room_view room db.
Proof.
  intros Hneq. unfold room_view, room_log, room_redo,
    delete_operations_in_room.
  destruct (ok o); [|reflexivity]. cbn [snd operations redo_stack].
  f_equal. rewrite filter_comm. apply filter_all. intros r Hr.
  apply filter_In in Hr. destruct Hr as [_ Hr].
  apply negb_true_iff. unfold in_room in *.
  apply String.eqb_eq in Hr. apply String.eqb_neq. congruence.
Qed.

Lemma view_delete_redo_in_room (o : Outcome) (room other : uuid) (db : DB) :
  other <> room ->
  room_view room (snd (delete_redo_in_room o other db)) = room_view room db.
Proof.
  intros Hneq. unfold room_view, room_log, room_redo, delete_redo_in_room.
  destruct (ok o); [|reflexivity]. cbn [snd operations redo_stack].
  f_equal. rewrite filter_comm. apply filter_all. intros r Hr.
  apply filter_In in Hr. destruct Hr as [_ Hr].
  apply negb_true_iff. unfold redo_in_room in *.
  apply String.eqb_eq in Hr. apply String.eqb_neq. congruence.
Qed.

Lemma view_delete_operation (o : Outcome) (room other : uuid) (r0 : Row.t)
    (db : DB) :
  other <> room -> NoDup (map Row.id (operations db)) ->
  In r0 (operations db) -> in_room other r0 = true ->
  room_view room (snd (delete_operation o (Row.id r0) db))
  = room_view room db.
Proof.
  intros Hneq Hnd Hin Hroom.
  unfold room_view, room_log, room_redo, delete_operation.
  destruct (ok o); [|reflexivity]. cbn [snd operations redo_stack].
  f_equal. now apply (log_delete_by_id room other).
Qed.

Lemma view_delete_redo (o : Outcome) (room other : uuid) (r0 : RedoRow.t)
    (db : DB) :
  other <> room -> NoDup (map RedoRow.id (redo_stack db)) ->
  In r0 (redo_stack db) -> redo_in_room other r0 = true ->
  room_view room (snd (delete_redo o (RedoRow.id r0) db))
  = room_view room db.
Proof.
  intros Hneq Hnd Hin Hroom.
  unfold room_view, room_log, room_redo, delete_redo.
  destruct (ok o); [|reflexivity]. cbn [snd operations redo_stack].
  f_equal. now apply (redo_delete_by_id room other).
Qed.

Lemma view_insert_redo (o : Outcome) (room other original : uuid)
    (removed : Row.t) (db : DB) :
  other <> room -> NoDup (map RedoRow.id (redo_stack db)) ->
  room_view room (snd (insert_redo o other original removed db))
  = room_view room db.
Proof.
  intros Hneq Hnd. unfold room_view, room_log, room_redo, insert_redo.
  destruct (ok o && negb (mem (gen_random_uuid o)
                            (map RedoRow.id (redo_stack db)))) eqn:C;
    [|reflexivity].
  cbn [snd operations redo_stack]. f_equal.
  apply andb_prop in C. destruct C as [_ C].
  apply negb_true_iff, mem_false in C.
  apply (redo_push_other_room room other); trivial.
  - rewrite map_app. cbn [map RedoRow.id]. apply NoDup_app; trivial.
    + repeat constructor. intros [].
    + intros a Ha [<-|[]]. contradiction.
  - unfold redo_in_room. cbn [RedoRow.room_id]. apply String.eqb_refl.
Qed.

Lemma insert_redo_keeps_log (o : Outcome) (room original : uuid)
    (removed : Row.t) (db : DB) :
  operations (snd (insert_redo o room original removed db)) = operations db.
Proof.
  unfold insert_redo.
  now destruct (ok o && negb (mem (gen_random_uuid o)
                                (map RedoRow.id (redo_stack db)))).
Qed.

Lemma insert_operation_keeps_redo (o : Outcome) (room : uuid) (u n c : string)
    (ty : OpType) (d : OpData.t) (db : DB) :
  redo_stack (snd (insert_operation o room u n c ty d db)) = redo_stack db.
Proof.
  unfold insert_operation.
  now destruct (ok o && negb (mem (gen_random_uuid o)
                                (map Row.id (operations db)))).
Qed.

Lemma step_other_room (db : DB) (self : SyncService.t) (c : Call)
    (room : uuid) :
  wf db -> roomId self <> room ->
  room_view room (step db (self, c)) = room_view room db.
Proof.
  intros Hwf Hneq.
  destruct c as [st o1 o2|o|o1 o2 o3|o1 o2 o3]; cbn [step].
  - rewrite commitStroke_unfold.
    transitivity (room_view room (snd (clearRedoStack self o1 db))).
    + pose proof (view_insert_operation o2 room (roomId self) (userId self)
                    (userName self) (SyncService.userColor self) Database.stroke
                    (strokeData st) (snd (clearRedoStack self o1 db)) Hneq)
        as H.
      now destruct (insert_operation o2 (roomId self) (userId self)
                      (userName self) (SyncService.userColor self) Database.stroke
                      (strokeData st) (snd (clearRedoStack self o1 db)))
        as [[row|] db'].
    + pose proof (view_delete_redo_in_room o1 room (roomId self) db Hneq)
        as H.
      unfold clearRedoStack, bind, ret.
      now destruct (delete_redo_in_room o1 (roomId self) db).
  - pose proof (view_delete_operations_in_room o room (roomId self) db Hneq)
      as H.
    unfold commitClear, bind, ret.
    now destruct (delete_operations_in_room o (roomId self) db).
  - unfold undoLast, bind, ret.
    destruct (select_last_operation o1 (roomId self) db) as [[lastOp|] db0]
      eqn:E.
    + apply select_last_operation_data in E. destruct E as [-> [_ E]].
      apply max_by_In in E. unfold room_log in E. apply filter_In in E.
      destruct E as [Hin Hroom].
      pose proof (view_insert_redo o2 room (roomId self) (Row.id lastOp)
                    lastOp db Hneq (wf_redo_id_distinct db Hwf)) as H1.
      pose proof (insert_redo_keeps_log o2 (roomId self) (Row.id lastOp)
                    lastOp db) as Hlog.
      destruct (insert_redo o2 (roomId self) (Row.id lastOp) lastOp db)
        as [x db1]. cbn [snd] in H1, Hlog.
      assert (H2 : room_view room (snd (delete_operation o3 (Row.id lastOp)
                                          db1))
                   = room_view room db1).
      { apply (view_delete_operation o3 room (roomId self)); trivial;
          rewrite Hlog; trivial. apply wf_id_distinct, Hwf. }
      destruct (delete_operation o3 (Row.id lastOp) db1) as [[u|] db2];
        cbn [snd] in *; congruence.
    + apply select_last_operation_error in E. now subst db0.
  - unfold redoLast, bind, ret.
    destruct (select_last_redo o1 (roomId self) db) as [[item|] db0] eqn:E.
    + apply select_last_redo_data in E. destruct E as [-> [_ E]].
      apply max_by_In in E. unfold room_redo in E. apply filter_In in E.
      destruct E as [Hin Hroom].
      pose proof (view_insert_operation o2 room (roomId self)
                    (Row.user_id (RedoRow.operation_data item))
                    (Row.user_name (RedoRow.operation_data item))
                    (Row.user_color (RedoRow.operation_data item))
                    (Row.type (RedoRow.operation_data item))
                    (Row.data (RedoRow.operation_data item)) db Hneq) as H1.
      pose proof (insert_operation_keeps_redo o2 (roomId self)
                    (Row.user_id (RedoRow.operation_data item))
                    (Row.user_name (RedoRow.operation_data item))
                    (Row.user_color (RedoRow.operation_data item))
                    (Row.type (RedoRow.operation_data item))
                    (Row.data (RedoRow.operation_data item)) db) as Hredo.
      destruct (insert_operation o2 (roomId self)
                  (Row.user_id (RedoRow.operation_data item))
                  (Row.user_name (RedoRow.operation_data item))
                  (Row.user_color (RedoRow.operation_data item))
                  (Row.type (RedoRow.operation_data item))
                  (Row.data (RedoRow.operation_data item)) db)
        as [[newOp|] db1]; cbn [snd] in *; [|exact H1].
      assert (H2 : room_view room (snd (delete_redo o3 (RedoRow.id item) db1))
                   = room_view room db1).
      { apply (view_delete_redo o3 room (roomId self)); trivial;
          rewrite Hredo; trivial. apply wf_redo_id_distinct, Hwf. }
      destruct (delete_redo o3 (RedoRow.id item) db1) as [u db2];
        cbn [snd] in *; congruence.
    + apply select_last_redo_error in E. now subst db0.
Qed.

(** X12: rooms are isolated: whatever the clients of the other rooms call,
    and whether their requests fail or not, the log and the redo stack of
    a room stay as they are. *)
Theorem rooms_are_isolated
    (calls : list (SyncService.t * Call)) (db : DB) (room : uuid) :
  wf db ->
  (forall c, In c calls -> roomId (fst c) <> room) ->
  room_log room (run calls db) = room_log room db
  /\ room_redo room (run calls db) = room_redo room db.
Proof.
  intros Hwf Hother.
  assert (H : room_view room (run calls db) = room_view room db).
  { revert db Hwf. induction calls as [|[self c] calls IH]; intros db Hwf;
      [reflexivity|].
    change (run ((self, c) :: calls) db)
      with (run calls (step db (self, c))).
    rewrite IH.
    - apply step_other_room; [exact Hwf|].
      apply (Hother (self, c)). now left.
    - intros c' Hc'. apply Hother. now right.
    - now apply wf_step. }
  unfold room_view in H. now injection H.
Qed.

Lemma rooms_are_isolated_witness :
  room_log "00000000-0000-0000-0000-000000000002"
    (run [(alice, UndoLast (fine EmptyString 20) (fine "r1" 21)
                    (fine EmptyString 22));
          (alice, CommitClear (fine EmptyString 23))] db_three_strokes)
  = room_log "00000000-0000-0000-0000-000000000002" db_three_strokes.
Proof.
  apply (rooms_are_isolated
           [(alice, UndoLast (fine EmptyString 20) (fine "r1" 21)
                      (fine EmptyString 22));
            (alice, CommitClear (fine EmptyString 23))]
           db_three_strokes "00000000-0000-0000-0000-000000000002"
           wf_db_three_strokes).
  intros c [<-|[<-|[]]]; discriminate.
Defined.

(** ** The author of a stroke *)

Lemma commitStroke_goes_through (self : SyncService.t)
    (st : StrokeOperation.t) (o1 o2 : Outcome) (db : DB) :
  ok o2 = true ->
  ~ In (gen_random_uuid o2) (map Row.id (operations db)) ->
  let row := Row.mk (gen_random_uuid o2) (roomId self) (userId self)
               (userName self) (SyncService.userColor self)
               (operations_sequence_seq db) Database.stroke (strokeData st)
               (now o2) in
  commitStroke self st o1 o2 db
  = (sequence_or_null row,
     mkDB (operations db ++ [row])
          (redo_stack (snd (clearRedoStack self o1 db)))
          (operations_sequence_seq db + 1)).
Proof.
  intros Hok Hfresh row. rewrite commitStroke_unfold.
  destruct (clearRedoStack_keeps_log self o1 db) as [Hlog Hcounter].
  rewrite insert_operation_succeeds; [|exact Hok|now rewrite Hlog].
  now rewrite Hlog, Hcounter.
Qed.

Lemma onStrokeComplete_run (self : SyncService.t) (st : StrokeOperation.t)
    (o1 o2 : Outcome) (app : App) (db : DB) :
  onStrokeComplete self st o1 o2 app db
  = (mkApp (canvas app) false, snd (commitStroke self st o1 o2 db)).
Proof.
  unfold onStrokeComplete, bind, ret.
  now destruct (commitStroke self st o1 o2 db).
Qed.

(** X13: the stroke that a client drew stays on its own canvas when the
    client undoes it: the list of the client holds the stroke under the
    identifier that the client gave it, [undoLast] returns the identifier
    that the database gave the row, and [removeOperation] finds nothing
    under it, nor does the DELETE event that follows; the row itself is
    gone from the log. *)
Theorem own_stroke_survives_own_undo
    (self : SyncService.t) (st : StrokeOperation.t) (prev : State)
    (o1 o2 o3 o4 o5 : Outcome) (db : DB) :
  wf db ->
  ok o2 = true ->
  ~ In (gen_random_uuid o2) (map Row.id (operations db)) ->
  undo_goes_through self o3 o4 o5 (snd (commitStroke self st o1 o2 db)) ->
  gen_random_uuid o2 <> EmptyString ->
  StrokeOperation.id st <> gen_random_uuid o2 ->
  let app0 := mkApp (prev ++ [Stroke st]) false in
  let r1 := onStrokeComplete self st o1 o2 app0 db in
  let r2 := handleUndo self o3 o4 o5 (fst r1) (snd r1) in
  operations (snd r2) = operations db
  /\ canvas (fst r2)
     = removeOperation (gen_random_uuid o2) (prev ++ [Stroke st])
  /\ In (Stroke st) (canvas (fst r2))
  /\ In (Stroke st) (onDelete (gen_random_uuid o2) (canvas (fst r2)))
  /\ canRedo (fst r2) = true.
Proof.
  intros Hwf Hok Hfresh Hundo Hne Hid app0 r1 r2.
  unfold r2, r1. rewrite onStrokeComplete_run. cbn [fst snd].
  pose proof (wf_commitStroke self st o1 o2 db Hwf) as Hwf1.
  pose proof (commitStroke_goes_through self st o1 o2 db Hok Hfresh) as Ec.
  cbv zeta in Ec.
  set (row := Row.mk (gen_random_uuid o2) (roomId self) (userId self)
                (userName self) (SyncService.userColor self)
                (operations_sequence_seq db) Database.stroke (strokeData st)
                (now o2)) in *.
  set (db1 := snd (commitStroke self st o1 o2 db)) in *.
  assert (Hops1 : operations db1 = operations db ++ [row])
    by (unfold db1; now rewrite Ec).
  assert (Hlast : is_last (roomId self) db1 row).
  { unfold is_last, room_log. rewrite Hops1. split.
    - apply filter_In. split; [apply in_or_app; right; now left|].
      unfold in_room, row. cbn. apply String.eqb_refl.
    - intros r Hr. apply filter_In in Hr. destruct Hr as [Hr _].
      apply in_app_or in Hr. destruct Hr as [Hr|[<-|[]]]; [|lia].
      pose proof (wf_sequence db Hwf) as HF. rewrite Forall_forall in HF.
      specialize (HF r Hr). unfold row. cbn. lia. }
  pose proof (undoLast_goes_through self o3 o4 o5 db1 row Hwf1 Hlast Hundo)
    as Eu.
  unfold handleUndo, bind, ret. rewrite Eu. cbn [Row.id row].
  apply String.eqb_neq in Hne. rewrite Hne. cbn [fst snd operations canvas
                                                   canRedo app0].
  split.
  { rewrite Hops1, filter_app. cbn [filter Row.id row].
    rewrite String.eqb_refl. cbn [negb]. rewrite app_nil_r.
    apply filter_all. intros r Hr. apply negb_true_iff, String.eqb_neq.
    intros E. apply Hfresh. rewrite <- E. now apply in_map. }
  assert (Hstays : In (Stroke st)
                     (removeOperation (gen_random_uuid o2)
                        (prev ++ [Stroke st]))).
  { unfold removeOperation. apply filter_In. split.
    - apply in_or_app. right. now left.
    - apply negb_true_iff, String.eqb_neq. exact Hid. }
  split; [reflexivity|]. split; [exact Hstays|]. split; [|reflexivity].
  unfold onDelete. rewrite Hne. unfold removeOperation at 1.
  apply filter_In. split; [exact Hstays|].
  apply negb_true_iff, String.eqb_neq. exact Hid.
Qed.

Lemma undo_own_sample :
  undo_goes_through alice (fine EmptyString 32) (fine "r1" 33)
    (fine EmptyString 34)
    (snd (commitStroke alice sample (fine EmptyString 30) (fine "op-4" 31)
            db_three_strokes)).
Proof.
  repeat split; try reflexivity.
  - vm_compute. tauto.
  - intros r Hr. vm_compute in Hr. destruct Hr.
Qed.

Lemma own_stroke_survives_own_undo_witness :
  In (Stroke sample)
    (canvas
       (fst (handleUndo alice (fine EmptyString 32) (fine "r1" 33)
               (fine EmptyString 34)
               (fst (onStrokeComplete alice sample (fine EmptyString 30)
                       (fine "op-4" 31) (mkApp ([] ++ [Stroke sample]) false)
                       db_three_strokes))
               (snd (onStrokeComplete alice sample (fine EmptyString 30)
                       (fine "op-4" 31) (mkApp ([] ++ [Stroke sample]) false)
                       db_three_strokes))))).
Proof.
  apply (own_stroke_survives_own_undo alice sample []
           (fine EmptyString 30) (fine "op-4" 31) (fine EmptyString 32)
           (fine "r1" 33) (fine EmptyString 34) db_three_strokes
           wf_db_three_strokes eq_refl).
  - vm_compute. intros [H|[H|[H|[]]]]; discriminate H.
  - exact undo_own_sample.
  - discriminate.
  - discriminate.
Defined.

(** X14: a committed stroke reads back from its row with the colour, the
    width, the tool and the points it was committed with, when the colour
    is not empty and the width is not zero; the identifier is the one of
    the row, the user is the client that committed, the start time is the
    time of the insert and the end time is gone. *)
Theorem committed_stroke_reads_back
    (self : SyncService.t) (st : StrokeOperation.t) (o1 o2 : Outcome)
    (db : DB) :
  wf db ->
  ok o2 = true ->
  ~ In (gen_random_uuid o2) (map Row.id (operations db)) ->
  StrokeOperation.color st <> EmptyString ->
  ~ (StrokeOperation.width st == 0)%Q ->
  exists row,
    In row (room_log (roomId self) (snd (commitStroke self st o1 o2 db)))
    /\ fst (commitStroke self st o1 o2 db) = Some (Row.sequence row)
    /\ rowToOperation row
       = Stroke (StrokeOperation.mk (gen_random_uuid o2) (userId self)
                   (StrokeOperation.color st) (StrokeOperation.width st)
                   (StrokeOperation.tool st) (StrokeOperation.points st)
                   (now o2) None (Row.sequence row)).
Proof.
  intros Hwf Hok Hfresh Hcolor Hwidth.
  pose proof (commitStroke_goes_through self st o1 o2 db Hok Hfresh) as Ec.
  cbv zeta in Ec.
  set (row := Row.mk (gen_random_uuid o2) (roomId self) (userId self)
                (userName self) (SyncService.userColor self)
                (operations_sequence_seq db) Database.stroke (strokeData st)
                (now o2)) in *.
  exists row. rewrite Ec. cbn [fst snd]. split; [|split].
  - unfold room_log. cbn [operations]. apply filter_In. split.
    + apply in_or_app. right. now left.
    + unfold in_room, row. cbn. apply String.eqb_refl.
  - unfold sequence_or_null, row. cbn [Row.sequence].
    pose proof (wf_counter db Hwf).
    destruct (operations_sequence_seq db =? 0) eqn:Ez; [|reflexivity].
    apply Z.eqb_eq in Ez. lia.
  - unfold rowToOperation, row, strokeData, or_string, or_number. cbn.
    apply String.eqb_neq in Hcolor. rewrite Hcolor.
    destruct (Qeq_bool (StrokeOperation.width st) 0) eqn:Ew;
      [|reflexivity].
    apply Qeq_bool_iff in Ew. contradiction.
Qed.

Lemma committed_stroke_reads_back_witness :
  exists row,
    In row (room_log (roomId alice)
              (snd (commitStroke alice sample (fine EmptyString 30)
                      (fine "op-4" 31) db_three_strokes)))
    /\ same_payload (rowToOperation row) (Stroke sample).
Proof.
  destruct (committed_stroke_reads_back alice sample (fine EmptyString 30)
              (fine "op-4" 31) db_three_strokes wf_db_three_strokes eq_refl)
    as [row [Hin [_ E]]].
  - vm_compute. intros [H|[H|[H|[]]]]; discriminate H.
  - discriminate.
  - discriminate.
  - exists row. split; [exact Hin|]. rewrite E. repeat split.
Defined.

(** A stroke of width 0 reads back with width 4. *)
Example zero_width_reads_back_as_4 :
  rowToOperation
    (Row.mk "op-9" default_room "user-a" "Artist 1" "blue" 9 Database.stroke
       (strokeData (StrokeOperation.mk "s" "user-a" "#fff" 0 brush [] 0 None 0))
       99)
  = Stroke (StrokeOperation.mk "op-9" "user-a" "#fff" 4 brush [] 99 None 9).
Proof. reflexivity. Qed.

(** ** The invariant and the redo stack through the service *)

Lemma wf_run_witness :
  wf (run [(alice, UndoLast (fine EmptyString 20) (fine "r1" 21)
                     (fine EmptyString 22));
           (bob, RedoLast (fine EmptyString 23) (fine "op-4" 24) broken);
           (bob, CommitClear (fine EmptyString 25))] empty_db).
Proof.
  apply (wf_run
           [(alice, UndoLast (fine EmptyString 20) (fine "r1" 21)
                      (fine EmptyString 22));
            (bob, RedoLast (fine EmptyString 23) (fine "op-4" 24) broken);
            (bob, CommitClear (fine EmptyString 25))] empty_db).
  exact wf_empty_db.
Defined.

Lemma commitStroke_then_redoLast_witness :
  fst (redoLast alice (fine EmptyString 33) (fine "op-5" 34)
         (fine EmptyString 35)
         (snd (commitStroke alice sample (fine EmptyString 30)
                 (fine "op-4" 31)
                 (snd (undoLast alice (fine EmptyString 20) (fine "r1" 21)
                         (fine EmptyString 22) db_three_strokes)))))
  = None.
Proof.
  apply (commitStroke_then_redoLast alice sample (fine EmptyString 30)
           (fine "op-4" 31) (fine EmptyString 33) (fine "op-5" 34)
           (fine EmptyString 35)).
  reflexivity.
Defined.

End CollaborationProps.

(* ================================================================== *)
(** * More on the room identifiers *)
(* ================================================================== *)

Module RoomIdsProps.
Import RoomSelector RoomIds.
Local Open Scope string_scope.

Lemma length_append (s1 s2 : string) :
  String.length (s1 ++ s2) = (String.length s1 + String.length s2)%nat.
Proof. induction s1 as [|c s1 IH]; simpl; [reflexivity | now rewrite IH]. Qed.

Lemma append_assoc (s1 s2 s3 : string) : (s1 ++ s2) ++ s3 = s1 ++ s2 ++ s3.
Proof. induction s1 as [|c s1 IH]; simpl; [reflexivity | now rewrite IH]. Qed.

Lemma length_repeat_char (c : ascii) (n : nat) :
  String.length (repeat_char c n) = n.
Proof. induction n as [|n IH]; simpl; [reflexivity | now rewrite IH]. Qed.

Lemma repeat_char_add (c : ascii) (n m : nat) :
  repeat_char c n ++ repeat_char c m = repeat_char c (n + m).
Proof. induction n as [|n IH]; simpl; [reflexivity | now rewrite IH]. Qed.

Lemma length_substring (s : string) (n m : nat) :
  (n + m <= String.length s)%nat -> String.length (substring n m s) = m.
Proof.
  revert n m. induction s as [|c s IH]; intros n m H; simpl in H.
  - assert (n = 0%nat) by lia. assert (m = 0%nat) by lia. now subst.
  - destruct n as [|n]; simpl.
    + destruct m as [|m]; simpl; [reflexivity|].
      f_equal. apply IH. simpl. lia.
    + apply IH. lia.
Qed.

Lemma length_padEnd (s : string) :
  (32 <= String.length (padEnd 32 "0" s))%nat.
Proof.
  unfold padEnd. rewrite length_append, length_repeat_char. lia.
Qed.

(** X15: whatever the input, [roomIdToUUID] gives 36 characters in the
    layout of a UUID: groups of 8, 4, 4, 4 and 12 characters with a hyphen
    between them. *)
Theorem roomIdToUUID_layout (s : string) :
  exists a b c d e,
    roomIdToUUID s = a ++ "-" ++ b ++ "-" ++ c ++ "-" ++ d ++ "-" ++ e
    /\ String.length a = 8%nat /\ String.length b = 4%nat
    /\ String.length c = 4%nat /\ String.length d = 4%nat
    /\ String.length e = 12%nat
    /\ String.length (roomIdToUUID s) = 36%nat.
Proof.
  pose proof (length_padEnd s) as Hp.
  set (padded := padEnd 32 "0" s) in *.
  assert (Ha : String.length (slice 0 8 padded) = 8%nat)
    by (apply length_substring; simpl; lia).
  assert (Hb : String.length (slice 8 12 padded) = 4%nat)
    by (apply length_substring; simpl; lia).
  assert (Hc : String.length (slice 12 16 padded) = 4%nat)
    by (apply length_substring; simpl; lia).
  assert (Hd : String.length (slice 16 20 padded) = 4%nat)
    by (apply length_substring; simpl; lia).
  assert (He : String.length (slice 20 32 padded) = 12%nat)
    by (apply length_substring; simpl; lia).
  exists (slice 0 8 padded), (slice 8 12 padded), (slice 12 16 padded),
    (slice 16 20 padded), (slice 20 32 padded).
  repeat (split; [assumption || reflexivity|]).
  unfold roomIdToUUID. fold padded.
  rewrite !length_append, Ha, Hb, Hc, Hd, He. reflexivity.
Qed.

Lemma padEnd_zeros (s : string) (k : nat) :
  (String.length s + k <= 32)%nat ->
  padEnd 32 "0" (s ++ zeros k) = padEnd 32 "0" s.
Proof.
  intros H. unfold padEnd, zeros.
  rewrite length_append, length_repeat_char, append_assoc, repeat_char_add.
  do 2 f_equal. lia.
Qed.

(** X16: zeros at the end of an identifier of at most 32 characters do not
    count: the identifier with the zeros names the same room as the one
    without. *)
Theorem roomIdToUUID_trailing_zeros (s : string) (k : nat) :
  (String.length s + k <= 32)%nat ->
  roomIdToUUID (s ++ zeros k) = roomIdToUUID s.
Proof.
  intros H. unfold roomIdToUUID. now rewrite padEnd_zeros.
Qed.

Lemma roomIdToUUID_trailing_zeros_witness :
  roomIdToUUID ("abcd" ++ zeros 4) = roomIdToUUID "abcd".
Proof.
  apply (roomIdToUUID_trailing_zeros "abcd" 4). simpl. lia.
Defined.

(** The characters of [chars]: one character each, none a hyphen. *)
Lemma charAt_chars (k : nat) :
  (k < 36)%nat ->
  exists c, charAt k chars = String c EmptyString
            /\ Ascii.eqb c "-" = false.
Proof.
  intros H. unfold charAt, chars.
  do 36 (destruct k as [|k];
         [eexists; split; reflexivity|]).
  lia.
Qed.

Lemma random_index_lt (r : Q) :
  (0 <= r)%Q -> (r < 1)%Q -> (random_index r < 36)%nat.
Proof.
  intros H0 H1. unfold random_index.
  change (String.length chars) with 36%nat.
  set (x := (r * inject_Z (Z.of_nat 36))%Q).
  assert (Hx0 : (0 <= x)%Q).
  { unfold x. apply Qmult_le_0_compat; [exact H0 | discriminate]. }
  assert (Hx1 : (x < 36)%Q).
  { unfold x. change (inject_Z (Z.of_nat 36)) with (36 # 1)%Q.
    setoid_replace (36 : Q) with (1 * (36 # 1))%Q by ring.
    apply Qmult_lt_compat_r; [reflexivity | exact H1]. }
  assert (Hf0 : (0 <= Qround.Qfloor x)%Z).
  { change 0%Z with (Qround.Qfloor 0). now apply Qround.Qfloor_resp_le. }
  assert (Hf1 : (Qround.Qfloor x < 36)%Z).
  { rewrite Zlt_Qlt. eapply Qle_lt_trans; [apply Qround.Qfloor_le|].
    exact Hx1. }
  lia.
Qed.

Lemma substring_prefix (s t : string) :
  substring 0 (String.length s) (s ++ t) = s.
Proof. induction s as [|c s IH]; simpl; [now destruct t | now rewrite IH]. Qed.

Lemma remove_hyphens_append (s t : string) :
  remove_hyphens (s ++ t) = remove_hyphens s ++ remove_hyphens t.
Proof.
  induction s as [|c s IH]; simpl; [reflexivity|].
  destruct (Ascii.eqb c "-"); simpl; now rewrite IH.
Qed.

Lemma remove_hyphens_free (s : string) :
  hyphen_free s = true -> remove_hyphens s = s.
Proof.
  induction s as [|c s IH]; simpl; [reflexivity|].
  intros H. apply andb_prop in H. destruct H as [Hc Hs].
  apply negb_true_iff in Hc. rewrite Hc. now rewrite IH.
Qed.

(** The round trip on a hyphen-free identifier of 8 characters, from the
    shape of the two functions. *)
Lemma roundtrip_hyphen_free_8 (s : string) :
  String.length s = 8%nat -> hyphen_free s = true ->
  uuidToRoomId (roomIdToUUID s) = s.
Proof.
  intros Hlen Hfree. unfold uuidToRoomId, roomIdToUUID.
  set (padded := padEnd 32 "0" s).
  assert (Hhead : slice 0 8 padded = s).
  { unfold padded, padEnd, slice. cbn [Nat.sub]. rewrite <- Hlen at 1.
    apply substring_prefix. }
  rewrite Hhead, remove_hyphens_append, (remove_hyphens_free s Hfree).
  unfold slice. cbn [Nat.sub]. rewrite <- Hlen at 1.
  apply substring_prefix.
Qed.

(** X17: whatever [Math.random()] returns, the identifier that
    [generateRoomId] builds has 8 characters and no hyphen, and the
    address of the room gives it back: [uuidToRoomId] undoes
    [roomIdToUUID] on it. *)
Theorem generateRoomId_roundtrip (random : nat -> Q) :
  (forall i, (0 <= random i)%Q /\ (random i < 1)%Q) ->
  let roomId := generateRoomId random in
  String.length roomId = 8%nat
  /\ hyphen_free roomId = true
  /\ uuidToRoomId (roomIdToUUID roomId) = roomId.
Proof.
  intros Hr roomId. unfold roomId, generateRoomId. cbn [seq fold_left].
  assert (Hc : forall i, exists c,
               charAt (random_index (random i)) chars = String c EmptyString
               /\ Ascii.eqb c "-" = false).
  { intros i. apply charAt_chars, random_index_lt; apply Hr. }
  destruct (Hc 0%nat) as [c0 [E0 H0]]. destruct (Hc 1%nat) as [c1 [E1 H1]].
  destruct (Hc 2%nat) as [c2 [E2 H2]]. destruct (Hc 3%nat) as [c3 [E3 H3]].
  destruct (Hc 4%nat) as [c4 [E4 H4]]. destruct (Hc 5%nat) as [c5 [E5 H5]].
  destruct (Hc 6%nat) as [c6 [E6 H6]]. destruct (Hc 7%nat) as [c7 [E7 H7]].
  rewrite E0, E1, E2, E3, E4, E5, E6, E7. cbn [append].
  assert (Hfree : hyphen_free
                    (String c0 (String c1 (String c2 (String c3 (String c4
                       (String c5 (String c6 (String c7 EmptyString))))))))
                  = true).
  { cbn [hyphen_free]. now rewrite H0, H1, H2, H3, H4, H5, H6, H7. }
  split; [reflexivity|]. split; [exact Hfree|].
  now apply roundtrip_hyphen_free_8.
Qed.

Lemma generateRoomId_roundtrip_witness :
  uuidToRoomId (roomIdToUUID (generateRoomId (fun i => inject_Z 0 + (1 # 2))))
  = generateRoomId (fun i => inject_Z 0 + (1 # 2)).
Proof.
  apply (generateRoomId_roundtrip (fun i => inject_Z 0 + (1 # 2))).
  intros i. split; vm_compute; [discriminate | reflexivity].
Defined.

End RoomIdsProps.

(* ================================================================== *)
(** * Properties of the smoothing *)
(* ================================================================== *)

Module SmoothingProps.
Import Smoothing.

Lemma last_is_nth {A : Type} (l : list A) (d : A) :
  last l d = nth (List.length l - 1) l d.
Proof.
  induction l as [|a l IH]; [reflexivity|].
  destruct l as [|b l]; [reflexivity|].
  change (last (a :: b :: l) d) with (last (b :: l) d). rewrite IH.
  replace (List.length (a :: b :: l) - 1)%nat
    with (S (List.length (b :: l) - 1)) by (simpl; lia).
  reflexivity.
Qed.

Lemma length_segment_points (points : list Point.t) (segments i : nat) :
  List.length (segment_points points segments i) = segments.
Proof. unfold segment_points. now rewrite length_map, length_seq. Qed.

(** In a concatenation of chunks of one size, the element [j] of chunk
    [i]. *)
Lemma nth_flat_map_uniform {A B : Type} (f : A -> list B) (c : nat)
    (l : list A) (i j : nat) (da : A) (db : B) :
  (forall a, List.length (f a) = c) ->
  (i < List.length l)%nat -> (j < c)%nat ->
  nth (i * c + j) (flat_map f l) db = nth j (f (nth i l da)) db.
Proof.
  intros Hc. revert i. induction l as [|a l IH]; intros i Hi Hj;
    [simpl in Hi; lia|].
  cbn [flat_map]. destruct i as [|i].
  - cbn [Nat.mul Nat.add nth]. apply app_nth1. now rewrite Hc.
  - cbn [nth]. rewrite app_nth2 by (rewrite Hc; nia).
    rewrite Hc. replace (S i * c + j - c)%nat with (i * c + j)%nat by nia.
    apply IH; [simpl in Hi; lia | exact Hj].
Qed.

(** X18: [smoothPoints] returns fewer than 4 points as they are; from 4
    points on, it returns [segments] points for each of the [n - 1]
    segments and then the last point, which ends the result. *)
Theorem smoothPoints_length (points : list Point.t) (segments : nat) :
  ((List.length points < 4)%nat -> smoothPoints points segments = points)
  /\ ((4 <= List.length points)%nat ->
      List.length (smoothPoints points segments)
      = ((List.length points - 1) * segments + 1)%nat
      /\ last (smoothPoints points segments) origin = last points origin).
Proof.
  unfold smoothPoints. split; intros H.
  - apply Nat.ltb_lt in H. now rewrite H.
  - assert (E : (List.length points <? 4)%nat = false)
      by (apply Nat.ltb_ge; exact H).
    rewrite E. split.
    + rewrite length_app.
      rewrite (flat_map_constant_length (c := segments)).
      * rewrite length_seq. reflexivity.
      * intros i _. apply length_segment_points.
    + rewrite last_last. symmetry. apply last_is_nth.
Qed.

Lemma spline1_at_0 (a0 a1 a2 a3 t : Q) :
  t == 0 -> spline1 a0 a1 a2 a3 t == a1.
Proof.
  intros H. unfold spline1. rewrite H. ring.
Qed.

(** X19: the smoothed line goes through the points of the stroke: with at
    least one point per segment, the point of the result at position
    [i * segments] is at the place of [points[i]]. *)
Theorem smoothPoints_through_points
    (points : list Point.t) (segments i : nat) :
  (4 <= List.length points)%nat ->
  (0 < segments)%nat ->
  (i < List.length points - 1)%nat ->
  same_place (nth (i * segments) (smoothPoints points segments) origin)
             (nth i points origin).
Proof.
  intros Hn Hs Hi. unfold smoothPoints.
  assert (E : (List.length points <? 4)%nat = false)
    by (apply Nat.ltb_ge; exact Hn).
  rewrite E. rewrite app_nth1.
  2:{ rewrite (flat_map_constant_length (c := segments)).
      - rewrite length_seq. nia.
      - intros k _. apply length_segment_points. }
  replace (i * segments)%nat with (i * segments + 0)%nat by lia.
  rewrite (nth_flat_map_uniform (segment_points points segments) segments
             (seq 0 (List.length points - 1)) i 0 0%nat origin).
  - rewrite seq_nth by exact Hi. cbn [Nat.add].
    unfold segment_points. destruct segments as [|k]; [lia|].
    cbn [seq map nth]. unfold same_place, catmullRomSpline.
    cbn [Point.x Point.y Point.timestamp].
    repeat split; apply spline1_at_0; reflexivity.
  - intros k. apply length_segment_points.
  - now rewrite length_seq.
  - exact Hs.
Qed.

Lemma smoothPoints_through_points_witness :
  same_place
    (nth (2 * 4)
       (smoothPoints [Point.mk 0 0 None 0; Point.mk 1 3 None 1;
                      Point.mk 4 4 None 2; Point.mk 6 1 None 3] 4) origin)
    (nth 2 [Point.mk 0 0 None 0; Point.mk 1 3 None 1;
            Point.mk 4 4 None 2; Point.mk 6 1 None 3] origin).
Proof.
  apply (smoothPoints_through_points
           [Point.mk 0 0 None 0; Point.mk 1 3 None 1;
            Point.mk 4 4 None 2; Point.mk 6 1 None 3] 4 2);
    simpl; lia.
Defined.

End SmoothingProps.

(* ================================================================== *)
(** * Properties of the drawing session *)
(* ================================================================== *)

Module DrawSessionProps.
Import CanvasEngine CanvasEngineProps UseCanvas DrawSession.

Lemma deref_new (h : list Point.t) (p : Point.t) (rest : list Point.t) :
  deref (h ++ p :: rest) (List.length h) = p.
Proof. unfold deref. apply nth_middle. Qed.

Lemma continueDrawing_running (ts : ToolSettings) (point : Point.t) (s : t)
    (cur : StrokeOperation.t) :
  currentStroke s = Some cur ->
  exists cur',
    currentStroke (continueDrawing ts point s) = Some cur'
    /\ with_points cur' [] None = with_points cur [] None
    /\ heap (continueDrawing ts point s) = heap s ++ [point]
    /\ pointBuffer (continueDrawing ts point s)
       = pointBuffer s ++ [List.length (heap s)]
    /\ operations (continueDrawing ts point s) = operations s
    /\ completed (continueDrawing ts point s) = completed s.
Proof.
  intros E. unfold continueDrawing. rewrite E. cbn.
  eexists. split; [reflexivity|]. repeat split.
Qed.

(** While a stroke is in progress every move creates one point and puts
    it at the end of the buffer. *)
Lemma moveAll_running (moves : list (ToolSettings * Point.t)) (s : t)
    (cur : StrokeOperation.t) :
  currentStroke s = Some cur ->
  exists cur',
    currentStroke (moveAll moves s) = Some cur'
    /\ with_points cur' [] None = with_points cur [] None
    /\ heap (moveAll moves s) = heap s ++ map snd moves
    /\ pointBuffer (moveAll moves s)
       = pointBuffer s ++ seq (List.length (heap s)) (List.length moves)
    /\ operations (moveAll moves s) = operations s
    /\ completed (moveAll moves s) = completed s.
Proof.
  revert s cur. induction moves as [|[ts p] moves IH]; intros s cur E.
  - exists cur. cbn. rewrite !app_nil_r. repeat split. exact E.
  - destruct (continueDrawing_running ts p s cur E)
      as (cur1 & E1 & Hh1 & Hheap1 & Hbuf1 & Hops1 & Hdone1).
    destruct (IH (continueDrawing ts p s) cur1 E1)
      as (cur2 & E2 & Hh2 & Hheap2 & Hbuf2 & Hops2 & Hdone2).
    exists cur2. change (moveAll ((ts, p) :: moves) s)
      with (moveAll moves (continueDrawing ts p s)).
    split; [exact E2|]. split; [congruence|]. split; [|split; [|split]].
    + rewrite Hheap2, Hheap1, <- app_assoc. reflexivity.
    + rewrite Hbuf2, Hbuf1, Hheap1, <- app_assoc, length_app.
      cbn [List.length app seq map]. now rewrite Nat.add_1_r.
    + congruence.
    + congruence.
Qed.

Lemma last_map {A B : Type} (f : A -> B) (l : list A) (da : A) (db : B) :
  l <> [] -> last (map f l) db = f (last l da).
Proof.
  induction l as [|a l IH]; intros H; [contradiction|].
  destruct l as [|b l]; [reflexivity|].
  change (last (map f (a :: b :: l)) db) with (last (map f (b :: l)) db).
  change (last (a :: b :: l) da) with (last (b :: l) da).
  apply IH. discriminate.
Qed.

Lemma last_seq (n k : nat) : last (n :: seq (S n) k) O = (n + k)%nat.
Proof.
  revert n. induction k as [|k IH]; intros n; [cbn; lia|].
  change (last (n :: seq (S n) (S k)) O) with (last (S n :: seq (S (S n)) k) O).
  rewrite IH. lia.
Qed.

Lemma last_default {A : Type} (m : list A) (z x y : A) :
  last (z :: m) x = last (z :: m) y.
Proof.
  revert z. induction m as [|w m IH]; intros z; [reflexivity|].
  change (last (z :: w :: m) x) with (last (w :: m) x).
  change (last (z :: w :: m) y) with (last (w :: m) y). apply IH.
Qed.

Lemma nth_length_last {A : Type} (a : A) (l : list A) (d : A) :
  nth (List.length l) (a :: l) d = last (a :: l) a.
Proof.
  revert a. induction l as [|b l IH]; intros a; [reflexivity|].
  change (nth (List.length (b :: l)) (a :: b :: l) d)
    with (nth (List.length l) (b :: l) d).
  change (last (a :: b :: l) a) with (last (b :: l) a).
  rewrite IH. apply last_default.
Qed.

(** X20: a stroke that was started is always committed when the pointer
    is released, whatever the moves in between: the branch of [endDrawing]
    that drops a stroke without points is never taken.  The stroke goes to
    the end of the operation list and to [onStrokeComplete], with the
    identifier and the settings of the pointer-down, sequence 0, the
    pointer-down point first and the last pointer position last. *)
Theorem endDrawing_always_commits
    (userId : string) (ts0 : ToolSettings) (p0 : Point.t) (strokeId : string)
    (t0 : Z) (moves : list (ToolSettings * Point.t)) (ts1 : ToolSettings)
    (t1 : Z) (s : t) :
  let s3 := endDrawing ts1 t1
              (moveAll moves (startDrawing userId ts0 p0 strokeId t0 s)) in
  exists finalStroke,
    operations s3 = operations s ++ [Stroke finalStroke]
    /\ completed s3 = completed s ++ [finalStroke]
    /\ currentStroke s3 = None /\ pointBuffer s3 = [] /\ isDrawing s3 = false
    /\ with_points finalStroke [] None
       = StrokeOperation.mk strokeId userId (color ts0) (width ts0) (tool ts0)
           [] t0 None 0
    /\ StrokeOperation.endTime finalStroke = Some t1
    /\ StrokeOperation.points finalStroke <> []
    /\ hd_error (StrokeOperation.points finalStroke) = Some p0
    /\ last (StrokeOperation.points finalStroke) p0
       = last (p0 :: map snd moves) p0.
Proof.
  intros s3.
  set (s1 := startDrawing userId ts0 p0 strokeId t0 s).
  destruct (moveAll_running moves s1 _ eq_refl)
    as (cur & Ecur & Hhead & Hheap & Hbuf & Hops & Hdone).
  cbn [s1 startDrawing heap pointBuffer operations completed] in *.
  rewrite length_app in Hbuf. cbn [List.length] in Hbuf.
  rewrite Nat.add_1_r in Hbuf. cbn [app] in Hbuf.
  rewrite <- app_assoc in Hheap. cbn [app] in Hheap.
  set (s2 := moveAll moves s1) in *.
  set (n0 := List.length (heap s)) in *.
  set (far := fun a b =>
                Number.ge (distance (deref (heap s2) a) (deref (heap s2) b))
                  (minDist (width ts1))).
  destruct (filterNearbyPoints_with_shape far n0
              (seq (S n0) (List.length moves))) as [kept [_ Eshape]].
  assert (Efilter : filterNearbyPoints (deref (heap s2)) (pointBuffer s2)
                      (minDist (width ts1))
                    = (n0 :: kept)
                      ++ (if (last (n0 :: kept) O
                              =? last (n0 :: seq (S n0) (List.length moves)) O)%nat
                          then []
                          else [last (n0 :: seq (S n0) (List.length moves)) O])).
  { rewrite Hbuf. exact Eshape. }
  set (kept_refs := filterNearbyPoints (deref (heap s2)) (pointBuffer s2)
                      (minDist (width ts1))) in *.
  assert (Hne : kept_refs <> []) by (rewrite Efilter; discriminate).
  assert (Hhd : hd_error kept_refs = Some n0) by (now rewrite Efilter).
  assert (Hlast : last kept_refs O = (n0 + List.length moves)%nat).
  { rewrite <- last_seq, Efilter.
    destruct (last (n0 :: kept) O
              =? last (n0 :: seq (S n0) (List.length moves)) O)%nat eqn:El.
    - rewrite app_nil_r. now apply Nat.eqb_eq.
    - apply last_last. }
  set (pts := map (deref (heap s2)) kept_refs).
  assert (Hpts : pts <> []).
  { unfold pts. destruct kept_refs; [contradiction | discriminate]. }
  exists (with_points cur pts (Some t1)).
  assert (Es3 : s3 = mk (heap s2) None [] false
                       (operations s2 ++ [Stroke (with_points cur pts (Some t1))])
                       (completed s2 ++ [with_points cur pts (Some t1)])).
  { unfold s3. fold s1. fold s2. unfold endDrawing. rewrite Ecur.
    fold kept_refs. fold pts. cbn [with_points StrokeOperation.points].
    destruct pts; [contradiction | reflexivity]. }
  rewrite Es3. cbn [operations completed currentStroke pointBuffer isDrawing].
  rewrite Hops, Hdone.
  repeat (split; [reflexivity|]).
  split; [exact Hhead|]. split; [reflexivity|].
  cbn [with_points StrokeOperation.points].
  split; [exact Hpts|]. split.
  - unfold pts. destruct kept_refs as [|r rs]; [contradiction|].
    cbn in Hhd. injection Hhd as ->. cbn [map hd_error]. f_equal.
    rewrite Hheap. apply deref_new.
  - unfold pts. rewrite (last_map _ _ O) by exact Hne.
    unfold loc in *. rewrite Hlast, Hheap. unfold deref, n0.
    rewrite app_nth2_plus.
    rewrite <- (length_map snd moves). apply nth_length_last.
Qed.

Example session_three_points :
  let tool := mkTool brush "#1a1a2e" 20 in
  let s3 := endDrawing tool 9
              (moveAll [(tool, Point.mk 0 1 None 1); (tool, Point.mk 0 2 None 2)]
                 (startDrawing "user-a" tool (Point.mk 0 0 None 0) "s1" 0
                    (mk [] None [] false [] []))) in
  map StrokeOperation.points (completed s3)
  = [[Point.mk 0 0 None 0; Point.mk 0 2 None 2]].
Proof. reflexivity. Qed.

End DrawSessionProps.
